(** * AdoLib i18n: the message catalog of [i18n/i18n.go]

    A shallow embedding of the catalog loader ([RegisterI18n],
    [recGetMessages]), the cross-locale validator ([checkLanguageMap]) and
    the render engine ([Translate]), followed by the properties of the
    catalog design that hold on it.

    Conventions of the embedding:
    - the package variable [iLocalizer] (a [map[string]map[string]*Message])
      is a [gmap string (gmap string Message)] threaded through the monad
      [M]; every [*Message] is allocated once by [recGetMessages] and never
      shared, so a message is stored by value and an absent entry stands
      for both a missing key and a nil pointer;
    - [log.Fatalf] and a panic end the process: the run is [Exit] and
      carries no state;
    - the order of a Go [range] over a map is left to the runtime: it is the
      interface [MapRange], and every statement holds for each order;
    - the file system, the TOML decoder and the language-tag parser are the
      interface [LocaleEnv]; the template engine is the interface
      [TemplateEngine], a parse and an execute function, with the
      fragment of Go's [text/template] that catalog messages use as the
      instance [GoTemplate.engine];
    - concurrent callers of [Translate] are interleaved atomic steps on
      one catalog ([step], [run]); a lone caller run to the end does what
      the function [Translate] does ([lone_caller]). *)

From Stdlib Require Import String Ascii List Bool Arith Lia.
From stdpp Require Import base option list gmap strings pretty.

Local Open Scope string_scope.
Local Open Scope list_scope.
Local Open Scope nat_scope.
Set Warnings "-register-all".

(** ** Strings *)

(** [strings.Contains(s, substr)]. *)
Fixpoint Contains (s substr : string) : bool :=
  if String.prefix substr s then true
  else match s with
       | EmptyString => false
       | String _ s' => Contains s' substr
       end.

(** [strings.Split(s, sep)] for a separator of one character, the way
    the loader calls it. *)
Fixpoint Split (s : string) (sep : ascii) : list string :=
  match s with
  | EmptyString => [EmptyString]
  | String c s' =>
      if Ascii.eqb c sep then EmptyString :: Split s' sep
      else match Split s' sep with
           | [] => [String c EmptyString]
           | h :: t => String c h :: t
           end
  end.

(** ** Interfaces of the surrounding libraries *)

(** [range] over a map: the traversal numbered [n] of the map [m] visits
    the entries of [m] in some order, which may differ from that of
    another traversal of the same map. *)
Class MapRange := {
  range : ∀ {V : Type}, nat → gmap string V → list (string * V);
  range_perm : ∀ (V : Type) (n : nat) (m : gmap string V),
    range n m ≡ₚ map_to_list m
}.

(** [text/template]: [Parse] is [New("").Parse], [Execute] runs a
    template on the data of the call; [None] is a non-nil [error]. The data
    argument is a [map[string]interface{}], [None] being the nil map. *)
Class TemplateEngine := {
  Template : Type;
  Value : Type;
  Parse : string → option Template;
  Execute : Template → option (gmap string Value) → option string
}.

(** A decoded document, as [toml.Unmarshal] stores it in an
    [interface{}]: a string, a [map[string]interface{}] (its entries in
    the order the [range] of [recGetMessages] visits them) or a value of
    another type, kept as its [%T] and [%v] texts. *)
Inductive Raw : Type :=
  | RString (data : string)
  | RMap (entries : list (string * Raw))
  | ROther (goType text : string).

(** [os.ReadDir] (the entry names), [os.ReadFile], [toml.Unmarshal],
    [language.MustParse] (as the test whether it returns) and
    [path.Join]. *)
Class LocaleEnv := {
  ReadDir : string → option (list string);
  ReadFile : string → option string;
  Unmarshal : string → option Raw;
  languageParse : string → bool;
  pathJoin : string → string → string
}.

(** ** Data model *)

Section Catalog.
Context `{TemplateEngine}.

(** [type Message struct]; [parseOnce] is the [done] flag of the
    [sync.Once]. *)
Record Message := mkMessage {
  Data : string;
  parseOnce : bool;
  parsedTemplate : option Template
}.

(** [&Message{Data: data}] *)
Definition newMessage (data : string) : Message :=
  mkMessage data false None.

Abbreviation Table := (gmap string Message).
Abbreviation Catalog := (gmap string (gmap string Message)).

(** [iLocalizer[lang][messageId]], read and, through the pointer stored
    there, written. *)
Definition getMessage (c : Catalog) (lang messageId : string)
    : option Message :=
  c !! lang ≫= λ localizer, localizer !! messageId.

Definition setMessage (c : Catalog) (lang messageId : string)
    (message : Message) : Catalog :=
  alter (insert messageId message) lang c.

(** [leftDelim] *)
Definition leftDelim : string := "{{".

(** Values of type [error] built by [fmt.Errorf]. *)
Inductive error : Type :=
  | ErrLength (lang : string) (n : nat) (firstLang : string) (m : nat)
  | ErrMissing (lang firstLang k : string)
  | ErrUnsupported (goType text : string).

(** The message id an error text names, if any. *)
Definition errorKey (e : error) : option string :=
  match e with
  | ErrMissing _ _ k => Some k
  | _ => None
  end.

(** The ways the process ends: the [log.Fatalf] calls of the package, in
    source order, then the two run-time panics. *)
Inductive Fatal : Type :=
  | FatalLoadDir (localeDir : string)
  | FatalFilename (name : string)
  | FatalLoadFile (filename : string)
  | FatalUnmarshal (filename : string)
  | FatalRecGetMessages (err : error)
  | FatalCheck (err : error)
  | FatalEmpty (messageId : string)
  | FatalExist (messageId oldData newData : string)
  | FatalNoLocalizer (lang : string)
  | FatalNoMessage (messageId lang : string)
  | FatalParse (messageId lang data : string)
  | FatalExecute (messageId lang data : string)
      (templateDate : option (gmap string Value))
  | PanicLanguage (lang : string)
  | PanicNilMap
  | PanicNilTemplate.

(** ** The process monad: the catalog as state, [Exit] on a fatal end *)

Inductive Run (A : Type) : Type :=
  | Ret (a : A) (c : Catalog)
  | Exit (f : Fatal).
Global Arguments Ret {A} a c.
Global Arguments Exit {A} f.

Definition M (A : Type) : Type := Catalog → Run A.

Definition ret {A} (a : A) : M A := λ c, Ret a c.
Definition bind {A B} (m : M A) (k : A → M B) : M B :=
  λ c, match m c with
       | Ret a c' => k a c'
       | Exit f => Exit f
       end.
Definition fatalf {A} (f : Fatal) : M A := λ _, Exit f.
Definition getCatalog : M Catalog := λ c, Ret c c.
Definition putCatalog (c : Catalog) : M unit := λ _, Ret tt c.

(** The catalog a run leaves, and whether it returns. *)
Definition stateOf {A} (r : Run A) : Catalog :=
  match r with
  | Ret _ c => c
  | Exit _ => ∅
  end.

Definition returns {A} (r : Run A) : bool :=
  match r with
  | Ret _ _ => true
  | Exit _ => false
  end.

End Catalog.

Abbreviation Table := (gmap string Message).
Abbreviation Catalog := (gmap string (gmap string Message)).

Notation "x <- m ;; k" := (bind m (λ x, k))
  (at level 100, m at level 99, right associativity,
   format "'[v' x  <-  m  ;; '/' k ']'").
Notation "m ;;; k" := (bind m (λ _, k))
  (at level 100, right associativity,
   format "'[v' m  ;;; '/' k ']'").

(** ** The validator *)

Section Validator.
Context `{TemplateEngine} `{MapRange}.

(** The inner loop of [checkLanguageMap], [for k := range firstMap]: the
    first key visited that [mp] lacks. *)
Fixpoint firstMissing (mp : Table) (ks : list string) : option string :=
  match ks with
  | [] => None
  | k :: ks' =>
      match mp !! k with
      | None => Some k
      | Some _ => firstMissing mp ks'
      end
  end.

(** The outer loop of [checkLanguageMap] on the entries still to visit,
    with the loop variables [first], [firstLang] and [firstMap]. The
    traversals of [firstMap] are numbered by the entries left. *)
Fixpoint checkLoop (first : bool) (firstLang : string) (firstMap : Table)
    (todo : list (string * Table)) : option error :=
  match todo with
  | [] => None
  | (lang, mp) :: todo' =>
      if first then checkLoop false lang mp todo'
      else if negb (Nat.eqb (size mp) (size firstMap)) then
        Some (ErrLength lang (size mp) firstLang (size firstMap))
      else
        match firstMissing mp (range (S (length todo')) firstMap).*1 with
        | Some k => Some (ErrMissing lang firstLang k)
        | None => checkLoop false firstLang firstMap todo'
        end
  end.

(** [func checkLanguageMap() error], [None] being [nil]. *)
Definition checkLanguageMap (iLocalizer : Catalog) : option error :=
  checkLoop true "" ∅ (range 0 iLocalizer).

End Validator.

(** ** The loader *)

Section Loader.
Context `{TemplateEngine} `{MapRange} `{LocaleEnv}.

(** [if messageId != "" { k = messageId + "." + k }] *)
Definition joinId (messageId k : string) : string :=
  if String.eqb messageId "" then k else messageId +:+ "." +:+ k.

(** [func recGetMessages(lang, messageId string, raw interface{}) error];
    the result [None] is [nil]. Writing to [iLocalizer[lang]] when that
    table is nil panics. *)
Fixpoint recGetMessages (lang messageId : string) (raw : Raw)
    : M (option error) :=
  match raw with
  | RString data =>
      if String.eqb data "" then fatalf (FatalEmpty messageId)
      else
        iLocalizer <- getCatalog ;;
        match iLocalizer !! lang with
        | None => fatalf PanicNilMap
        | Some table =>
            match table !! messageId with
            | Some oldMessage =>
                fatalf (FatalExist messageId (Data oldMessage) data)
            | None =>
                putCatalog
                  (<[lang := <[messageId := newMessage data]> table]>
                     iLocalizer) ;;;
                ret None
            end
        end
  | RMap entries =>
      (fix loop (entries : list (string * Raw)) : M (option error) :=
         match entries with
         | [] => ret None
         | (k, v) :: entries' =>
             let k := joinId messageId k in
             err <- recGetMessages lang k v ;;
             match err with
             | Some e => ret (Some e)
             | None => loop entries'
             end
         end) entries
  | ROther goType text => ret (Some (ErrUnsupported goType text))
  end.

(** The body of the loop of [RegisterI18n] for one directory entry. *)
Definition registerFile (localeDir name : string) : M unit :=
  let s := Split name "." in
  if Nat.eqb (length s) 2 && String.eqb (nth 1 s "") "go" then ret tt
  else if negb (Nat.eqb (length s) 3) || negb (String.eqb (nth 2 s "") "toml") then
    fatalf (FatalFilename name)
  else
    let lang := nth 1 s "" in
    if negb (languageParse lang) then fatalf (PanicLanguage lang)
    else
      iLocalizer <- getCatalog ;;
      (match iLocalizer !! lang with
       | None => putCatalog (<[lang := ∅]> iLocalizer)
       | Some _ => ret tt
       end) ;;;
      let filename := pathJoin localeDir name in
      match ReadFile filename with
      | None => fatalf (FatalLoadFile filename)
      | Some buf =>
          match Unmarshal buf with
          | None => fatalf (FatalUnmarshal filename)
          | Some raw =>
              err <- recGetMessages lang "" raw ;;
              match err with
              | Some e => fatalf (FatalRecGetMessages e)
              | None => ret tt
              end
          end
      end.

(** The loop of [RegisterI18n] over the directory entries. *)
Fixpoint registerFiles (localeDir : string) (names : list string) : M unit :=
  match names with
  | [] => ret tt
  | name :: names' =>
      registerFile localeDir name ;;; registerFiles localeDir names'
  end.

(** [RegisterI18n] up to the call of [checkLanguageMap]: the loader. *)
Definition loadLocaleDir (localeDir : string) : M unit :=
  match ReadDir localeDir with
  | None => fatalf (FatalLoadDir localeDir)
  | Some fileInfos => registerFiles localeDir fileInfos
  end.

(** [func RegisterI18n(localeDir string)] *)
Definition RegisterI18n (localeDir : string) : M unit :=
  loadLocaleDir localeDir ;;;
  iLocalizer <- getCatalog ;;
  match checkLanguageMap iLocalizer with
  | Some err => fatalf (FatalCheck err)
  | None => ret tt
  end.

End Loader.

(** ** What a directory contributes to the catalog

    The notions the statements about the loader are phrased in. *)

Section Contribution.
Context `{LocaleEnv}.

(** A two-segment name with the source extension. *)
Definition isSourceFile (name : string) : Prop :=
  ∃ base, Split name "." = [base; "go"].

(** A name of the shape [<module>.<lang>.toml]. *)
Definition isLocaleFile (name lang : string) : Prop :=
  ∃ modul, Split name "." = [modul; lang; "toml"].

(** The string leaf of a document under the keys [path]. *)
Inductive leafAt : Raw → list string → string → Prop :=
  | leaf_here (data : string) : leafAt (RString data) [] data
  | leaf_below (entries : list (string * Raw)) (k : string) (v : Raw)
      (path : list string) (data : string) :
      (k, v) ∈ entries → leafAt v path data →
      leafAt (RMap entries) (k :: path) data.

(** The values of a document that are not maps, each with the id
    [recGetMessages] reaches it with, in the order of the walk. *)
Fixpoint flatten (messageId : string) (raw : Raw) : list (string * Raw) :=
  match raw with
  | RMap entries =>
      (fix walk (entries : list (string * Raw)) : list (string * Raw) :=
         match entries with
         | [] => []
         | (k, v) :: entries' =>
             app (flatten (joinId messageId k) v) (walk entries')
         end) entries
  | leaf => [(messageId, leaf)]
  end.

(** The locale and the document of a directory entry that is a locale
    file with a valid tag, readable and decodable. *)
Definition document (localeDir name : string) : option (string * Raw) :=
  match Split name "." with
  | [_; lang; ext] =>
      if String.eqb ext "toml" && languageParse lang then
        buf ← ReadFile (pathJoin localeDir name);
        raw ← Unmarshal buf;
        Some (lang, raw)
      else None
  | _ => None
  end.

(** The leaves of the documents of a listing, with locale and id, in
    loading order. *)
Definition leaves (localeDir : string) (names : list string)
    : list (string * string * Raw) :=
  flat_map
    (λ name,
       match document localeDir name with
       | Some (lang, raw) =>
           map (λ leaf, (lang, leaf.1, leaf.2)) (flatten "" raw)
       | None => []
       end) names.

End Contribution.

(** ** The triggers of a fatal end of the loader *)

Section Causes.
Context `{TemplateEngine} `{LocaleEnv}.

(** [loadCause localeDir names c f]: the listing [names], loaded into the
    catalog [c], holds a trigger, and [f] is the fatal end that reports
    it. *)
Inductive loadCause (localeDir : string) (names : list string) (c : Catalog)
    : Fatal → Prop :=
  | cause_filename (name : string) :
      name ∈ names → ¬ isSourceFile name →
      (∀ lang, ¬ isLocaleFile name lang) →
      loadCause localeDir names c (FatalFilename name)
  | cause_language (name lang : string) :
      name ∈ names → isLocaleFile name lang → languageParse lang = false →
      loadCause localeDir names c (PanicLanguage lang)
  | cause_file (name lang : string) :
      name ∈ names → isLocaleFile name lang → languageParse lang = true →
      ReadFile (pathJoin localeDir name) = None →
      loadCause localeDir names c (FatalLoadFile (pathJoin localeDir name))
  | cause_unmarshal (name lang buf : string) :
      name ∈ names → isLocaleFile name lang → languageParse lang = true →
      ReadFile (pathJoin localeDir name) = Some buf → Unmarshal buf = None →
      loadCause localeDir names c (FatalUnmarshal (pathJoin localeDir name))
  | cause_unsupported (lang messageId goType text : string) :
      (lang, messageId, ROther goType text) ∈ leaves localeDir names →
      loadCause localeDir names c
        (FatalRecGetMessages (ErrUnsupported goType text))
  | cause_empty (lang messageId : string) :
      (lang, messageId, RString "") ∈ leaves localeDir names →
      loadCause localeDir names c (FatalEmpty messageId)
  | cause_exist_loaded (lang messageId data : string) (old : Message) :
      (lang, messageId, RString data) ∈ leaves localeDir names →
      getMessage c lang messageId = Some old →
      loadCause localeDir names c (FatalExist messageId (Data old) data)
  | cause_exist_earlier (lang messageId data oldData : string)
      (l1 l2 l3 : list (string * string * Raw)) :
      leaves localeDir names =
        l1 ++ (lang, messageId, RString oldData) :: l2 ++
        (lang, messageId, RString data) :: l3 →
      loadCause localeDir names c (FatalExist messageId oldData data).

(** The same for the directory, whose listing may fail. *)
Inductive dirCause (localeDir : string) (c : Catalog) : Fatal → Prop :=
  | cause_dir :
      ReadDir localeDir = None →
      dirCause localeDir c (FatalLoadDir localeDir)
  | cause_listed (names : list string) (f : Fatal) :
      ReadDir localeDir = Some names → loadCause localeDir names c f →
      dirCause localeDir c f.

(** A successful load of [names] into [c], giving [c']: every entry is a
    source file or a locale file with its document, the leaves are
    non-empty strings under ids that are distinct per locale and new to
    [c], and [c'] holds what [c] held and one fresh message per leaf. *)
Record Loaded (localeDir : string) (names : list string) (c c' : Catalog)
    : Prop := {
  loaded_names : ∀ name, name ∈ names →
    isSourceFile name ∨ is_Some (document localeDir name);
  loaded_strings : ∀ lang messageId leaf,
    (lang, messageId, leaf) ∈ leaves localeDir names →
    ∃ data, leaf = RString data ∧ data ≠ "";
  loaded_NoDup : NoDup (leaves localeDir names).*1;
  loaded_new : ∀ lang messageId leaf,
    (lang, messageId, leaf) ∈ leaves localeDir names →
    getMessage c lang messageId = None;
  loaded_messages : ∀ lang messageId message,
    getMessage c' lang messageId = Some message ↔
    getMessage c lang messageId = Some message ∨
    ∃ data, (lang, messageId, RString data) ∈ leaves localeDir names ∧
      message = newMessage data;
  loaded_locales : ∀ lang,
    is_Some (c' !! lang) ↔
    is_Some (c !! lang) ∨
    ∃ name raw, name ∈ names ∧ document localeDir name = Some (lang, raw)
}.

End Causes.

(** ** The walk of [recGetMessages] as a pass over the leaves *)

Section Leaves.
Context `{TemplateEngine}.

(** [recGetMessages] on each leaf in turn, up to the first error. *)
Fixpoint addLeaves (lang : string) (ls : list (string * Raw))
    : M (option error) :=
  match ls with
  | [] => ret None
  | (messageId, leaf) :: ls' =>
      err <- recGetMessages lang messageId leaf ;;
      match err with
      | Some e => ret (Some e)
      | None => addLeaves lang ls'
      end
  end.

(** The table once the string leaves of [ls] are stored in it. *)
Fixpoint addAll (t : Table) (ls : list (string * Raw)) : Table :=
  match ls with
  | [] => t
  | (messageId, RString data) :: ls' =>
      addAll (<[messageId := newMessage data]> t) ls'
  | _ :: ls' => addAll t ls'
  end.

(** Leaves that load into the table [t]: non-empty strings under ids
    that are pairwise distinct and new to [t]. *)
Definition Clean (t : Table) (ls : list (string * Raw)) : Prop :=
  (∀ messageId leaf, (messageId, leaf) ∈ ls →
     ∃ data, leaf = RString data ∧ data ≠ "") ∧
  NoDup ls.*1 ∧
  (∀ messageId, messageId ∈ ls.*1 → t !! messageId = None).

Definition isLeaf (raw : Raw) : Prop :=
  match raw with
  | RMap _ => False
  | _ => True
  end.

End Leaves.

(** ** The render engine *)

Section Translator.
Context `{TemplateEngine}.

(** [message.parseOnce.Do(func() { ... })] of [Translate], run by one
    caller at a time: the closure runs unless the flag is set, stores what
    [Parse] returned and ends the process on an error; then the flag is
    set. *)
Definition parseOnceDo (lang messageId : string) (message : Message)
    : M Message :=
  if parseOnce message then ret message
  else
    let parsed := Parse (Data message) in
    match parsed with
    | None => fatalf (FatalParse messageId lang (Data message))
    | Some _ =>
        let message' := mkMessage (Data message) true parsed in
        iLocalizer <- getCatalog ;;
        putCatalog (setMessage iLocalizer lang messageId message') ;;;
        ret message'
    end.

(** The template [Translate] executes for a message: the cached one once
    the flag is set, the outcome of [Parse] before. *)
Definition compiled (message : Message) : option Template :=
  if parseOnce message then parsedTemplate message
  else Parse (Data message).

(** [func Translate(lang, messageId string, templateDate
    map[string]interface{}) string] *)
Definition Translate (lang messageId : string)
    (templateDate : option (gmap string Value)) : M string :=
  iLocalizer <- getCatalog ;;
  match iLocalizer !! lang with
  | None => fatalf (FatalNoLocalizer lang)
  | Some localizer =>
      match localizer !! messageId with
      | None => fatalf (FatalNoMessage messageId lang)
      | Some message =>
          if negb (Contains (Data message) leftDelim) then ret (Data message)
          else
            message <- parseOnceDo lang messageId message ;;
            match parsedTemplate message with
            | None => fatalf PanicNilTemplate
            | Some t =>
                match Execute t templateDate with
                | None =>
                    fatalf (FatalExecute messageId lang (Data message)
                              templateDate)
                | Some buf => ret buf
                end
            end
      end
  end.

(** What [Translate] returns for a message on the data [d], if it
    returns: the raw content, or its template executed on [d]. *)
Definition rendered (message : Message) (d : option (gmap string Value))
    : option string :=
  if negb (Contains (Data message) leftDelim) then Some (Data message)
  else compiled message ≫= λ t, Execute t d.

(** The state of a message as the loader leaves it or a completed [Do]
    sets it: raw content not empty; flag set and the template of the raw
    content cached, or flag clear and no template. *)
Definition wellFormed (message : Message) : Prop :=
  Data message ≠ "" ∧
  if parseOnce message then
    parsedTemplate message = Parse (Data message) ∧
    is_Some (parsedTemplate message)
  else parsedTemplate message = None.

(** [evolves c c']: [c'] has the locales and ids of [c], each message
    with its raw content and the template it executes. *)
Record evolves (c c' : Catalog) : Prop := {
  evolves_locales : dom c' = dom c;
  evolves_ids : ∀ lang t, c !! lang = Some t →
    ∃ t', c' !! lang = Some t' ∧ dom t' = dom t;
  evolves_messages : ∀ lang messageId message,
    getMessage c lang messageId = Some message →
    ∃ message', getMessage c' lang messageId = Some message' ∧
      Data message' = Data message ∧
      compiled message' = compiled message
}.

(** [matures c c']: the messages well formed in [c] are well formed in
    [c'], and a template cached in [c] is the one cached in [c']. *)
Definition matures (c c' : Catalog) : Prop :=
  ∀ lang messageId message message',
    getMessage c lang messageId = Some message →
    getMessage c' lang messageId = Some message' →
    wellFormed message →
    wellFormed message' ∧
    (is_Some (parsedTemplate message) →
     parsedTemplate message' = parsedTemplate message).

(** A sequence of [Translate] calls by one caller, with their results. *)
Fixpoint translateAll
    (calls : list (string * string * option (gmap string Value)))
    : M (list string) :=
  match calls with
  | [] => ret []
  | (lang, messageId, templateDate) :: calls' =>
      out <- Translate lang messageId templateDate ;;
      outs <- translateAll calls' ;;
      ret (out :: outs)
  end.

End Translator.

(** ** Concurrent callers of [Translate]

    Callers run [Translate] as interleaved atomic steps on the shared
    catalog. A [sync.Once] is its [done] flag (the field [parseOnce] of the
    message) and its mutex: [locks] holds the messages whose [Once] is
    running its closure. [Do] returns at once when the flag is set, waits
    while the closure runs in another caller, and runs it otherwise. *)

Section Concurrent.
Context `{TemplateEngine}.

(** Where a caller is in [Translate]; [err] is the variable the closure
    assigns. *)
Inductive Caller : Type :=
  | AtEntry (lang messageId : string) (templateDate : option (gmap string Value))
  | AtOnce (lang messageId : string) (templateDate : option (gmap string Value))
  | AtParse (lang messageId : string) (templateDate : option (gmap string Value))
  | AtCheck (lang messageId : string) (templateDate : option (gmap string Value))
      (err : bool)
  | AtExecute (lang messageId : string) (templateDate : option (gmap string Value))
  | Returned (lang messageId : string) (templateDate : option (gmap string Value))
      (out : string).

(** The process: [parses] logs each call of [Parse], latest first;
    [exited] is set by the [log.Fatalf] that ended it. *)
Record World := mkWorld {
  catalog : Catalog;
  locks : gset (string * string);
  callers : list Caller;
  parses : list (string * string);
  exited : option Fatal
}.

Definition setCaller (w : World) (i : nat) (t : Caller) : World :=
  mkWorld (catalog w) (locks w) (<[i := t]> (callers w)) (parses w) (exited w).

Definition exitWith (w : World) (f : Fatal) : World :=
  mkWorld (catalog w) (locks w) (callers w) (parses w) (Some f).

(** One step of caller [i]; [None] when it cannot move: the process has
    ended, the caller has returned or it waits for a running [Once]. *)
Definition step (i : nat) (w : World) : option World :=
  match exited w with
  | Some _ => None
  | None =>
      match callers w !! i with
      | None => None
      | Some (AtEntry lang messageId d) =>
          match catalog w !! lang with
          | None => Some (exitWith w (FatalNoLocalizer lang))
          | Some localizer =>
              match localizer !! messageId with
              | None => Some (exitWith w (FatalNoMessage messageId lang))
              | Some message =>
                  if negb (Contains (Data message) leftDelim) then
                    Some (setCaller w i (Returned lang messageId d (Data message)))
                  else Some (setCaller w i (AtOnce lang messageId d))
              end
          end
      | Some (AtOnce lang messageId d) =>
          match getMessage (catalog w) lang messageId with
          | None => None
          | Some message =>
              if parseOnce message then
                Some (setCaller w i (AtExecute lang messageId d))
              else if decide ((lang, messageId) ∈ locks w) then None
              else
                Some (mkWorld (catalog w) ({[(lang, messageId)]} ∪ locks w)
                        (<[i := AtParse lang messageId d]> (callers w))
                        (parses w) None)
          end
      | Some (AtParse lang messageId d) =>
          match getMessage (catalog w) lang messageId with
          | None => None
          | Some message =>
              let parsed := Parse (Data message) in
              Some (mkWorld
                      (setMessage (catalog w) lang messageId
                         (mkMessage (Data message) (parseOnce message) parsed))
                      (locks w)
                      (<[i := AtCheck lang messageId d
                                 (negb (bool_decide (is_Some parsed)))]>
                         (callers w))
                      ((lang, messageId) :: parses w) None)
          end
      | Some (AtCheck lang messageId d err) =>
          match getMessage (catalog w) lang messageId with
          | None => None
          | Some message =>
              if err then
                Some (exitWith w (FatalParse messageId lang (Data message)))
              else
                Some (mkWorld
                        (setMessage (catalog w) lang messageId
                           (mkMessage (Data message) true
                              (parsedTemplate message)))
                        (locks w ∖ {[(lang, messageId)]})
                        (<[i := AtExecute lang messageId d]> (callers w))
                        (parses w) None)
          end
      | Some (AtExecute lang messageId d) =>
          match getMessage (catalog w) lang messageId with
          | None => None
          | Some message =>
              match parsedTemplate message with
              | None => Some (exitWith w PanicNilTemplate)
              | Some t =>
                  match Execute t d with
                  | None =>
                      Some (exitWith w
                              (FatalExecute messageId lang (Data message) d))
                  | Some buf =>
                      Some (setCaller w i (Returned lang messageId d buf))
                  end
              end
          end
      | Some (Returned _ _ _ _) => None
      end
  end.

(** A schedule names the caller that moves next; a caller that cannot
    move leaves the world as it is. *)
Fixpoint run (schedule : list nat) (w : World) : World :=
  match schedule with
  | [] => w
  | i :: schedule' => run schedule' (default w (step i w))
  end.

(** The process when the callers start: no [Once] running. *)
Definition start (c : Catalog)
    (calls : list (string * string * option (gmap string Value))) : World :=
  mkWorld c ∅ (map (λ call, AtEntry call.1.1 call.1.2 call.2) calls) [] None.

(** The compiled-template slot of a message, read off the process. *)
Inductive Slot : Type := Uncompiled | Compiling | Compiled | CompileFailed.

Definition failedOn (f : option Fatal) (lang messageId : string) : bool :=
  match f with
  | Some (FatalParse messageId' lang' _) =>
      bool_decide (lang' = lang ∧ messageId' = messageId)
  | _ => false
  end.

Definition slot (w : World) (lang messageId : string) : option Slot :=
  message ← getMessage (catalog w) lang messageId;
  Some (if failedOn (exited w) lang messageId then CompileFailed
        else if parseOnce message then Compiled
        else if decide ((lang, messageId) ∈ locks w) then Compiling
        else Uncompiled).

(** The edges of the slot's state machine. *)
Inductive slotEdge : Slot → Slot → Prop :=
  | edge_start : slotEdge Uncompiled Compiling
  | edge_ok : slotEdge Compiling Compiled
  | edge_fail : slotEdge Compiling CompileFailed.

(** The steps, case by case. *)
Inductive stepCase (i : nat) (w : World) : World → Prop :=
  | step_no_localizer lang messageId d :
      callers w !! i = Some (AtEntry lang messageId d) →
      catalog w !! lang = None →
      stepCase i w (exitWith w (FatalNoLocalizer lang))
  | step_no_message lang messageId d :
      callers w !! i = Some (AtEntry lang messageId d) →
      is_Some (catalog w !! lang) →
      getMessage (catalog w) lang messageId = None →
      stepCase i w (exitWith w (FatalNoMessage messageId lang))
  | step_fast lang messageId d message :
      callers w !! i = Some (AtEntry lang messageId d) →
      getMessage (catalog w) lang messageId = Some message →
      Contains (Data message) leftDelim = false →
      stepCase i w (setCaller w i (Returned lang messageId d (Data message)))
  | step_slow lang messageId d message :
      callers w !! i = Some (AtEntry lang messageId d) →
      getMessage (catalog w) lang messageId = Some message →
      Contains (Data message) leftDelim = true →
      stepCase i w (setCaller w i (AtOnce lang messageId d))
  | step_done lang messageId d message :
      callers w !! i = Some (AtOnce lang messageId d) →
      getMessage (catalog w) lang messageId = Some message →
      parseOnce message = true →
      stepCase i w (setCaller w i (AtExecute lang messageId d))
  | step_enter lang messageId d message :
      callers w !! i = Some (AtOnce lang messageId d) →
      getMessage (catalog w) lang messageId = Some message →
      parseOnce message = false →
      (lang, messageId) ∉ locks w →
      stepCase i w
        (mkWorld (catalog w) ({[(lang, messageId)]} ∪ locks w)
           (<[i := AtParse lang messageId d]> (callers w)) (parses w) None)
  | step_parse lang messageId d message :
      callers w !! i = Some (AtParse lang messageId d) →
      getMessage (catalog w) lang messageId = Some message →
      stepCase i w
        (mkWorld
           (setMessage (catalog w) lang messageId
              (mkMessage (Data message) (parseOnce message)
                 (Parse (Data message))))
           (locks w)
           (<[i := AtCheck lang messageId d
                      (negb (bool_decide (is_Some (Parse (Data message)))))]>
              (callers w))
           ((lang, messageId) :: parses w) None)
  | step_failed lang messageId d message :
      callers w !! i = Some (AtCheck lang messageId d true) →
      getMessage (catalog w) lang messageId = Some message →
      stepCase i w (exitWith w (FatalParse messageId lang (Data message)))
  | step_compiled lang messageId d message :
      callers w !! i = Some (AtCheck lang messageId d false) →
      getMessage (catalog w) lang messageId = Some message →
      stepCase i w
        (mkWorld
           (setMessage (catalog w) lang messageId
              (mkMessage (Data message) true (parsedTemplate message)))
           (locks w ∖ {[(lang, messageId)]})
           (<[i := AtExecute lang messageId d]> (callers w))
           (parses w) None)
  | step_nil_template lang messageId d message :
      callers w !! i = Some (AtExecute lang messageId d) →
      getMessage (catalog w) lang messageId = Some message →
      parsedTemplate message = None →
      stepCase i w (exitWith w PanicNilTemplate)
  | step_execute_failed lang messageId d message t :
      callers w !! i = Some (AtExecute lang messageId d) →
      getMessage (catalog w) lang messageId = Some message →
      parsedTemplate message = Some t → Execute t d = None →
      stepCase i w
        (exitWith w (FatalExecute messageId lang (Data message) d))
  | step_executed lang messageId d message t buf :
      callers w !! i = Some (AtExecute lang messageId d) →
      getMessage (catalog w) lang messageId = Some message →
      parsedTemplate message = Some t → Execute t d = Some buf →
      stepCase i w (setCaller w i (Returned lang messageId d buf)).

(** A caller inside the closure of the [Once] of a message. *)
Definition inOnce (t : Caller) (lang messageId : string) : Prop :=
  match t with
  | AtParse l m _ | AtCheck l m _ _ => l = lang ∧ m = messageId
  | _ => False
  end.

(** What holds of a caller at each point of [Translate]; [c0] is the
    catalog the callers started on. *)
Definition callerOk (c0 : Catalog) (w : World) (t : Caller) : Prop :=
  match t with
  | AtEntry _ _ _ => True
  | AtOnce l m _ =>
      ∃ message, getMessage (catalog w) l m = Some message ∧
        Contains (Data message) leftDelim = true
  | AtParse l m _ =>
      (l, m) ∈ locks w ∧ ((l, m) ∉ parses w) ∧
      ∃ message, getMessage (catalog w) l m = Some message ∧
        Contains (Data message) leftDelim = true ∧
        parseOnce message = false
  | AtCheck l m _ err =>
      (l, m) ∈ locks w ∧ (l, m) ∈ parses w ∧
      ∃ message, getMessage (catalog w) l m = Some message ∧
        Contains (Data message) leftDelim = true ∧
        parseOnce message = false ∧
        parsedTemplate message = Parse (Data message) ∧
        err = negb (bool_decide (is_Some (Parse (Data message))))
  | AtExecute l m _ =>
      ∃ message, getMessage (catalog w) l m = Some message ∧
        Contains (Data message) leftDelim = true ∧
        parseOnce message = true
  | Returned l m d out =>
      ∃ message0, getMessage c0 l m = Some message0 ∧
        rendered message0 d = Some out
  end.

(** The invariant of the process started on the catalog [c0]. *)
Record Inv (c0 : Catalog) (w : World) : Prop := {
  inv_callers : ∀ i t, callers w !! i = Some t → callerOk c0 w t;
  inv_mutex : ∀ i j ti tj l m,
    callers w !! i = Some ti → callers w !! j = Some tj →
    inOnce ti l m → inOnce tj l m → i = j;
  inv_owner : ∀ l m, (l, m) ∈ locks w →
    ∃ i t, callers w !! i = Some t ∧ inOnce t l m;
  inv_parsed : ∀ l m, (l, m) ∈ parses w →
    (l, m) ∈ locks w ∨
    ∃ message, getMessage (catalog w) l m = Some message ∧
      parseOnce message = true;
  inv_NoDup : NoDup (parses w);
  inv_evolves : evolves c0 (catalog w)
}.

(** A template is stored only by the one [Parse] of its message. *)
Definition slotsSettled (w : World) : Prop :=
  ∀ l m message, getMessage (catalog w) l m = Some message →
    is_Some (parsedTemplate message) →
    parseOnce message = true ∨ (l, m) ∈ parses w.

End Concurrent.

(** ** The fragment of [text/template] the catalog's messages use

    Literal text and field actions [{{.Name}}] (spaces allowed around the
    field) on a map of strings, integers and booleans, after the package
    documentation of [text/template]: a template made by [New] has the
    option [missingkey=default], under which a key the map lacks prints
    as [<no value>]. [parse] answers [None] both for a template the
    engine rejects and for one outside the fragment; nothing is stated
    about those. *)

Module GoTemplate.

Inductive GoValue : Type :=
  | VString (s : string)
  | VInt (n : Z)
  | VBool (b : bool).

Inductive Node : Type :=
  | TextNode (text : string)
  | FieldNode (name : string).

Fixpoint oneOf (chars : string) (c : ascii) : bool :=
  match chars with
  | EmptyString => false
  | String d chars' => Ascii.eqb c d || oneOf chars' c
  end.

Definition isDigit (c : ascii) : bool := oneOf "0123456789" c.

Definition isAlphaNumeric (c : ascii) : bool :=
  oneOf "_abcdefghijklmnopqrstuvwxyzABCDEFGHIJKLMNOPQRSTUVWXYZ" c
  || isDigit c.

Fixpoint allChars (p : ascii → bool) (s : string) : bool :=
  match s with
  | EmptyString => true
  | String c s' => p c && allChars p s'
  end.

Fixpoint trimLeft (s : string) : string :=
  match s with
  | String c s' => if Ascii.eqb c " " then trimLeft s' else s
  | EmptyString => s
  end.

Fixpoint trimRight (s : string) : string :=
  match s with
  | EmptyString => EmptyString
  | String c s' =>
      match trimRight s' with
      | EmptyString => if Ascii.eqb c " " then EmptyString else String c EmptyString
      | t => String c t
      end
  end.

(** The field an action names: a dot, then an identifier that does not
    start with a digit. *)
Definition fieldOf (body : string) : option string :=
  match trimRight (trimLeft body) with
  | String dot (String c name) =>
      if Ascii.eqb dot "." && isAlphaNumeric c && negb (isDigit c)
         && allChars isAlphaNumeric name
      then Some (String c name) else None
  | _ => None
  end.

Definition textNode (text : string) : list Node :=
  match text with
  | EmptyString => []
  | _ => [TextNode text]
  end.

Fixpoint lexText (text s : string) {struct s} : option (list Node) :=
  match s with
  | EmptyString => Some (textNode text)
  | String c s' =>
      match s' with
      | String c' rest =>
          if Ascii.eqb c "{" && Ascii.eqb c' "{" then
            nodes ← lexAction EmptyString rest; Some (app (textNode text) nodes)
          else lexText (text +:+ String c EmptyString) s'
      | EmptyString => lexText (text +:+ String c EmptyString) s'
      end
  end
with lexAction (body s : string) {struct s} : option (list Node) :=
  match s with
  | EmptyString => None
  | String c s' =>
      match s' with
      | String c' rest =>
          if Ascii.eqb c "}" && Ascii.eqb c' "}" then
            name ← fieldOf body;
            nodes ← lexText EmptyString rest;
            Some (FieldNode name :: nodes)
          else lexAction (body +:+ String c EmptyString) s'
      | EmptyString => lexAction (body +:+ String c EmptyString) s'
      end
  end.

Definition parse (text : string) : option (list Node) :=
  lexText EmptyString text.

(** [fmt.Fprint] of a value. *)
Definition printValue (v : GoValue) : string :=
  match v with
  | VString s => s
  | VInt n => pretty n
  | VBool b => if b then "true" else "false"
  end.

Definition noValue : string := "<no value>".

Definition execNode (data : option (gmap string GoValue)) (n : Node)
    : string :=
  match n with
  | TextNode text => text
  | FieldNode name =>
      match data ≫= λ m, m !! name with
      | Some v => printValue v
      | None => noValue
      end
  end.

Definition execute (t : list Node) (data : option (gmap string GoValue))
    : option string :=
  Some (String.concat "" (map (execNode data) t)).

Definition engine : TemplateEngine :=
  {| Template := list Node; Value := GoValue;
     Parse := parse; Execute := execute |}.

End GoTemplate.

(** ** Instances used to run the model *)

(** A runtime that visits every map in the order of [map_to_list]. *)
Program Definition rangeToList : MapRange :=
  {| range := λ V _ m, map_to_list m |}.
Next Obligation. reflexivity. Qed.


(** * Further notions for the loader *)

(** The number of occurrences of the character [sep] in [s]. *)
Fixpoint Count (s : string) (sep : ascii) : nat :=
  match s with
  | EmptyString => 0
  | String c s' => (if Ascii.eqb c sep then 1 else 0) + Count s' sep
  end.

(** ** Documents that differ in the order of their entries

    A decoded map is visited in the order the runtime picks. [reorder raw
    raw']: the document [raw'] is [raw] visited in another order, at any
    depth. *)
Inductive reorder : Raw → Raw → Prop :=
  | reorder_refl (raw : Raw) : reorder raw raw
  | reorder_trans (raw1 raw2 raw3 : Raw) :
      reorder raw1 raw2 → reorder raw2 raw3 → reorder raw1 raw3
  | reorder_here (entries entries' : list (string * Raw)) :
      entries ≡ₚ entries' → reorder (RMap entries) (RMap entries')
  | reorder_below (pre post : list (string * Raw)) (k : string) (v v' : Raw) :
      reorder v v' →
      reorder (RMap (pre ++ (k, v) :: post)) (RMap (pre ++ (k, v') :: post)).

(** * AdoLib rest: the error registry of [rest/errors.go]

    The callers of [Translate]. [Register] fills the registry [allErrs]
    with the translated texts of each error code in each supported
    language, [NewHTTPError] builds an error in the language of the
    request ([GetLanguageCtx] and [GetLanguageByCtx] of [rest/server.go]),
    [WithDescription] and [WithSolution] render a text again on template
    data, and [ReplyError] answers a request with an error.

    Conventions of the embedding:
    - the package variables [Languages], [DefaultLanguage] and [allErrs]
      are the record [Rest], threaded with the catalog through the monad
      [P]; [commonErrorI18n] is the map [allErrs] starts as;
    - a [*HTTPError] is the value it points to: a method that writes to
      its receiver and returns it, returns the new value;
    - a [context.Context] is the value it holds under [XLangKey], and a
      [*gin.Context] the value of its request header [X-Language];
    - [json.Marshal] and [language.ParseAcceptLanguage] are the interface
      [RestEnv], and the writer of a [*gin.Context] is the interface
      [GinWriter]: what [c.String] sends for a status code, and whether it
      returns at all, is gin's and [net/http]'s to say. *)

(** ** Data model of the registry *)

(** A value of type [interface{}]: nil, a string, or a value of another
    type, kept as its [%T] and [%v] texts. *)
Inductive Any : Type :=
  | ANil
  | AString (s : string)
  | AOther (goType text : string).

Section RestData.
Context `{TemplateEngine}.

(** [type BaseError struct] *)
Record BaseError := mkBaseError {
  ErrorCode : string;
  Description : string;
  Solution : string;
  ErrorLink : string;
  ErrorDetails : Any;
  DescriptionTemplateData : option (gmap string Value);
  SolutionTemplateData : option (gmap string Value)
}.

(** The zero value of [BaseError], what a map answers for a key it
    lacks. *)
Definition zeroBaseError : BaseError :=
  mkBaseError "" "" "" "" ANil None None.

(** [type HTTPError struct]; [Base] is its field [BaseError]. *)
Record HTTPError := mkHTTPError {
  HTTPCode : Z;
  Language : string;
  Base : BaseError
}.

(** [InternalError] and [commonErrorI18n] of [rest/common_errors.go]. *)
Definition InternalError : string := "InternalError".

Definition commonErrorI18n : gmap string (gmap string BaseError) :=
  {[ InternalError :=
       {[ "zh-CN" := mkBaseError InternalError "内部错误" "暂无" "暂无"
                       ANil None None;
          "en-US" := mkBaseError InternalError "Internal Server Error" "None"
                       "None" ANil None None ]} ]}.

(** The package variables. *)
Record Rest := mkRest {
  Languages : gmap string string;
  DefaultLanguage : string;
  allErrs : gmap string (gmap string BaseError)
}.

(** Their initial values. *)
Definition initRest : Rest :=
  mkRest {[ "zh-CN" := "zh-CN"; "en-US" := "en-US" ]} "zh-CN" commonErrorI18n.

(** The ways a call into the package ends the process: its [log.Fatalf]
    calls in source order, a fatal end inside [Translate], and the
    run-time panics (a write to a nil map, the assertion [language.(string)]
    on a value that is no string, a nil error or a nil [*HTTPError]
    dereferenced, a panic inside [c.String]). *)
Inductive RestFatal : Type :=
  | FatalInvalidLang (langStr : string)
  | FatalDuplicate (errorCode : string)
  | FatalMissingCode (errorCode : string)
  | FatalMissingLang (errorCode lang : string)
  | FatalI18n (f : Fatal)
  | PanicNilErrs
  | PanicAssertString
  | PanicNilError
  | PanicString.

(** ** The process monad of the package: registry and catalog as state *)

Inductive Result (A : Type) : Type :=
  | Done (a : A) (r : Rest) (c : Catalog)
  | Abort (f : RestFatal).
Global Arguments Done {A} a r c.
Global Arguments Abort {A} f.

Definition P (A : Type) : Type := Rest → Catalog → Result A.

Definition retP {A} (a : A) : P A := λ r c, Done a r c.
Definition bindP {A B} (m : P A) (k : A → P B) : P B :=
  λ r c, match m r c with
         | Done a r' c' => k a r' c'
         | Abort f => Abort f
         end.
Definition abort {A} (f : RestFatal) : P A := λ _ _, Abort f.
Definition getRest : P Rest := λ r c, Done r r c.
Definition putErrs (errs : gmap string (gmap string BaseError)) : P unit :=
  λ r c, Done tt (mkRest (Languages r) (DefaultLanguage r) errs) c.

(** A call of a function of the package [i18n]. *)
Definition i18n {A} (m : M A) : P A :=
  λ r c, match m c with
         | Ret a c' => Done a r c'
         | Exit f => Abort (FatalI18n f)
         end.

(** Whether a call returns, and the registry and catalog it leaves. *)
Definition done {A} (x : Result A) : bool :=
  match x with
  | Done _ _ _ => true
  | Abort _ => false
  end.

Definition restOf {A} (x : Result A) : Rest :=
  match x with
  | Done _ r _ => r
  | Abort _ => initRest
  end.

Definition catalogOf {A} (x : Result A) : Catalog :=
  match x with
  | Done _ _ c => c
  | Abort _ => ∅
  end.

End RestData.

Notation "x <~ m ;; k" := (bindP m (λ x, k))
  (at level 100, m at level 99, right associativity,
   format "'[v' x  <~  m  ;; '/' k ']'").
Notation "m ~;; k" := (bindP m (λ _, k))
  (at level 100, right associativity,
   format "'[v' m  ~;; '/' k ']'").

(** [json.Marshal] of a [BaseError] ([None] is a non-nil [error]) and
    [language.ParseAcceptLanguage], as the canonical strings of the tags
    it returns ([None] is a non-nil [error]). *)
Class RestEnv `{TemplateEngine} := {
  jsonMarshal : BaseError → option string;
  ParseAcceptLanguage : string → option (list string)
}.

(** ** The registry *)

Section Registry.
Context `{TemplateEngine} `{MapRange}.

(** [func SetLang(langStr string)] *)
Definition SetLang (langStr : string) : P unit :=
  λ r c,
    match Languages r !! langStr with
    | None => Abort (FatalInvalidLang langStr)
    | Some _ => Done tt (mkRest (Languages r) langStr (allErrs r)) c
    end.

(** The body of the inner loop of [Register],
    [allErrs[errorCode][lang] = BaseError{...}]: the three calls of
    [Translate] in the order of the literal, then the write. *)
Definition registerLang (errorCode lang : string) : P unit :=
  description <~ i18n (Translate lang (errorCode +:+ ".Description") None) ;;
  solution <~ i18n (Translate lang (errorCode +:+ ".Solution") None) ;;
  errorLink <~ i18n (Translate lang (errorCode +:+ ".ErrorLink") None) ;;
  r <~ getRest ;;
  match allErrs r !! errorCode with
  | None => abort PanicNilErrs
  | Some errs =>
      putErrs
        (<[errorCode :=
             <[lang := mkBaseError errorCode description solution errorLink
                         (AString "") (Some ∅) (Some ∅)]> errs]>
           (allErrs r))
  end.

(** The inner loop of [Register], [for lang := range Languages]. *)
Fixpoint registerLangs (errorCode : string) (langs : list string) : P unit :=
  match langs with
  | [] => retP tt
  | lang :: langs' =>
      registerLang errorCode lang ~;; registerLangs errorCode langs'
  end.

(** [func Register(errorCodeList []string)]; the traversals of
    [Languages] are numbered by the codes left. *)
Fixpoint Register (errorCodeList : list string) : P unit :=
  match errorCodeList with
  | [] => retP tt
  | errorCode :: errorCodeList' =>
      r <~ getRest ;;
      match allErrs r !! errorCode with
      | Some _ => abort (FatalDuplicate errorCode)
      | None =>
          putErrs (<[errorCode := ∅]> (allErrs r)) ~;;
          registerLangs errorCode
            (range (length errorCodeList') (Languages r)).*1 ~;;
          Register errorCodeList'
      end
  end.

(** [func GetLanguageByCtx(ctx context.Context) string] of
    [rest/server.go]; [ctx] is [ctx.Value(XLangKey)]. *)
Definition GetLanguageByCtx (ctx : Any) : P string :=
  r <~ getRest ;;
  lang <~ match ctx with
          | ANil => retP (DefaultLanguage r)
          | AString language => retP language
          | AOther _ _ => abort PanicAssertString
          end ;;
  match Languages r !! lang with
  | None => retP (DefaultLanguage r)
  | Some _ => retP lang
  end.

(** [func NewHTTPError(ctx context.Context, httpCode int, errorCode
    string) *HTTPError]. The second test reads the [ok] of the first
    lookup: [err := errs[lang]] assigns no [ok]. *)
Definition NewHTTPError (ctx : Any) (httpCode : Z) (errorCode : string)
    : P HTTPError :=
  lang <~ GetLanguageByCtx ctx ;;
  r <~ getRest ;;
  match allErrs r !! errorCode with
  | None => abort (FatalMissingCode errorCode)
  | Some errs =>
      let ok := true in
      let err := default zeroBaseError (errs !! lang) in
      if negb ok then abort (FatalMissingLang errorCode lang)
      else
        retP (mkHTTPError httpCode lang
                (mkBaseError errorCode (Description err) (Solution err)
                   (ErrorLink err) (ErrorDetails err) None None))
  end.

(** Writes to one field of [e.BaseError]. *)
Definition setDescription (e : HTTPError) (description : string) : HTTPError :=
  let b := Base e in
  mkHTTPError (HTTPCode e) (Language e)
    (mkBaseError (ErrorCode b) description (Solution b) (ErrorLink b)
       (ErrorDetails b) (DescriptionTemplateData b) (SolutionTemplateData b)).

Definition setSolution (e : HTTPError) (solution : string) : HTTPError :=
  let b := Base e in
  mkHTTPError (HTTPCode e) (Language e)
    (mkBaseError (ErrorCode b) (Description b) solution (ErrorLink b)
       (ErrorDetails b) (DescriptionTemplateData b) (SolutionTemplateData b)).

Definition setErrorDetails (e : HTTPError) (errorDetails : Any) : HTTPError :=
  let b := Base e in
  mkHTTPError (HTTPCode e) (Language e)
    (mkBaseError (ErrorCode b) (Description b) (Solution b) (ErrorLink b)
       errorDetails (DescriptionTemplateData b) (SolutionTemplateData b)).

Definition setDescriptionTemplateData (e : HTTPError)
    (templateData : option (gmap string Value)) : HTTPError :=
  let b := Base e in
  mkHTTPError (HTTPCode e) (Language e)
    (mkBaseError (ErrorCode b) (Description b) (Solution b) (ErrorLink b)
       (ErrorDetails b) templateData (SolutionTemplateData b)).

Definition setSolutionTemplateData (e : HTTPError)
    (templateData : option (gmap string Value)) : HTTPError :=
  let b := Base e in
  mkHTTPError (HTTPCode e) (Language e)
    (mkBaseError (ErrorCode b) (Description b) (Solution b) (ErrorLink b)
       (ErrorDetails b) (DescriptionTemplateData b) templateData).

(** [func (e *HTTPError) WithDescription(templateData
    map[string]interface{}) *HTTPError] *)
Definition WithDescription (e : HTTPError)
    (templateData : option (gmap string Value)) : P HTTPError :=
  let e := setDescriptionTemplateData e templateData in
  description <~ i18n (Translate (Language e)
                         (ErrorCode (Base e) +:+ ".Description")
                         templateData) ;;
  retP (setDescription e description).

(** [func (e *HTTPError) WithSolution(templateData
    map[string]interface{}) *HTTPError] *)
Definition WithSolution (e : HTTPError)
    (templateData : option (gmap string Value)) : P HTTPError :=
  let e := setSolutionTemplateData e templateData in
  solution <~ i18n (Translate (Language e)
                      (ErrorCode (Base e) +:+ ".Solution") templateData) ;;
  retP (setSolution e solution).

(** [func (e *HTTPError) WithErrorDetails(errorDetails interface{})
    *HTTPError] *)
Definition WithErrorDetails (e : HTTPError) (errorDetails : Any) : HTTPError :=
  setErrorDetails e errorDetails.

(** *** The notions the statements about the registry are phrased in *)

(** A sequence of calls that set up the package, as a program makes them
    when it starts. *)
Inductive Setup : Type :=
  | DoSetLang (langStr : string)
  | DoRegister (errorCodeList : list string).

Fixpoint setup (calls : list Setup) : P unit :=
  match calls with
  | [] => retP tt
  | DoSetLang langStr :: calls' => SetLang langStr ~;; setup calls'
  | DoRegister errorCodeList :: calls' =>
      Register errorCodeList ~;; setup calls'
  end.

(** The registry is complete: the default language is supported, and
    every registered code has an entry for exactly the supported
    languages, under its own code. *)
Definition complete (r : Rest) : Prop :=
  DefaultLanguage r ∈ dom (Languages r) ∧
  ∀ errorCode errs, allErrs r !! errorCode = Some errs →
    dom errs = dom (Languages r) ∧
    ∀ lang b, errs !! lang = Some b → ErrorCode b = errorCode.

(** What [Translate] returns for a message id of a locale on the data
    [d], if it returns. *)
Definition render (c : Catalog) (lang messageId : string)
    (d : option (gmap string Value)) : option string :=
  getMessage c lang messageId ≫= λ message, rendered message d.

(** The entry [Register] writes for a code and a language on the catalog
    [c], if its three calls of [Translate] return. *)
Definition entry (c : Catalog) (errorCode lang : string) : option BaseError :=
  description ← render c lang (errorCode +:+ ".Description") None;
  solution ← render c lang (errorCode +:+ ".Solution") None;
  errorLink ← render c lang (errorCode +:+ ".ErrorLink") None;
  Some (mkBaseError errorCode description solution errorLink (AString "")
          (Some ∅) (Some ∅)).

(** A message [Translate] has nothing left to compile for: it has no
    [{{], or its [Once] is done. *)
Definition settled (c : Catalog) (lang messageId : string) : Prop :=
  ∃ message, getMessage c lang messageId = Some message ∧
    (Contains (Data message) leftDelim = false ∨ parseOnce message = true).

(** The catalog a call of [Translate] that returns leaves: the message
    compiled, when it has a [{{] and its [Once] was not done. *)
Definition compile (c : Catalog) (lang messageId : string) : Catalog :=
  match getMessage c lang messageId with
  | Some message =>
      if Contains (Data message) leftDelim && negb (parseOnce message) then
        match Parse (Data message) with
        | Some t =>
            setMessage c lang messageId (mkMessage (Data message) true (Some t))
        | None => c
        end
      else c
  | None => c
  end.

(** The ids of the three messages of an error code, in the order
    [Register] translates them. *)
Definition textIds (errorCode : string) : list string :=
  [errorCode +:+ ".Description"; errorCode +:+ ".Solution";
   errorCode +:+ ".ErrorLink"].

(** The messages the inner loop of [Register] translates for a code, over
    the languages [langs], and those the whole call translates, each with
    its locale. *)
Definition langKeys (errorCode : string) (langs : list string)
    : list (string * string) :=
  flat_map (λ lang, map (pair lang) (textIds errorCode)) langs.

Fixpoint registerKeys (errorCodeList : list string)
    (languages : gmap string string) : list (string * string) :=
  match errorCodeList with
  | [] => []
  | errorCode :: errorCodeList' =>
      langKeys errorCode (range (length errorCodeList') languages).*1
      ++ registerKeys errorCodeList' languages
  end.

(** The catalog after a call of [Translate] that returns, for each of
    the messages [keys] in turn. *)
Definition compileAll (c : Catalog) (keys : list (string * string)) : Catalog :=
  foldl (λ c key, compile c key.1 key.2) c keys.

(** The three messages of an error code in a language are settled. *)
Definition settledTexts (c : Catalog) (errorCode lang : string) : Prop :=
  settled c lang (errorCode +:+ ".Description") ∧
  settled c lang (errorCode +:+ ".Solution") ∧
  settled c lang (errorCode +:+ ".ErrorLink").

(** [later c c']: what calls of [Translate] keep from [c] to [c']: the
    locales, the ids, the raw contents and the templates to execute
    ([evolves]), and the messages that are settled. *)
Definition later (c c' : Catalog) : Prop :=
  evolves c c' ∧ ∀ lang messageId, settled c lang messageId →
    settled c' lang messageId.

End Registry.

(** ** Answering a request *)

(** The writer of a [*gin.Context]. [cString contentType statusCode body]
    is the call [c.String(statusCode, body)] on a context whose header
    [Content-Type] was set to [contentType]: what the client is sent, or
    [None] when the call panics. *)
Class GinWriter := {
  Sent : Type;
  cString : string → Z → string → option Sent
}.

Section Server.
Context `{TemplateEngine} `{MapRange} `{!RestEnv} `{GinWriter}.

(** [func (e *HTTPError) Error() string]; the [error] of [json.Marshal]
    is dropped, and the text is empty then. *)
Definition Error (e : HTTPError) : string :=
  default "" (jsonMarshal (Base e)).

(** [ContentTypeJson] and [http.StatusInternalServerError]. *)
Definition ContentTypeJson : string := "application/json".
Definition StatusInternalServerError : Z := 500.

(** [func GetLanguageCtx(c *gin.Context) context.Context], from the
    header value [c.GetHeader(XLangHeader)] to the value of the context
    under [XLangKey]. *)
Definition GetLanguageCtx (langStr : string) : Any :=
  if String.eqb langStr "" then AString ""
  else
    match ParseAcceptLanguage langStr with
    | Some [tag] => AString tag
    | _ => AString ""
    end.

(** A value of type [error]: nil, a [*HTTPError] ([None] is the nil
    pointer), or another error with the text of its [Error()]. *)
Inductive GoError : Type :=
  | ErrNil
  | ErrHTTP (e : option HTTPError)
  | ErrOther (text : string).

(** The two statements that end [ReplyError],
    [c.Writer.Header().Set(ContentTypeKey, ContentTypeJson)] and
    [c.String(statusCode, body)]. *)
Definition reply (statusCode : Z) (body : string) : P Sent :=
  λ r c,
    match cString ContentTypeJson statusCode body with
    | Some sent => Done sent r c
    | None => Abort PanicString
    end.

(** [func ReplyError(c *gin.Context, err error)]; [langStr] is the
    request header [X-Language] of [c]. The switch sets [statusCode] and
    [body]; a nil [*HTTPError] panics at [e.HTTPCode], a nil error at
    [e.Error()], after [NewHTTPError] has run. *)
Definition ReplyError (langStr : string) (err : GoError) : P Sent :=
  answer <~ match err with
            | ErrHTTP (Some e) => retP (HTTPCode e, Error e)
            | ErrHTTP None => abort PanicNilError
            | ErrOther text =>
                let statusCode := StatusInternalServerError in
                let ctx := GetLanguageCtx langStr in
                e <~ NewHTTPError ctx statusCode InternalError ;;
                retP (statusCode, Error (WithErrorDetails e (AString text)))
            | ErrNil =>
                let statusCode := StatusInternalServerError in
                let ctx := GetLanguageCtx langStr in
                NewHTTPError ctx statusCode InternalError ~;;
                abort PanicNilError
            end ;;
  reply answer.1 answer.2.

End Server.

(** ** Example catalogs and an example locale directory *)

Section Examples.
#[local] Existing Instance GoTemplate.engine.
#[local] Existing Instance rangeToList.

(** [en-US] defines [A.A] and [A.B], [zh-CN] only [A.A]. *)
Definition catalogShort : Catalog :=
  {[ "en-US" := {[ "A.A" := newMessage "first"; "A.B" := newMessage "second" ]};
     "zh-CN" := {[ "A.A" := newMessage "one" ]} ]}.

(** One locale, no message. *)
Definition catalogBare : Catalog := {[ "en-US" := ∅ ]}.

(** The decoded documents of the two locale files below. *)
Definition documentEn : Raw :=
  RMap [("Greeting", RString "Hello, {{.Name}}");
        ("Order", RMap [("NotFound",
                         RMap [("Description", RString "Order not found")])])].

Definition documentZh : Raw :=
  RMap [("Greeting", RString "Ni hao, {{.Name}}");
        ("Order", RMap [("NotFound",
                         RMap [("Description", RString "Ding dan bu cun zai")])])].

(** A directory [locale] with two locale files and a Go source file. *)
Definition localeFS : LocaleEnv :=
  {| ReadDir := λ localeDir,
       if String.eqb localeDir "locale" then
         Some ["errors.en-US.toml"; "errors.zh-CN.toml"; "errors.go"]
       else None;
     ReadFile := λ filename,
       if String.eqb filename "locale/errors.en-US.toml" then Some "en"
       else if String.eqb filename "locale/errors.zh-CN.toml" then Some "zh"
       else None;
     Unmarshal := λ buf,
       if String.eqb buf "en" then Some documentEn
       else if String.eqb buf "zh" then Some documentZh
       else None;
     languageParse := λ lang,
       String.eqb lang "en-US" || String.eqb lang "zh-CN";
     pathJoin := λ localeDir name, localeDir +:+ "/" +:+ name |}.

(** A directory [clash] whose two files of the locale [en-US] both
    define the id [Hello]. *)
Definition clashFS : LocaleEnv :=
  {| ReadDir := λ localeDir,
       if String.eqb localeDir "clash" then
         Some ["a.en-US.toml"; "b.en-US.toml"]
       else None;
     ReadFile := λ filename, Some filename;
     Unmarshal := λ buf,
       if String.eqb buf "clash/a.en-US.toml" then
         Some (RMap [("Hello", RString "one")])
       else if String.eqb buf "clash/b.en-US.toml" then
         Some (RMap [("Hello", RString "two")])
       else None;
     languageParse := λ lang, String.eqb lang "en-US";
     pathJoin := λ localeDir name, localeDir +:+ "/" +:+ name |}.

(** The catalog that directory loads to, from an empty one. *)
Definition catalogLoaded : Catalog :=
  stateOf (loadLocaleDir (H1 := localeFS) "locale" ∅).

(** A document with an empty key above a leaf and one below a key. *)
Definition documentEmptyKeys : Raw :=
  RMap [("", RMap [("a", RString "x")]); ("b", RMap [("", RString "y")])].

(** The catalog after [recGetMessages] has walked that document for the
    locale [en]. *)
Definition catalogEmptyKeys : Catalog :=
  stateOf (recGetMessages "en" "" documentEmptyKeys {[ "en" := ∅ ]}).

(** One message that names a key. *)
Definition catalogHi : Catalog :=
  {[ "en-US" := {[ "Hi" := newMessage "Hi {{.Missing}}" ]} ]}.

(** Two callers of the same message of the loaded catalog. *)
Definition twoCallers : list (string * string * option (gmap string Value)) :=
  [("en-US", "Greeting", Some {[ "Name" := GoTemplate.VString "Ana" ]});
   ("en-US", "Greeting", Some {[ "Name" := GoTemplate.VString "Ana" ]})].

End Examples.

(** ** Examples for the registry *)

Section RestExamples.
#[local] Existing Instance GoTemplate.engine.
#[local] Existing Instance rangeToList.

(** [documentEn] with its two entries in the other order. *)
Definition documentEnSwapped : Raw :=
  RMap [("Order", RMap [("NotFound",
                         RMap [("Description", RString "Order not found")])]);
        ("Greeting", RString "Hello, {{.Name}}")].

(** The catalog after [recGetMessages] has walked [documentEn] for the
    locale [en-US]. *)
Definition catalogEn : Catalog :=
  {[ "en-US" := {[ "Greeting" := newMessage "Hello, {{.Name}}";
                   "Order.NotFound.Description" := newMessage "Order not found" ]} ]}.

(** A directory [broken] whose one locale file holds a message with an
    action that is not closed. *)
Definition brokenFS : LocaleEnv :=
  {| ReadDir := λ localeDir,
       if String.eqb localeDir "broken" then Some ["errors.en-US.toml"]
       else None;
     ReadFile := λ filename, Some filename;
     Unmarshal := λ buf, Some (RMap [("Bad", RString "Hello, {{.Name")]);
     languageParse := λ lang, String.eqb lang "en-US";
     pathJoin := λ localeDir name, localeDir +:+ "/" +:+ name |}.

Definition catalogBroken : Catalog :=
  {[ "en-US" := {[ "Bad" := newMessage "Hello, {{.Name" ]} ]}.

(** A catalog with the three texts of the error code [NotFound] in the
    two supported languages. *)
Definition catalogErrors : Catalog :=
  {[ "en-US" :=
       {[ "NotFound.Description" := newMessage "Order {{.Id}} not found";
          "NotFound.Solution" := newMessage "Check the order id";
          "NotFound.ErrorLink" := newMessage "None" ]};
     "zh-CN" :=
       {[ "NotFound.Description" := newMessage "Ding dan {{.Id}} bu cun zai";
          "NotFound.Solution" := newMessage "Jian cha ding dan hao";
          "NotFound.ErrorLink" := newMessage "Wu" ]} ]}.

(** The registry and the catalog after [Register] of that code. *)
Definition registryErrors : Rest :=
  restOf (Register ["NotFound"] initRest catalogErrors).

Definition catalogRegistered : Catalog :=
  catalogOf (Register ["NotFound"] initRest catalogErrors).

(** A registry in which a language was added to [Languages] after the
    built-in error was registered. *)
Definition registryFrench : Rest :=
  mkRest {[ "zh-CN" := "zh-CN"; "en-US" := "en-US"; "fr-FR" := "fr-FR" ]}
    "fr-FR" commonErrorI18n.

(** An encoder and a header parser to run the examples with: the
    encoder writes the code and the description, the parser knows three
    headers. *)
Definition exampleRestEnv : RestEnv :=
  {| jsonMarshal := λ b, Some (ErrorCode b +:+ ": " +:+ Description b);
     ParseAcceptLanguage := λ langStr,
       if String.eqb langStr "en-us" then Some ["en-US"]
       else if String.eqb langStr "en-US, zh-CN" then Some ["en-US"; "zh-CN"]
       else if String.eqb langStr "fr" then Some ["fr"]
       else None |}.

(** A writer to run the examples with: it sends the content type, the
    status and the body, and panics on a status that is no three-digit
    number. *)
Definition exampleWriter : GinWriter :=
  {| Sent := string * Z * string;
     cString := λ contentType statusCode body,
       if Z.leb 100 statusCode && Z.leb statusCode 999
       then Some (contentType, statusCode, body) else None |}.

End RestExamples.
(** * Properties *)

(** ** The validator *)

Section ValidatorFacts.
Context `{TemplateEngine} `{MapRange}.

Lemma range_elem {V : Type} (n : nat) (m : gmap string V) (k : string) (v : V) :
  (k, v) ∈ range n m ↔ m !! k = Some v.
Proof. rewrite (range_perm V n m). apply elem_of_map_to_list. Qed.

Lemma range_keys {V : Type} (n : nat) (m : gmap string V) (k : string) :
  k ∈ (range n m).*1 ↔ k ∈ dom m.
Proof.
  rewrite elem_of_dom, list_elem_of_fmap. split.
  - intros [[k' v] [-> Hin]]. apply range_elem in Hin. by exists v.
  - intros [v Hv]. exists (k, v). split; [done|]. by apply range_elem.
Qed.

Lemma range_length {V : Type} (n : nat) (m : gmap string V) :
  length (range n m) = size m.
Proof. rewrite (range_perm V n m). apply length_map_to_list. Qed.

Lemma range_NoDup_keys {V : Type} (n : nat) (m : gmap string V) :
  NoDup (range n m).*1.
Proof. rewrite (range_perm V n m). apply NoDup_fst_map_to_list. Qed.

Lemma firstMissing_None (mp : Table) (ks : list string) :
  firstMissing mp ks = None ↔ ∀ k, k ∈ ks → k ∈ dom mp.
Proof.
  induction ks as [|k ks IH]; simpl.
  - split; [intros _ k Hk; by apply elem_of_nil in Hk | done].
  - destruct (mp !! k) as [msg|] eqn:Hk.
    + rewrite IH. split.
      * intros Hall k' [->|Hin]%elem_of_cons; [by apply elem_of_dom|auto].
      * intros Hall k' Hin. apply Hall. by right.
    + split; [done|]. intros Hall.
      assert (k ∈ dom mp) as Hd by (apply Hall; by left).
      apply elem_of_dom in Hd as [? ?]. congruence.
Qed.

Lemma firstMissing_Some (mp : Table) (ks : list string) (k : string) :
  firstMissing mp ks = Some k → k ∈ ks ∧ k ∉ dom mp.
Proof.
  induction ks as [|k' ks IH]; simpl; [done|].
  destruct (mp !! k') eqn:Hk.
  - intros [? ?]%IH. split; [by right|done].
  - intros [= <-]. split; [by left|]. by apply not_elem_of_dom.
Qed.

(** Equal sizes and inclusion of the reference ids amount to equal id
    sets. *)
Lemma same_ids (mp firstMap : Table) :
  size mp = size firstMap → (∀ k, k ∈ dom firstMap → k ∈ dom mp) →
  dom mp = dom firstMap.
Proof.
  intros Hsize Hsub. symmetry. apply set_subseteq_size_eq; [done|].
  rewrite !size_dom. lia.
Qed.

Lemma checkLoop_None (firstLang : string) (firstMap : Table)
    (todo : list (string * Table)) :
  checkLoop false firstLang firstMap todo = None ↔
  ∀ lang mp, (lang, mp) ∈ todo → dom mp = dom firstMap.
Proof.
  induction todo as [|[lang mp] todo IH]; simpl.
  - split; [intros _ ?? Hin; by apply elem_of_nil in Hin | done].
  - destruct (Nat.eqb_spec (size mp) (size firstMap)) as [Hsize|Hsize]; simpl.
    + destruct (firstMissing mp _) as [k|] eqn:Hmiss.
      * split; [done|]. intros Hall.
        apply firstMissing_Some in Hmiss as [Hk Hnk].
        apply range_keys in Hk.
        rewrite (Hall lang mp) in Hnk; [done | by left].
      * rewrite IH. split.
        -- intros Hall l t [[= -> ->]|Hin]%elem_of_cons; [|eauto].
           apply same_ids; [done|]. intros k Hk.
           eapply firstMissing_None; [done|]. by apply range_keys.
        -- intros Hall l t Hin. apply (Hall l t). by right.
    + split; [done|]. intros Hall. exfalso. apply Hsize.
      rewrite <- !(size_dom (D := gset string)).
      rewrite (Hall lang mp); [done | by left].
Qed.

Lemma checkLoop_Some (firstLang : string) (firstMap : Table)
    (todo : list (string * Table)) (e : error) :
  checkLoop false firstLang firstMap todo = Some e →
  ∃ lang mp, (lang, mp) ∈ todo ∧
    ((e = ErrLength lang (size mp) firstLang (size firstMap) ∧
      size mp ≠ size firstMap) ∨
     (∃ k, e = ErrMissing lang firstLang k ∧ size mp = size firstMap ∧
        k ∈ dom firstMap ∧ k ∉ dom mp)).
Proof.
  induction todo as [|[lang mp] todo IH]; simpl; [done|].
  destruct (Nat.eqb_spec (size mp) (size firstMap)) as [Hsize|Hsize]; simpl.
  - destruct (firstMissing mp _) as [k|] eqn:Hmiss.
    + intros [= <-]. apply firstMissing_Some in Hmiss as [Hk Hnk].
      apply range_keys in Hk. exists lang, mp. split; [by left|].
      right. by exists k.
    + intros (l & t & Hin & Hcase)%IH. exists l, t. split; [by right|done].
  - intros [= <-]. exists lang, mp. split; [by left|]. by left.
Qed.

(** The traversal of the catalog: the reference locale, then the others. *)
Lemma checkLanguageMap_unfold (c : Catalog) :
  checkLanguageMap c =
  match range 0 c with
  | [] => None
  | (firstLang, firstMap) :: todo => checkLoop false firstLang firstMap todo
  end.
Proof.
  unfold checkLanguageMap. by destruct (range 0 c) as [|[firstLang firstMap] todo].
Qed.

End ValidatorFacts.

Section ValidatorOutcome.
Context `{TemplateEngine} `{MapRange}.

(** The two outcomes of [checkLanguageMap]. *)
Lemma checkLanguageMap_outcome (c : Catalog) :
  (checkLanguageMap c = None ↔
   ∀ l1 l2 t1 t2, c !! l1 = Some t1 → c !! l2 = Some t2 → dom t1 = dom t2) ∧
  (∀ e, checkLanguageMap c = Some e →
     ∃ lang firstLang mp firstMap,
       c !! lang = Some mp ∧ c !! firstLang = Some firstMap ∧
       lang ≠ firstLang ∧
       ((e = ErrLength lang (size mp) firstLang (size firstMap) ∧
         size mp ≠ size firstMap ∧ errorKey e = None) ∨
        (∃ k, e = ErrMissing lang firstLang k ∧ errorKey e = Some k ∧
           size mp = size firstMap ∧ k ∈ dom firstMap ∧ k ∉ dom mp))).
Proof.
  rewrite checkLanguageMap_unfold.
  pose proof (range_NoDup_keys 0 c) as Hnd.
  assert (∀ l t, (l, t) ∈ range 0 c ↔ c !! l = Some t) as Hel
    by (intros; apply range_elem).
  destruct (range 0 c) as [|[firstLang firstMap] todo].
  - split; [|done]. split; [|done]. intros _ l1 l2 t1 t2 H1.
    apply Hel in H1. by apply elem_of_nil in H1.
  - split.
    + rewrite checkLoop_None. split.
      * intros Hall l1 l2 t1 t2 H1 H2.
        assert (∀ l t, c !! l = Some t → dom t = dom firstMap) as Hall'.
        { intros l t [[= -> ->]|Hin]%Hel%elem_of_cons; [done|eauto]. }
        rewrite (Hall' l1 t1), (Hall' l2 t2); done.
      * intros Hall l t Hin. apply (Hall l firstLang); apply Hel.
        -- by right.
        -- by left.
    + intros e (lang & mp & Hin & Hcase)%checkLoop_Some.
      exists lang, firstLang, mp, firstMap.
      split; [apply Hel; by right|]. split; [apply Hel; by left|].
      split.
      * intros ->. simpl in Hnd. apply NoDup_cons in Hnd as [Hnotin _].
        apply Hnotin. apply list_elem_of_fmap. by exists (firstLang, mp).
      * destruct Hcase as [(-> & ?)|(k & -> & ?)]; [by left|].
        right. by exists k.
Qed.

(** C1 (amended). [checkLanguageMap] returns nil exactly when all locales
    of the catalog have the same set of message ids. Its length error
    names the offending locale and the reference locale with both sizes,
    which differ, and no message id; its missing-id error, raised only
    when the sizes agree, names the offending locale, the reference
    locale and an id the reference has and the offending locale lacks. *)
Theorem checkLanguageMap_spec (c : Catalog) :
  (checkLanguageMap c = None ↔
   ∀ l1 l2 t1 t2, c !! l1 = Some t1 → c !! l2 = Some t2 → dom t1 = dom t2) ∧
  (∀ e, checkLanguageMap c = Some e →
     ∃ lang firstLang mp firstMap,
       c !! lang = Some mp ∧ c !! firstLang = Some firstMap ∧
       lang ≠ firstLang ∧
       ((e = ErrLength lang (size mp) firstLang (size firstMap) ∧
         size mp ≠ size firstMap ∧ errorKey e = None) ∨
        (∃ k, e = ErrMissing lang firstLang k ∧ errorKey e = Some k ∧
           size mp = size firstMap ∧ k ∈ dom firstMap ∧ k ∉ dom mp))).
Proof. apply checkLanguageMap_outcome. Qed.

End ValidatorOutcome.

Section ValidatorExamples.
#[local] Existing Instance GoTemplate.engine.

(** C1, as first stated, fails: here [zh-CN] lacks the id [A.B] of
    [en-US], and the error returned is the length error, which names the
    two locales and no message id. *)
Lemma checkLanguageMap_length_error_has_no_key :
  checkLanguageMap (H0 := rangeToList) catalogShort
  = Some (ErrLength "zh-CN" 1 "en-US" 2) ∧
  ∀ k, errorKey (ErrLength "zh-CN" 1 "en-US" 2) ≠ Some k.
Proof. split; [reflexivity | done]. Qed.

(** Whichever locale the runtime visits first, the error for that
    catalog names no message id. *)
Lemma checkLanguageMap_short_any_order `{MapRange} :
  ∃ e, checkLanguageMap catalogShort = Some e ∧ errorKey e = None.
Proof.
  set (en := ({[ "A.A" := newMessage "first"; "A.B" := newMessage "second" ]} : Table)).
  set (zh := ({[ "A.A" := newMessage "one" ]} : Table)).
  assert (∀ l t, catalogShort !! l = Some t →
            (l = "en-US" ∧ t = en) ∨ (l = "zh-CN" ∧ t = zh)) as Hlook.
  { intros l t. unfold catalogShort.
    intros [[<- <-]|[_ [<- <-]%lookup_singleton_Some]]%lookup_insert_Some;
      [by left|by right]. }
  assert (size en = 2 ∧ size zh = 1) as [Hen Hzh] by (split; reflexivity).
  destruct (checkLanguageMap_outcome catalogShort) as [Hnone Hsome].
  destruct (checkLanguageMap catalogShort) as [e|].
  - exists e. split; [done|].
    destruct (Hsome e eq_refl)
      as (lang & firstLang & mp & firstMap & Hl & Hf & Hne & Hcase).
    destruct Hcase as [(_ & _ & Hkey)|(k & _ & _ & Hsize & _)]; [done|].
    exfalso.
    destruct (Hlook _ _ Hl) as [[-> ->]|[-> ->]];
      destruct (Hlook _ _ Hf) as [[-> ->]|[-> ->]].
    + congruence.
    + rewrite Hen, Hzh in Hsize. discriminate.
    + rewrite Hen, Hzh in Hsize. discriminate.
    + congruence.
  - exfalso. assert (dom en = dom zh) as Hdom.
    { apply (proj1 Hnone eq_refl "en-US" "zh-CN"); reflexivity. }
    assert (size (dom en) = size (dom zh)) as Hsize by by rewrite Hdom.
    rewrite !size_dom, Hen, Hzh in Hsize. discriminate.
Qed.

End ValidatorExamples.

(** ** The catalog as a store *)

Section StoreFacts.
Context `{TemplateEngine}.

Lemma returns_stateOf (r : Run unit) : returns r = true → r = Ret tt (stateOf r).
Proof. by destruct r as [[] c|f]. Qed.

Lemma getMessage_Some (c : Catalog) (lang messageId : string) (message : Message) :
  getMessage c lang messageId = Some message ↔
  ∃ localizer, c !! lang = Some localizer ∧ localizer !! messageId = Some message.
Proof.
  unfold getMessage. destruct (c !! lang) as [localizer|]; simpl.
  - split; [by exists localizer | by intros (? & [= <-] & ?)].
  - split; [done | by intros (? & ? & ?)].
Qed.

Lemma getMessage_setMessage (c : Catalog) (lang messageId l m : string)
    (message : Message) :
  is_Some (getMessage c lang messageId) →
  getMessage (setMessage c lang messageId message) l m =
  if decide (l = lang ∧ m = messageId) then Some message else getMessage c l m.
Proof.
  intros [old Hold]. apply getMessage_Some in Hold as (localizer & Hl & Hm).
  unfold getMessage, setMessage. rewrite lookup_alter.
  destruct (decide (lang = l)) as [<-|Hne]; simpl.
  - rewrite Hl. simpl. rewrite lookup_insert.
    destruct (decide (messageId = m)) as [<-|Hnm].
    + by rewrite decide_True.
    + rewrite decide_False; [done|]. intros [_ ->]. done.
  - rewrite decide_False; [done|]. intros [-> _]. done.
Qed.

Lemma dom_setMessage (c : Catalog) (lang messageId : string) (message : Message) :
  dom (setMessage c lang messageId message) = dom c.
Proof. unfold setMessage. apply dom_alter_L. Qed.

Lemma lookup_setMessage (c : Catalog) (lang messageId l : string)
    (message : Message) (localizer : Table) :
  is_Some (getMessage c lang messageId) →
  c !! l = Some localizer →
  ∃ localizer', setMessage c lang messageId message !! l = Some localizer' ∧
    dom localizer' = dom localizer.
Proof.
  intros [old Hold] Hl. apply getMessage_Some in Hold as (t & Ht & Hm).
  unfold setMessage. rewrite lookup_alter.
  destruct (decide (lang = l)) as [<-|Hne].
  - rewrite Ht. simpl. eexists. split; [done|].
    assert (localizer = t) as -> by congruence.
    by apply dom_insert_lookup_L.
  - by exists localizer.
Qed.

End StoreFacts.

(** ** The render engine, one caller *)

Section TranslateFacts.
Context `{TemplateEngine}.

(** What [Translate] does once both lookups have succeeded. *)
Lemma Translate_found (c : Catalog) (lang messageId : string)
    (d : option (gmap string Value)) (message : Message) :
  getMessage c lang messageId = Some message →
  Translate lang messageId d c =
  if negb (Contains (Data message) leftDelim) then Ret (Data message) c
  else
    match compiled message with
    | None =>
        Exit (if parseOnce message then PanicNilTemplate
              else FatalParse messageId lang (Data message))
    | Some t =>
        match Execute t d with
        | None => Exit (FatalExecute messageId lang (Data message) d)
        | Some buf =>
            Ret buf (if parseOnce message then c
                     else setMessage c lang messageId
                            (mkMessage (Data message) true (Some t)))
        end
    end.
Proof.
  intros (localizer & Hl & Hm)%getMessage_Some.
  unfold Translate, bind, getCatalog. rewrite Hl, Hm.
  destruct (negb (Contains (Data message) leftDelim)); [done|].
  unfold parseOnceDo, compiled.
  destruct (parseOnce message) eqn:Honce.
  - unfold ret. destruct (parsedTemplate message) as [t|]; [|done].
    by destruct (Execute t d).
  - destruct (Parse (Data message)) as [t|] eqn:Hparse; [|done].
    unfold bind, getCatalog, putCatalog, ret. simpl.
    by destruct (Execute t d).
Qed.

End TranslateFacts.

Section TranslateTheorems.
Context `{TemplateEngine}.

(** C4. For a message whose raw content has no [{{], [Translate] returns
    the raw content as it is, whatever the data (the nil map included),
    and leaves the catalog, and so every template slot, as it was; a
    concurrent caller returns in its first step, and no [Parse] is
    logged. *)
Theorem Translate_fast_path (c : Catalog) (lang messageId : string)
    (d : option (gmap string Value)) (message : Message) :
  getMessage c lang messageId = Some message →
  Contains (Data message) leftDelim = false →
  Translate lang messageId d c = Ret (Data message) c ∧
  ∀ (w : World) (i : nat),
    catalog w = c → exited w = None →
    callers w !! i = Some (AtEntry lang messageId d) →
    ∃ w', step i w = Some w' ∧
      callers w' !! i = Some (Returned lang messageId d (Data message)) ∧
      catalog w' = c ∧ parses w' = parses w.
Proof.
  intros Hget Hfast. split.
  - rewrite (Translate_found c lang messageId d message Hget). by rewrite Hfast.
  - intros w i <- Hrun Hi.
    apply getMessage_Some in Hget as (localizer & Hl & Hm).
    unfold step. rewrite Hrun, Hi, Hl, Hm, Hfast. simpl.
    eexists. split; [done|]. simpl. split; [|done].
    apply list_lookup_insert_eq. by eapply lookup_lt_Some.
Qed.

(** C7. [Translate] ends the process when the catalog has no entry for
    the locale, and when the locale has no such message id. When both
    lookups succeed, a message without [{{] is returned as it is, and a
    message whose template (cached, or compiled by this call) executes
    without error on the data is returned rendered. *)
Theorem Translate_spec (c : Catalog) (lang messageId : string)
    (d : option (gmap string Value)) :
  (c !! lang = None →
   Translate lang messageId d c = Exit (FatalNoLocalizer lang)) ∧
  (∀ localizer, c !! lang = Some localizer → localizer !! messageId = None →
   Translate lang messageId d c = Exit (FatalNoMessage messageId lang)) ∧
  (∀ message, getMessage c lang messageId = Some message →
     (Contains (Data message) leftDelim = false →
      Translate lang messageId d c = Ret (Data message) c) ∧
     (∀ t buf, Contains (Data message) leftDelim = true →
        compiled message = Some t → Execute t d = Some buf →
        ∃ c', Translate lang messageId d c = Ret buf c')).
Proof.
  split; [|split].
  - intros Hl. unfold Translate, bind, getCatalog. by rewrite Hl.
  - intros localizer Hl Hm. unfold Translate, bind, getCatalog.
    by rewrite Hl, Hm.
  - intros message Hget.
    rewrite (Translate_found c lang messageId d message Hget). split.
    + by intros ->.
    + intros t buf -> -> ->. simpl. eauto.
Qed.

End TranslateTheorems.

(** ** The loader *)

Section LeafFacts.
Context `{TemplateEngine}.

Lemma Raw_ind_entries (P : Raw → Prop) :
  (∀ data, P (RString data)) →
  (∀ entries, Forall (λ kv, P kv.2) entries → P (RMap entries)) →
  (∀ goType text, P (ROther goType text)) →
  ∀ raw, P raw.
Proof.
  intros Hs Hm Ho. fix IH 1. intros [data|entries|goType text].
  - apply Hs.
  - apply Hm. induction entries as [|[k v] entries IHe]; constructor.
    + apply IH.
    + apply IHe.
  - apply Ho.
Qed.

Lemma flatten_isLeaf (messageId : string) (raw : Raw) :
  Forall (λ x, isLeaf x.2) (flatten messageId raw).
Proof.
  revert messageId. induction raw as [data|entries IH|goType text]
    using Raw_ind_entries; intros messageId; simpl.
  - by repeat constructor.
  - induction IH as [|[k v] entries Hv _ IHe]; [constructor|].
    apply Forall_app. split; [apply Hv | apply IHe].
  - by repeat constructor.
Qed.

Lemma addLeaves_app (lang : string) (l1 l2 : list (string * Raw)) (c : Catalog) :
  addLeaves lang (l1 ++ l2) c =
  match addLeaves lang l1 c with
  | Ret None c' => addLeaves lang l2 c'
  | r => r
  end.
Proof.
  revert c. induction l1 as [|[messageId leaf] l1 IH]; intros c; [done|].
  simpl. unfold bind.
  destruct (recGetMessages lang messageId leaf c) as [[e|] c'|f]; [done| |done].
  apply IH.
Qed.

(** The walk of a document is the pass over its leaves. *)
Lemma recGetMessages_flatten (lang : string) (raw : Raw) :
  ∀ (messageId : string) (c : Catalog),
    recGetMessages lang messageId raw c =
    addLeaves lang (flatten messageId raw) c.
Proof.
  induction raw as [data|entries IH|goType text] using Raw_ind_entries;
    intros messageId c.
  - change (flatten messageId (RString data)) with [(messageId, RString data)].
    cbn [addLeaves]. unfold bind at 1.
    by destruct (recGetMessages lang messageId (RString data) c) as [[e|] c'|f].
  - simpl. revert c. induction IH as [|[k v] entries Hv _ IHe]; intros c; [done|].
    rewrite addLeaves_app. unfold bind. simpl in Hv. rewrite <- Hv.
    destruct (recGetMessages lang (joinId messageId k) v c) as [[e|] c'|f];
      [done| |done].
    apply IHe.
  - done.
Qed.

Lemma Clean_nil (t : Table) : Clean t [].
Proof.
  split; [|split].
  - intros ?? Hin. by apply elem_of_nil in Hin.
  - constructor.
  - intros ? Hin. by apply elem_of_nil in Hin.
Qed.

Lemma Clean_cons (t : Table) (messageId data : string) (ls : list (string * Raw)) :
  data ≠ "" → t !! messageId = None →
  Clean (<[messageId := newMessage data]> t) ls →
  Clean t ((messageId, RString data) :: ls).
Proof.
  intros Hdata Hnew (Hgood & Hnd & Hfresh).
  assert (messageId ∉ ls.*1) as Hnotin.
  { intros Hin. apply Hfresh in Hin. by rewrite lookup_insert_eq in Hin. }
  split; [|split].
  - intros m leaf [[= -> ->]|Hin]%elem_of_cons; [by exists data | eauto].
  - simpl. by apply NoDup_cons.
  - simpl. intros m [->|Hin]%elem_of_cons; [done|].
    specialize (Hfresh m Hin). rewrite lookup_insert_ne in Hfresh; [done|].
    intros <-. done.
Qed.

(** The outcome of the pass, case by case: it stores all the leaves when
    they are clean; it returns the error of the first leaf that is no
    string; it ends the process at the first leaf that is empty or whose
    id is taken. *)
Lemma addLeaves_outcome (lang : string) (ls : list (string * Raw)) :
  Forall (λ x, isLeaf x.2) ls →
  ∀ (c : Catalog) (t : Table), c !! lang = Some t →
    match addLeaves lang ls c with
    | Ret None c' => Clean t ls ∧ c' = <[lang := addAll t ls]> c
    | Ret (Some e) _ =>
        ∃ l1 messageId goType text l2,
          ls = l1 ++ (messageId, ROther goType text) :: l2 ∧ Clean t l1 ∧
          e = ErrUnsupported goType text
    | Exit f =>
        ∃ l1 messageId data l2,
          ls = l1 ++ (messageId, RString data) :: l2 ∧ Clean t l1 ∧
          ((data = "" ∧ f = FatalEmpty messageId) ∨
           (data ≠ "" ∧ ∃ old, addAll t l1 !! messageId = Some old ∧
              f = FatalExist messageId (Data old) data))
    end.
Proof.
  induction 1 as [|[messageId leaf] ls Hleaf _ IH]; intros c t Hc.
  - simpl. unfold ret. split; [apply Clean_nil|]. simpl.
    symmetry. by apply insert_id.
  - destruct leaf as [data|entries|goType text]; [| done |].
    + simpl. unfold bind, getCatalog.
      destruct (String.eqb_spec data "") as [->|Hdata].
      { exists [], messageId, "", ls. split; [done|]. split; [apply Clean_nil|].
        by left. }
      rewrite Hc. destruct (t !! messageId) as [old|] eqn:Hold.
      { exists [], messageId, data, ls. split; [done|]. split; [apply Clean_nil|].
        right. split; [done|]. by exists old. }
      unfold bind, putCatalog, ret.
      set (t1 := <[messageId := newMessage data]> t).
      set (c1 := <[lang := t1]> c).
      assert (c1 !! lang = Some t1) as Hc1 by apply lookup_insert_eq.
      specialize (IH c1 t1 Hc1).
      destruct (addLeaves lang ls c1) as [[e|] c'|f].
      * destruct IH as (l1 & m & goType & text & l2 & -> & Hclean & ->).
        exists ((messageId, RString data) :: l1), m, goType, text, l2.
        split; [done|]. split; [by apply Clean_cons | done].
      * destruct IH as [Hclean ->]. split; [by apply Clean_cons|].
        unfold c1. by rewrite insert_insert_eq.
      * destruct IH as (l1 & m & new & l2 & -> & Hclean & Hcase).
        exists ((messageId, RString data) :: l1), m, new, l2.
        split; [done|]. split; [by apply Clean_cons | done].
    + simpl. exists [], messageId, goType, text, ls.
      split; [done|]. split; [apply Clean_nil | done].
Qed.

(** The table after a clean pass: what it had, and the new messages. *)
Lemma addAll_lookup (ls : list (string * Raw)) :
  ∀ (t : Table) (m : string) (message : Message),
    Clean t ls →
    (addAll t ls !! m = Some message ↔
     t !! m = Some message ∨
     ∃ data, (m, RString data) ∈ ls ∧ message = newMessage data).
Proof.
  induction ls as [|[messageId leaf] ls IH]; intros t m message Hclean.
  - simpl. split; [by left|]. intros [?|(data & Hin & _)]; [done|].
    by apply elem_of_nil in Hin.
  - destruct Hclean as (Hgood & Hnd & Hfresh).
    destruct (Hgood messageId leaf) as (data & -> & Hdata); [by left|].
    simpl in Hnd. apply NoDup_cons in Hnd as [Hnotin Hnd]. simpl.
    assert (Clean (<[messageId := newMessage data]> t) ls) as Hclean'.
    { split; [|split]; [|done|].
      - intros ?? Hin. apply (Hgood messageId0 leaf). by right.
      - intros m' Hin. rewrite lookup_insert_ne.
        + apply Hfresh. simpl. by right.
        + intros <-. done. }
    rewrite (IH _ m message Hclean'). rewrite lookup_insert.
    assert (t !! messageId = None) as Hnew by (apply Hfresh; simpl; by left).
    destruct (decide (messageId = m)) as [<-|Hne].
    + split.
      * intros [[= <-]|(d & Hin & ->)].
        -- right. exists data. split; [by left|done].
        -- right. exists d. split; [by right|done].
      * intros [Ht|(d & [[= <-]|Hin]%elem_of_cons & ->)].
        -- congruence.
        -- by left.
        -- right. by exists d.
    + split.
      * intros [Ht|(d & Hin & ->)]; [by left|].
        right. exists d. split; [by right|done].
      * intros [Ht|(d & [[= ? ?]|Hin]%elem_of_cons & ->)]; [by left|done|].
        right. by exists d.
Qed.

End LeafFacts.

Section FileFacts.
Context `{TemplateEngine} `{MapRange} `{LocaleEnv}.

Lemma getMessage_insert (c : Catalog) (lang l m : string) (t : Table) :
  getMessage (<[lang := t]> c) l m =
  if decide (l = lang) then t !! m else getMessage c l m.
Proof.
  unfold getMessage. rewrite lookup_insert.
  destruct (decide (lang = l)) as [<-|Hne].
  - by rewrite decide_True.
  - rewrite decide_False; [done|]. by intros ->.
Qed.

Lemma getMessage_default (c : Catalog) (lang m : string) :
  default ∅ (c !! lang) !! m = getMessage c lang m.
Proof. unfold getMessage. by destruct (c !! lang). Qed.

Lemma leaves_app (localeDir : string) (l1 l2 : list string) :
  leaves localeDir (l1 ++ l2) = leaves localeDir l1 ++ leaves localeDir l2.
Proof. unfold leaves. apply flat_map_app. Qed.

Lemma leaves_cons (localeDir name : string) (names : list string) :
  leaves localeDir (name :: names) =
  leaves localeDir [name] ++ leaves localeDir names.
Proof. apply (leaves_app localeDir [name] names). Qed.

Lemma leaves_document (localeDir name lang : string) (raw : Raw) :
  document localeDir name = Some (lang, raw) →
  leaves localeDir [name] = map (λ leaf, (lang, leaf.1, leaf.2)) (flatten "" raw).
Proof. intros Hdoc. unfold leaves. simpl. rewrite Hdoc. apply app_nil_r. Qed.

Lemma leaves_no_document (localeDir name : string) :
  document localeDir name = None → leaves localeDir [name] = [].
Proof. intros Hdoc. unfold leaves. simpl. by rewrite Hdoc. Qed.

Lemma elem_of_leaves_document (lang : string) (ls : list (string * Raw))
    (l m : string) (leaf : Raw) :
  (l, m, leaf) ∈ map (λ leaf, (lang, leaf.1, leaf.2)) ls ↔
  l = lang ∧ (m, leaf) ∈ ls.
Proof.
  rewrite list_elem_of_fmap. split.
  - intros ([m' leaf'] & [= -> -> ->] & Hin). done.
  - intros [-> Hin]. by exists (m, leaf).
Qed.

Lemma document_locale (localeDir name lang : string) (raw : Raw) :
  document localeDir name = Some (lang, raw) →
  isLocaleFile name lang ∧ languageParse lang = true ∧
  ∃ buf, ReadFile (pathJoin localeDir name) = Some buf ∧ Unmarshal buf = Some raw.
Proof.
  unfold document, isLocaleFile.
  destruct (Split name ".") as [|a [|b [|ext [|? ?]]]]; try done.
  destruct (String.eqb_spec ext "toml") as [->|]; [|done].
  destruct (languageParse b) eqn:Htag; [|done]. simpl.
  destruct (ReadFile _) as [buf|]; [|done]. simpl.
  destruct (Unmarshal buf) as [raw'|] eqn:Hraw; [|done]. simpl.
  intros [= <- <-]. split; [by exists a|]. split; [done|]. by exists buf.
Qed.

(** One directory entry: the file loads, or one of the triggers ends the
    process. *)
Lemma registerFile_outcome (localeDir name : string) (c : Catalog) :
  match registerFile localeDir name c with
  | Ret _ c' => Loaded localeDir [name] c c'
  | Exit f => loadCause localeDir [name] c f
  end.
Proof.
  assert (name ∈ [name]) as Hname by by left.
  unfold registerFile.
  destruct (Split name ".") as [|a [|b [|ext [|more rest]]]] eqn:Hs; simpl.
  - apply cause_filename; [done | intros [? ?] | intros ? [? ?]]; congruence.
  - apply cause_filename; [done | intros [? ?] | intros ? [? ?]]; congruence.
  - destruct (String.eqb_spec b "go") as [->|Hgo]; simpl.
    + unfold ret.
      assert (document localeDir name = None) as Hdoc
        by (unfold document; by rewrite Hs).
      split; rewrite ?(leaves_no_document _ _ Hdoc).
      * intros n ->%list_elem_of_singleton. left. by exists a.
      * intros ??? Hin. by apply elem_of_nil in Hin.
      * constructor.
      * intros ??? Hin. by apply elem_of_nil in Hin.
      * intros ???. split; [by left|]. intros [?|(? & Hin & _)]; [done|].
        by apply elem_of_nil in Hin.
      * intros l. split; [by left|]. intros [?|(n & raw & Hn & Hd)]; [done|].
        apply list_elem_of_singleton in Hn as ->. congruence.
    + apply cause_filename; [done | intros [? ?] | intros ? [? ?]]; congruence.
  - destruct (String.eqb_spec ext "toml") as [->|Hext]; simpl.
    2:{ apply cause_filename; [done | intros [? ?] | intros ? [? ?]]; congruence. }
    assert (isLocaleFile name b) as Hloc by by exists a.
    destruct (languageParse b) eqn:Htag; simpl.
    2:{ by eapply cause_language. }
    unfold bind at 1. unfold getCatalog. unfold bind at 1.
    set (t := default ∅ (c !! b)).
    set (c1 := match c !! b with Some _ => c | None => <[b := ∅]> c end).
    assert (match c !! b with
            | Some _ => ret tt
            | None => putCatalog (<[b := ∅]> c)
            end c = Ret tt c1) as -> by (unfold c1; by destruct (c !! b)).
    assert (c1 !! b = Some t) as Hc1.
    { unfold c1, t. destruct (c !! b) eqn:Hb; [done|]. apply lookup_insert_eq. }
    assert (∀ t', <[b := t']> c1 = <[b := t']> c) as Hins.
    { intros t'. unfold c1. destruct (c !! b); [done|]. apply insert_insert_eq. }
    destruct (ReadFile (pathJoin localeDir name)) as [buf|] eqn:Hread.
    2:{ by eapply cause_file. }
    destruct (Unmarshal buf) as [raw|] eqn:Hraw.
    2:{ by eapply cause_unmarshal. }
    assert (document localeDir name = Some (b, raw)) as Hdoc.
    { unfold document. rewrite Hs, String.eqb_refl, Htag. simpl.
      rewrite Hread. simpl. by rewrite Hraw. }
    pose proof (leaves_document _ _ _ _ Hdoc) as Hleaves.
    unfold bind. rewrite recGetMessages_flatten.
    pose proof (addLeaves_outcome b (flatten "" raw) (flatten_isLeaf "" raw)
                  c1 t Hc1) as Hout.
    destruct (addLeaves b (flatten "" raw) c1) as [[e|] c'|f].
    + destruct Hout as (l1 & m & goType & text & l2 & Hfl & _ & ->).
      apply (cause_unsupported _ _ _ b m). rewrite Hleaves.
      apply elem_of_leaves_document. split; [done|]. rewrite Hfl.
      apply elem_of_app. right. by left.
    + destruct Hout as [Hclean ->]. rewrite Hins. unfold ret.
      destruct Hclean as (Hgood & Hnd & Hfresh).
      split; rewrite ?Hleaves.
      * intros n ->%list_elem_of_singleton. right. by rewrite Hdoc.
      * intros l m leaf [-> Hin]%elem_of_leaves_document. eauto.
      * rewrite <- list_fmap_compose.
        apply (NoDup_fmap_2_strong (λ leaf : string * Raw, (b, leaf.1))).
        -- intros [m1 r1] [m2 r2] Hin1 Hin2 [= Heq]. simpl in Heq. subst m2.
           apply (list_elem_of_fmap_2 fst) in Hin1 as Hk1. simpl in Hk1.
           f_equal. clear Hk1.
           assert (∀ ls : list (string * Raw), NoDup ls.*1 →
                     (m1, r1) ∈ ls → (m1, r2) ∈ ls → r1 = r2) as Huniq.
           { clear. induction ls as [|[m r] ls IH]; simpl.
             - intros _ Hin. by apply elem_of_nil in Hin.
             - intros [Hnotin Hnd]%NoDup_cons Hin1 Hin2.
               apply elem_of_cons in Hin1 as [[= <- <-]|Hin1];
                 apply elem_of_cons in Hin2 as [[= ?]|Hin2]; try done.
               + exfalso. apply Hnotin.
                 apply (list_elem_of_fmap_2 fst) in Hin2. done.
               + exfalso. apply Hnotin. subst.
                 apply (list_elem_of_fmap_2 fst) in Hin1. done.
               + by apply IH. }
           by apply (Huniq (flatten "" raw)).
        -- assert (NoDup (flatten "" raw)) as Hnd'.
           { eapply NoDup_fmap_1. exact Hnd. }
           done.
      * intros l m leaf [-> Hin]%elem_of_leaves_document.
        rewrite <- getMessage_default. apply Hfresh.
        by apply (list_elem_of_fmap_2 fst) in Hin.
      * intros l m message. rewrite getMessage_insert.
        destruct (decide (l = b)) as [->|Hne].
        -- rewrite (addAll_lookup _ t m message); [|done].
           unfold t. rewrite getMessage_default.
           split; (intros [?|(d & Hin & ->)]; [by left|right; exists d]).
           ++ split; [|done]. by apply elem_of_leaves_document.
           ++ split; [|done]. by apply elem_of_leaves_document in Hin as [_ ?].
        -- split; [by left|]. intros [?|(d & Hin & _)]; [done|].
           by apply elem_of_leaves_document in Hin as [? _].
      * intros l. rewrite lookup_insert.
        destruct (decide (b = l)) as [<-|Hne].
        -- split; [|done]. intros _. right. by exists name, raw.
        -- split; [by left|]. intros [?|(n & raw' & Hn & Hd)]; [done|].
           apply list_elem_of_singleton in Hn as ->. congruence.
    + destruct Hout as (l1 & m & data & l2 & Hfl & Hclean & Hcase).
      assert ((b, m, RString data) ∈ leaves localeDir [name]) as Hin.
      { rewrite Hleaves. apply elem_of_leaves_document. split; [done|].
        rewrite Hfl. apply elem_of_app. right. by left. }
      destruct Hcase as [[-> ->]|(Hdata & old & Hold & ->)].
      * by eapply cause_empty.
      * apply (addAll_lookup _ t m old Hclean) in Hold
          as [Hold|(d & Hd & ->)].
        -- unfold t in Hold. rewrite getMessage_default in Hold.
           by eapply cause_exist_loaded.
        -- apply list_elem_of_split in Hd as (l1a & l1b & ->).
           eapply (cause_exist_earlier _ _ _ b m data d
                     (map (λ leaf, (b, leaf.1, leaf.2)) l1a)
                     (map (λ leaf, (b, leaf.1, leaf.2)) l1b)
                     (map (λ leaf, (b, leaf.1, leaf.2)) l2)).
           rewrite Hleaves, Hfl, !map_app. simpl. by rewrite <- app_assoc.
  - apply cause_filename; [done | intros [? ?] | intros ? [? ?]]; congruence.
Qed.

End FileFacts.

Section LoaderFacts.
Context `{TemplateEngine} `{MapRange} `{LocaleEnv}.

Lemma elem_of_keys (es : list (string * string * Raw)) (lang m : string) :
  (lang, m) ∈ es.*1 ↔ ∃ leaf, (lang, m, leaf) ∈ es.
Proof.
  rewrite list_elem_of_fmap. split.
  - intros ([[l' m'] leaf] & [= -> ->] & Hin). by exists leaf.
  - intros [leaf Hin]. by exists (lang, m, leaf).
Qed.

Lemma Loaded_nil (localeDir : string) (c : Catalog) : Loaded localeDir [] c c.
Proof.
  split; simpl.
  - intros ? Hin. by apply elem_of_nil in Hin.
  - intros ??? Hin. by apply elem_of_nil in Hin.
  - constructor.
  - intros ??? Hin. by apply elem_of_nil in Hin.
  - intros ???. split; [by left|]. intros [?|(? & Hin & _)]; [done|].
    by apply elem_of_nil in Hin.
  - intros ?. split; [by left|]. intros [?|(? & ? & Hin & _)]; [done|].
    by apply elem_of_nil in Hin.
Qed.

Lemma Loaded_cons (localeDir name : string) (names : list string)
    (c c1 c' : Catalog) :
  Loaded localeDir [name] c c1 → Loaded localeDir names c1 c' →
  Loaded localeDir (name :: names) c c'.
Proof.
  intros [Hn1 Hs1 Hd1 Hf1 Hm1 Hl1] [Hn2 Hs2 Hd2 Hf2 Hm2 Hl2].
  pose proof (leaves_cons localeDir name names) as Hcons.
  split; try rewrite Hcons.
  - intros n [->|Hin]%elem_of_cons; [apply Hn1; by left | by apply Hn2].
  - intros l m leaf [Hin|Hin]%elem_of_app; eauto.
  - rewrite fmap_app. apply NoDup_app. split; [done|]. split; [|done].
    intros [l m] [leaf1 Hin1]%elem_of_keys [leaf2 Hin2]%elem_of_keys.
    destruct (Hs1 _ _ _ Hin1) as (d & -> & _).
    assert (getMessage c1 l m = Some (newMessage d)) as Hsome
      by (apply Hm1; right; by exists d).
    rewrite (Hf2 _ _ _ Hin2) in Hsome. done.
  - intros l m leaf [Hin|Hin]%elem_of_app; [eauto|].
    destruct (getMessage c l m) as [old|] eqn:Hold; [|done].
    assert (getMessage c1 l m = Some old) as Hsome by (apply Hm1; by left).
    rewrite (Hf2 _ _ _ Hin) in Hsome. done.
  - intros l m message. rewrite Hm2, Hm1. split.
    + intros [[?|(d & Hin & ->)]|(d & Hin & ->)]; [by left|right..];
        exists d; (split; [|done]); apply elem_of_app; [by left|by right].
    + intros [?|(d & [Hin|Hin]%elem_of_app & ->)].
      * left. by left.
      * left. right. by exists d.
      * right. by exists d.
  - intros l. rewrite Hl2, Hl1. split.
    + intros [[?|(n & raw & Hin & Hd)]|(n & raw & Hin & Hd)]; [by left|..].
      * right. exists n, raw. split; [|done].
        apply list_elem_of_singleton in Hin as ->. by left.
      * right. exists n, raw. split; [by right|done].
    + intros [?|(n & raw & [->|Hin]%elem_of_cons & Hd)].
      * left. by left.
      * left. right. exists name, raw. split; [by left|done].
      * right. by exists n, raw.
Qed.

Lemma loadCause_head (localeDir name : string) (names : list string)
    (c : Catalog) (f : Fatal) :
  loadCause localeDir [name] c f → loadCause localeDir (name :: names) c f.
Proof.
  assert (∀ n, n ∈ [name] → n ∈ name :: names) as Hin
    by (intros n ->%list_elem_of_singleton; by left).
  assert (∀ e, e ∈ leaves localeDir [name] →
               e ∈ leaves localeDir (name :: names)) as Hleaf
    by (intros e He; rewrite leaves_cons; apply elem_of_app; by left).
  intros Hcause. destruct Hcause.
  - apply cause_filename; auto.
  - eapply cause_language; eauto.
  - eapply cause_file; eauto.
  - eapply cause_unmarshal; eauto.
  - eapply cause_unsupported; eauto.
  - eapply cause_empty; eauto.
  - eapply cause_exist_loaded; eauto.
  - eapply (cause_exist_earlier _ _ _ lang messageId data oldData l1 l2
              (l3 ++ leaves localeDir names)).
    rewrite leaves_cons. match goal with Heq : leaves _ _ = _ |- _ => rewrite Heq end.
    by repeat (rewrite <- app_assoc; simpl).
Qed.

Lemma loadCause_tail (localeDir name : string) (names : list string)
    (c c1 : Catalog) (f : Fatal) :
  Loaded localeDir [name] c c1 → loadCause localeDir names c1 f →
  loadCause localeDir (name :: names) c f.
Proof.
  intros [_ _ _ _ Hm1 _] Hcause.
  assert (∀ n, n ∈ names → n ∈ name :: names) as Hin by (intros; by right).
  assert (∀ e, e ∈ leaves localeDir names →
               e ∈ leaves localeDir (name :: names)) as Hleaf
    by (intros e He; rewrite leaves_cons; apply elem_of_app; by right).
  destruct Hcause.
  - apply cause_filename; auto.
  - eapply cause_language; eauto.
  - eapply cause_file; eauto.
  - eapply cause_unmarshal; eauto.
  - eapply cause_unsupported; eauto.
  - eapply cause_empty; eauto.
  - match goal with Hold : getMessage c1 _ _ = Some _ |- _ =>
      apply Hm1 in Hold as [Hold|(d & Hd & ->)] end.
    + eapply cause_exist_loaded; eauto.
    + apply list_elem_of_split in Hd as (a & b & Ha).
      match goal with Hnew : _ ∈ leaves localeDir names |- _ =>
        apply list_elem_of_split in Hnew as (p & q & Hp) end.
      eapply (cause_exist_earlier _ _ _ lang messageId data d a (b ++ p) q).
      rewrite leaves_cons, Ha, Hp. by repeat (rewrite <- app_assoc; simpl).
  - eapply (cause_exist_earlier _ _ _ lang messageId data oldData
              (leaves localeDir [name] ++ l1) l2 l3).
    rewrite leaves_cons. match goal with Heq : leaves _ _ = _ |- _ => rewrite Heq end.
    by rewrite <- !app_assoc.
Qed.

(** The loop over the listing: all files load, or a trigger ends the
    process. *)
Lemma registerFiles_outcome (localeDir : string) (names : list string) :
  ∀ c : Catalog,
    match registerFiles localeDir names c with
    | Ret _ c' => Loaded localeDir names c c'
    | Exit f => loadCause localeDir names c f
    end.
Proof.
  induction names as [|name names IH]; intros c.
  - apply Loaded_nil.
  - simpl. unfold bind.
    pose proof (registerFile_outcome localeDir name c) as Hfile.
    destruct (registerFile localeDir name c) as [[] c1|f].
    + specialize (IH c1).
      destruct (registerFiles localeDir names c1) as [[] c'|f].
      * by eapply Loaded_cons.
      * by eapply loadCause_tail.
    + by apply loadCause_head.
Qed.

(** A load that succeeded met no trigger. *)
Lemma Loaded_no_cause (localeDir : string) (names : list string)
    (c c' : Catalog) (f : Fatal) :
  Loaded localeDir names c c' → ¬ loadCause localeDir names c f.
Proof.
  intros [Hn Hs Hd Hf Hm Hl] Hcause.
  assert (∀ name lang, name ∈ names → isLocaleFile name lang →
            ∃ raw, document localeDir name = Some (lang, raw)) as Hdoc.
  { intros name lang Hin [modul Hshape].
    destruct (Hn name Hin) as [[base Hsrc]|[[l raw] Hdoc]]; [congruence|].
    exists raw. destruct (document_locale _ _ _ _ Hdoc) as ([modul' Hshape'] & _).
    congruence. }
  destruct Hcause as
    [name Hin Hnosrc Hnoloc
    |name lang Hin Hloc Htag
    |name lang Hin Hloc Htag Hread
    |name lang buf Hin Hloc Htag Hread Hraw
    |lang messageId goType text Hleaf
    |lang messageId Hleaf
    |lang messageId data old Hleaf Hold
    |lang messageId data oldData l1 l2 l3 Heq].
  - destruct (Hn name Hin) as [?|[[l raw] Hd']]; [done|].
    apply document_locale in Hd' as (Hloc & _). by eapply Hnoloc.
  - destruct (Hdoc name lang Hin Hloc) as [raw Hd'].
    apply document_locale in Hd' as (_ & Htag' & _). congruence.
  - destruct (Hdoc name lang Hin Hloc) as [raw Hd'].
    apply document_locale in Hd' as (_ & _ & buf & Hread' & _). congruence.
  - destruct (Hdoc name lang Hin Hloc) as [raw Hd'].
    apply document_locale in Hd' as (_ & _ & buf' & Hread' & Hraw').
    congruence.
  - destruct (Hs _ _ _ Hleaf) as (d & ? & _). done.
  - destruct (Hs _ _ _ Hleaf) as (d & [= <-] & ?). done.
  - rewrite (Hf _ _ _ Hleaf) in Hold. done.
  - rewrite Heq in Hd. rewrite fmap_app in Hd. simpl in Hd.
    apply NoDup_app in Hd as (_ & _ & Hd).
    apply NoDup_cons in Hd as [Hnotin _]. apply Hnotin.
    rewrite fmap_app. apply elem_of_app. right. by left.
Qed.

End LoaderFacts.

Section LoaderTheorems.
Context `{TemplateEngine} `{MapRange} `{LocaleEnv}.

(** C6. The loader ends the process exactly on its triggers: each fatal
    end is the report of a trigger the directory holds (the listing or a
    file cannot be read, a name is neither a skipped two-segment [.go]
    name nor [<module>.<lang>.toml], the tag is invalid, the document
    does not decode, a leaf is no string, a leaf is the empty string, or
    an id is taken for its locale, reported with the stored and the new
    content); every trigger makes the load end fatally; without one the
    load returns. *)
Theorem loadLocaleDir_fatal_exactly (localeDir : string) (c : Catalog) :
  (∀ f, loadLocaleDir localeDir c = Exit f → dirCause localeDir c f) ∧
  (∀ f, dirCause localeDir c f → ∃ f', loadLocaleDir localeDir c = Exit f') ∧
  ((∀ f, ¬ dirCause localeDir c f) → ∃ c', loadLocaleDir localeDir c = Ret tt c') ∧
  (∀ f, RegisterI18n localeDir c = Exit f ↔
     loadLocaleDir localeDir c = Exit f ∨
     ∃ c' e, loadLocaleDir localeDir c = Ret tt c' ∧
       checkLanguageMap c' = Some e ∧ f = FatalCheck e).
Proof.
  assert ((∀ f, loadLocaleDir localeDir c = Exit f → dirCause localeDir c f) ∧
          (∀ f, dirCause localeDir c f →
             ∃ f', loadLocaleDir localeDir c = Exit f') ∧
          ((∀ f, ¬ dirCause localeDir c f) →
             ∃ c', loadLocaleDir localeDir c = Ret tt c'))
    as (Honly & Hevery & Helse).
  { unfold loadLocaleDir.
    destruct (ReadDir localeDir) as [names|] eqn:Hdir.
    - pose proof (registerFiles_outcome localeDir names c) as Hout.
      destruct (registerFiles localeDir names c) as [[] c'|f0].
      + split; [done|]. split; [|by eauto].
        intros f [Hnone|names' f' Hsome Hcause]; [congruence|].
        assert (names' = names) as -> by congruence.
        by apply Loaded_no_cause with (f := f') in Hout.
      + split; [|split].
        * intros f [= <-]. by eapply cause_listed.
        * intros f _. by exists f0.
        * intros Hno. exfalso. apply (Hno f0). by eapply cause_listed.
    - split; [|split].
      + intros f [= <-]. by apply cause_dir.
      + intros f _. by eexists.
      + intros Hno. exfalso. apply (Hno (FatalLoadDir localeDir)).
        by apply cause_dir. }
  split; [done|]. split; [done|]. split; [done|].
  intros f. unfold RegisterI18n, bind, getCatalog.
  destruct (loadLocaleDir localeDir c) as [[] c'|f0].
  - destruct (checkLanguageMap c') as [e|] eqn:Hcheck; unfold fatalf, ret.
    + split.
      * intros [= <-]. right. by exists c', e.
      * intros [?|(c1 & e1 & [= <-] & He & ->)]; [done|]. congruence.
    + split; [done|].
      intros [?|(c1 & e1 & [= <-] & He & _)]; [done|congruence].
  - split; [by left|]. intros [?|(c1 & e1 & ? & _)]; done.
Qed.

Lemma string_app_assoc (s1 s2 s3 : string) :
  (s1 +:+ s2) +:+ s3 = s1 +:+ s2 +:+ s3.
Proof.
  induction s1 as [|a s1 IH]; [done|].
  change (String a ((s1 +:+ s2) +:+ s3) = String a (s1 +:+ s2 +:+ s3)).
  by f_equal.
Qed.

(** The id [recGetMessages] gives to the leaf under [path], started with
    the id [messageId]. *)
Lemma leafAt_flatten (raw : Raw) :
  ∀ (messageId : string) (path : list string) (data : string),
    leafAt raw path data →
    (fold_left joinId path messageId, RString data) ∈ flatten messageId raw.
Proof.
  induction raw as [d|entries IH|goType text] using Raw_ind_entries;
    intros messageId path data Hleaf; inversion Hleaf; subst.
  - simpl. by left.
  - simpl. match goal with Hin : (_, _) ∈ entries |- _ => rename Hin into Hkv end.
    induction IH as [|[k' v'] entries Hv _ IHe]; [by apply elem_of_nil in Hkv|].
    apply elem_of_app.
    apply elem_of_cons in Hkv as [[= <- <-]|Hkv].
    + left. by apply Hv.
    + right. apply IHe; [|done]. by econstructor.
Qed.

Lemma joined_path (messageId : string) (path : list string) :
  messageId ≠ "" →
  fold_left joinId path messageId = String.concat "." (messageId :: path).
Proof.
  revert messageId. induction path as [|k path IH]; intros messageId Hne; [done|].
  cbn [fold_left]. unfold joinId at 2.
  destruct (String.eqb_spec messageId "") as [|_]; [done|].
  rewrite IH.
  - destruct path as [|k' path]; simpl; [done|]. by rewrite !string_app_assoc.
  - by destruct messageId.
Qed.

(** C5 (amended). After a load that returns, the string leaf a document
    holds under the keys k1, ..., kn, k1 not empty, is the message of the
    file's locale under the id k1.k2.....kn (the keys joined by one dot
    each, none before k1 or after kn), fresh, with the leaf as raw
    content; all files of a locale add to its one table, and what the
    catalog held before is kept. *)
Theorem loadLocaleDir_flattens (localeDir : string) (names : list string)
    (c c' : Catalog) :
  ReadDir localeDir = Some names →
  loadLocaleDir localeDir c = Ret tt c' →
  (∀ name lang raw k1 path data,
     name ∈ names → document localeDir name = Some (lang, raw) →
     leafAt raw (k1 :: path) data → k1 ≠ "" →
     getMessage c' lang (String.concat "." (k1 :: path))
     = Some (newMessage data)) ∧
  (∀ lang messageId message,
     getMessage c lang messageId = Some message →
     getMessage c' lang messageId = Some message).
Proof.
  intros Hdir Hload. unfold loadLocaleDir in Hload. rewrite Hdir in Hload.
  pose proof (registerFiles_outcome localeDir names c) as Hout.
  rewrite Hload in Hout. destruct Hout as [_ _ _ _ Hm _].
  split.
  - intros name lang raw k1 path data Hin Hdoc Hleaf Hk1.
    apply Hm. right. exists data. split; [|done].
    apply list_elem_of_split in Hin as (pre & post & ->).
    rewrite leaves_app, leaves_cons, (leaves_document _ _ _ _ Hdoc).
    apply elem_of_app. right. apply elem_of_app. left.
    apply elem_of_leaves_document. split; [done|].
    rewrite <- (joined_path k1 path Hk1).
    apply (leafAt_flatten raw "" (k1 :: path) data Hleaf).
  - intros lang messageId message Hold. apply Hm. by left.
Qed.

(** C10. A catalog of at most one locale passes the validation, whatever
    the ids of that locale: the one locale is the reference and nothing
    is compared. So does the catalog of one locale and no message that
    a directory loads to whose one file is a locale file with a document
    without leaves. *)
Theorem checkLanguageMap_single (c : Catalog) :
  size c ≤ 1 →
  checkLanguageMap c = None ∧
  ∀ localeDir name lang,
    ReadDir localeDir = Some [name] →
    document localeDir name = Some (lang, RMap []) →
    RegisterI18n localeDir ∅ = Ret tt {[ lang := ∅ ]}.
Proof.
  assert (∀ c0 : Catalog, size c0 ≤ 1 → checkLanguageMap c0 = None) as Hone.
  { intros c0 Hsize. rewrite checkLanguageMap_unfold.
    pose proof (range_length 0 c0) as Hlen.
    destruct (range 0 c0) as [|[firstLang firstMap] [|more todo]]; simpl in *;
      [done..|lia]. }
  intros Hsize. split; [by apply Hone|].
  intros localeDir name lang Hdir Hdoc.
  destruct (document_locale _ _ _ _ Hdoc)
    as ([modul Hshape] & Htag & buf & Hread & Hraw).
  assert (loadLocaleDir localeDir ∅ = Ret tt {[ lang := ∅ ]}) as Hload.
  { unfold loadLocaleDir. rewrite Hdir. simpl. unfold bind at 1.
    unfold registerFile. rewrite Hshape. simpl. rewrite Htag. simpl.
    unfold bind, getCatalog, putCatalog, ret. rewrite lookup_empty.
    rewrite Hread, Hraw. simpl. unfold ret. done. }
  unfold RegisterI18n, bind, getCatalog. rewrite Hload.
  rewrite Hone; [done|]. by rewrite map_size_singleton.
Qed.

End LoaderTheorems.

Section LoaderExamples.
#[local] Existing Instance GoTemplate.engine.
#[local] Existing Instance rangeToList.
#[local] Existing Instance localeFS.

Lemma loadLocaleDir_example :
  loadLocaleDir "locale" ∅ = Ret tt catalogLoaded.
Proof. by apply returns_stateOf. Qed.

Lemma loadLocaleDir_clash :
  loadLocaleDir (H1 := clashFS) "clash" ∅ = Exit (FatalExist "Hello" "one" "two").
Proof. reflexivity. Qed.

Lemma RegisterI18n_example : RegisterI18n "locale" ∅ = Ret tt catalogLoaded.
Proof.
  unfold RegisterI18n, bind. rewrite loadLocaleDir_example.
  unfold getCatalog.
  assert (checkLanguageMap catalogLoaded = None) as -> by reflexivity.
  done.
Qed.

Lemma loadLocaleDir_flattens_witness :
  getMessage catalogLoaded "en-US" "Order.NotFound.Description"
  = Some (newMessage "Order not found").
Proof.
  refine (proj1 (loadLocaleDir_flattens "locale"
                   ["errors.en-US.toml"; "errors.zh-CN.toml"; "errors.go"]
                   ∅ catalogLoaded _ _)
            "errors.en-US.toml" "en-US" documentEn "Order"
            ["NotFound"; "Description"] "Order not found" _ _ _ _).
  - reflexivity.
  - apply loadLocaleDir_example.
  - by left.
  - reflexivity.
  - eapply leaf_below; [right; by left|].
    eapply leaf_below; [by left|].
    eapply leaf_below; [by left|]. constructor.
  - done.
Defined.

Lemma checkLanguageMap_single_witness :
  size catalogBare ≤ 1 ∧ checkLanguageMap catalogBare = None.
Proof.
  split; [vm_compute; lia|].
  apply (checkLanguageMap_single catalogBare). vm_compute. lia.
Defined.

(** C5, as first stated, fails on empty keys: the leaf under the keys
    [""], ["a"] is stored under the id [a], not under the dot-joined
    [.a], and the leaf under ["b"], [""] under [b.], which ends in a
    dot. *)
Lemma recGetMessages_empty_key_not_joined :
  leafAt documentEmptyKeys [""; "a"] "x" ∧
  leafAt documentEmptyKeys ["b"; ""] "y" ∧
  returns (recGetMessages "en" "" documentEmptyKeys {[ "en" := ∅ ]}) = true ∧
  getMessage catalogEmptyKeys "en" (String.concat "." [""; "a"]) = None ∧
  getMessage catalogEmptyKeys "en" "a" = Some (newMessage "x") ∧
  getMessage catalogEmptyKeys "en" "b." = Some (newMessage "y").
Proof.
  split; [|split].
  - eapply leaf_below; [by left|]. eapply leaf_below; [by left|]. constructor.
  - eapply leaf_below; [right; by left|]. eapply leaf_below; [by left|].
    constructor.
  - repeat split; reflexivity.
Qed.

End LoaderExamples.

Section TranslateExamples.
#[local] Existing Instance GoTemplate.engine.
#[local] Existing Instance rangeToList.
#[local] Existing Instance localeFS.

Lemma Translate_fast_path_witness :
  Translate "en-US" "Order.NotFound.Description" None catalogLoaded
  = Ret "Order not found" catalogLoaded.
Proof.
  refine (proj1 (Translate_fast_path catalogLoaded "en-US"
                   "Order.NotFound.Description" None
                   (newMessage "Order not found") _ _)); reflexivity.
Defined.

Lemma Translate_spec_witness :
  ∃ c', Translate "en-US" "Greeting"
          (Some {[ "Name" := GoTemplate.VString "Ana" ]}) catalogLoaded
        = Ret "Hello, Ana" c'.
Proof.
  refine (proj2 (proj2 (proj2 (Translate_spec catalogLoaded "en-US" "Greeting"
                                 (Some {[ "Name" := GoTemplate.VString "Ana" ]})))
                   (newMessage "Hello, {{.Name}}") _)
            [GoTemplate.TextNode "Hello, "; GoTemplate.FieldNode "Name"]
            "Hello, Ana" _ _ _); reflexivity.
Defined.

End TranslateExamples.

(** ** The catalog under [Translate] *)

Section Evolution.
Context `{TemplateEngine}.

Lemma evolves_refl (c : Catalog) : evolves c c.
Proof.
  split; [done|by eauto|]. intros lang messageId message Hget.
  by exists message.
Qed.

Lemma evolves_trans (c1 c2 c3 : Catalog) :
  evolves c1 c2 → evolves c2 c3 → evolves c1 c3.
Proof.
  intros [Hl1 Hi1 Hm1] [Hl2 Hi2 Hm2]. split.
  - congruence.
  - intros lang t Ht. destruct (Hi1 lang t Ht) as (t' & Ht' & Hd').
    destruct (Hi2 lang t' Ht') as (t'' & Ht'' & Hd''). exists t''.
    split; [done|congruence].
  - intros lang messageId message Hget.
    destruct (Hm1 _ _ _ Hget) as (m2 & Hget2 & HD2 & HC2).
    destruct (Hm2 _ _ _ Hget2) as (m3 & Hget3 & HD3 & HC3).
    exists m3. split; [done|]. split; congruence.
Qed.

(** The ids of [c'] are those of [c]. *)
Lemma evolves_back (c c' : Catalog) (lang messageId : string) (message' : Message) :
  evolves c c' → getMessage c' lang messageId = Some message' →
  ∃ message, getMessage c lang messageId = Some message.
Proof.
  intros [Hl Hi _] (t' & Ht' & Hm')%getMessage_Some.
  assert (lang ∈ dom c) as [t Ht]%elem_of_dom.
  { rewrite <- Hl. apply elem_of_dom. by eauto. }
  destruct (Hi lang t Ht) as (t'' & Ht'' & Hdom).
  assert (t'' = t') as -> by congruence.
  assert (messageId ∈ dom t) as [message Hm]%elem_of_dom.
  { rewrite <- Hdom. apply elem_of_dom. by eauto. }
  exists message. apply getMessage_Some. by exists t.
Qed.

Lemma matures_refl (c : Catalog) : matures c c.
Proof.
  intros lang messageId message message' Hget Hget' Hwf.
  by replace message' with message by congruence.
Qed.

Lemma matures_trans (c1 c2 c3 : Catalog) :
  evolves c1 c2 → matures c1 c2 → matures c2 c3 → matures c1 c3.
Proof.
  intros Hev H12 H23 lang messageId m1 m3 Hget1 Hget3 Hwf.
  destruct (evolves_messages _ _ Hev _ _ _ Hget1) as (m2 & Hget2 & _).
  destruct (H12 _ _ _ _ Hget1 Hget2 Hwf) as [Hwf2 Hp2].
  destruct (H23 _ _ _ _ Hget2 Hget3 Hwf2) as [Hwf3 Hp3].
  split; [done|]. intros Hsome. rewrite Hp3; [by apply Hp2|].
  by rewrite Hp2.
Qed.

(** Writing to a stored message a state with the same raw content and
    the same template to execute. *)
Lemma evolves_setMessage (c : Catalog) (lang messageId : string)
    (message message' : Message) :
  getMessage c lang messageId = Some message →
  Data message' = Data message →
  compiled message' = compiled message →
  evolves c (setMessage c lang messageId message').
Proof.
  intros Hget HD HC. split.
  - apply dom_setMessage.
  - intros l t Ht. by eapply lookup_setMessage.
  - intros l m old Hold. rewrite getMessage_setMessage; [|by eauto].
    destruct (decide (l = lang ∧ m = messageId)) as [[-> ->]|Hne].
    + exists message'. by replace old with message by congruence.
    + by exists old.
Qed.

Lemma matures_setMessage (c : Catalog) (lang messageId : string)
    (message message' : Message) :
  getMessage c lang messageId = Some message →
  (wellFormed message →
   wellFormed message' ∧
   (is_Some (parsedTemplate message) →
    parsedTemplate message' = parsedTemplate message)) →
  matures c (setMessage c lang messageId message').
Proof.
  intros Hget Hstep l m old new Hold Hnew Hwf.
  rewrite getMessage_setMessage in Hnew; [|by eauto].
  destruct (decide (l = lang ∧ m = messageId)) as [[-> ->]|Hne].
  - assert (old = message) as -> by congruence.
    assert (new = message') as -> by congruence. by apply Hstep.
  - by replace new with old by congruence.
Qed.

(** The state [Translate] stores when it compiles. *)
Lemma compiled_stored (message : Message) (t : Template) :
  parseOnce message = false → Parse (Data message) = Some t →
  let message' := mkMessage (Data message) true (Some t) in
  compiled message' = compiled message ∧
  (wellFormed message →
   wellFormed message' ∧
   (is_Some (parsedTemplate message) →
    parsedTemplate message' = parsedTemplate message)).
Proof.
  intros Honce Hparse. simpl. unfold compiled, wellFormed. simpl.
  rewrite Honce, Hparse. split; [done|]. intros [Hne Hnone]. split.
  - by eauto.
  - intros [t0 Ht0]. congruence.
Qed.

Lemma Translate_evolves (c c' : Catalog) (lang messageId : string)
    (d : option (gmap string Value)) (out : string) :
  Translate lang messageId d c = Ret out c' →
  evolves c c' ∧ matures c c' ∧
  ∃ message, getMessage c lang messageId = Some message ∧
    rendered message d = Some out.
Proof.
  intros Hrun.
  destruct (getMessage c lang messageId) as [message|] eqn:Hget.
  2:{ exfalso. unfold Translate, bind, getCatalog, getMessage in *.
      destruct (c !! lang) as [localizer|]; [|done]. simpl in Hget.
      by rewrite Hget in Hrun. }
  rewrite (Translate_found c lang messageId d message Hget) in Hrun.
  assert (∀ o, rendered message d = Some o →
            ∃ message0, Some message = Some message0 ∧
              rendered message0 d = Some o) as Hex by (intros; by exists message).
  unfold rendered in Hex.
  destruct (negb (Contains (Data message) leftDelim)).
  { injection Hrun as <- <-.
    split; [apply evolves_refl|]. split; [apply matures_refl|by apply Hex]. }
  destruct (compiled message) as [t|] eqn:Hc; [|done]. simpl in Hex.
  destruct (Execute t d) as [buf|] eqn:Hexec; [|done].
  injection Hrun as <- <-.
  destruct (parseOnce message) eqn:Honce.
  { split; [apply evolves_refl|]. split; [apply matures_refl|by apply Hex]. }
  unfold compiled in Hc. rewrite Honce in Hc.
  destruct (compiled_stored message t Honce Hc) as (HC & HW).
  split; [by eapply evolves_setMessage|].
  split; [by eapply matures_setMessage|by apply Hex].
Qed.

Lemma translateAll_evolves
    (calls : list (string * string * option (gmap string Value))) :
  ∀ (c c' : Catalog) (outs : list string),
    translateAll calls c = Ret outs c' →
    evolves c c' ∧ matures c c' ∧
    Forall2 (λ call out,
               ∃ message, getMessage c call.1.1 call.1.2 = Some message ∧
                 rendered message call.2 = Some out) calls outs.
Proof.
  induction calls as [|[[lang messageId] d] calls IH]; intros c c' outs Hrun.
  - injection Hrun as <- <-.
    split; [apply evolves_refl|]. split; [apply matures_refl|constructor].
  - simpl in Hrun. unfold bind in Hrun.
    destruct (Translate lang messageId d c) as [out c1|f] eqn:Hone; [|done].
    destruct (translateAll calls c1) as [outs' c2|f] eqn:Hrest; [|done].
    injection Hrun as <- <-.
    apply Translate_evolves in Hone as (Hev1 & Hmat1 & Hout).
    destruct (IH _ _ _ Hrest) as (Hev2 & Hmat2 & Houts).
    split; [by eapply evolves_trans|].
    split; [by eapply matures_trans|]. constructor; [done|].
    eapply Forall2_impl; [exact Houts|].
    intros [[l m] d'] o (message & Hget & Hr). simpl in *.
    destruct (evolves_back _ _ _ _ _ Hev1 Hget) as [message0 Hget0].
    destruct (evolves_messages _ _ Hev1 _ _ _ Hget0)
      as (message1 & Hget1 & HD & HC).
    exists message0. split; [done|].
    assert (message1 = message) as -> by congruence.
    rewrite <- Hr. unfold rendered. by rewrite HD, HC.
Qed.

End Evolution.

(** ** Concurrent callers *)

Section ConcurrentFacts.
Context `{TemplateEngine}.

Lemma step_cases (i : nat) (w w' : World) :
  step i w = Some w' → exited w = None ∧ stepCase i w w'.
Proof.
  unfold step. destruct (exited w) eqn:Hrun; [done|].
  destruct (callers w !! i) as [[l m d|l m d|l m d|l m d err|l m d|l m d out]|]
    eqn:Hi; [| | | | |done|done].
  - destruct (catalog w !! l) as [localizer|] eqn:Hl.
    + destruct (localizer !! m) as [message|] eqn:Hm.
      * assert (getMessage (catalog w) l m = Some message) as Hget
          by (apply getMessage_Some; eauto).
        destruct (Contains (Data message) leftDelim) eqn:Hfast; simpl;
          intros [= <-]; (split; [done|]).
        -- by eapply step_slow.
        -- by eapply step_fast.
      * intros [= <-]. split; [done|]. eapply step_no_message; [done|by eauto|].
        unfold getMessage. by rewrite Hl.
    + intros [= <-]. split; [done|]. by eapply step_no_localizer.
  - destruct (getMessage (catalog w) l m) as [message|] eqn:Hget; [|done].
    destruct (parseOnce message) eqn:Honce.
    + intros [= <-]. split; [done|]. by eapply step_done.
    + destruct (decide ((l, m) ∈ locks w)); [done|].
      intros [= <-]. split; [done|]. by eapply step_enter.
  - destruct (getMessage (catalog w) l m) as [message|] eqn:Hget; [|done].
    intros [= <-]. split; [done|]. by eapply step_parse.
  - destruct (getMessage (catalog w) l m) as [message|] eqn:Hget; [|done].
    destruct err; intros [= <-]; (split; [done|]).
    + by eapply step_failed.
    + by eapply step_compiled.
  - destruct (getMessage (catalog w) l m) as [message|] eqn:Hget; [|done].
    destruct (parsedTemplate message) as [t|] eqn:Ht.
    + destruct (Execute t d) as [buf|] eqn:Hexec; intros [= <-];
        (split; [done|]).
      * by eapply step_executed.
      * by eapply step_execute_failed.
    + intros [= <-]. split; [done|]. by eapply step_nil_template.
Qed.

(** The message a catalog that evolved from [c0] holds comes from [c0]. *)
Lemma evolves_origin (c0 c : Catalog) (l m : string) (message : Message) :
  evolves c0 c → getMessage c l m = Some message →
  ∃ message0, getMessage c0 l m = Some message0 ∧
    Data message = Data message0 ∧ compiled message = compiled message0.
Proof.
  intros Hev Hget. destruct (evolves_back _ _ _ _ _ Hev Hget) as [message0 Hget0].
  destruct (evolves_messages _ _ Hev _ _ _ Hget0) as (message' & Hget' & HD & HC).
  exists message0. by replace message with message' by congruence.
Qed.

Lemma Inv_exit (c0 : Catalog) (w : World) (f : Fatal) :
  Inv c0 w → Inv c0 (exitWith w f).
Proof. intros [Hc Hm Ho Hp Hn He]. by split. Qed.

Lemma inOnce_key (t : Caller) (l m l' m' : string) :
  inOnce t l m → inOnce t l' m' → l' = l ∧ m' = m.
Proof.
  destruct t; simpl; try (by intros []); intros [? ?] [? ?]; by subst.
Qed.

(** A caller outside the [Once] of the message [(l, m)] is not affected
    by a step that writes only to that message, keeps its raw content
    and a set flag, and touches only its lock and its entry in the log. *)
Lemma callerOk_frame (c0 : Catalog) (w w' : World) (t : Caller) (l m : string) :
  callerOk c0 w t →
  ¬ inOnce t l m →
  (∀ k, k ∈ locks w → k ≠ (l, m) → k ∈ locks w') →
  (∀ k, k ∈ parses w' → k ≠ (l, m) → k ∈ parses w) →
  (∀ k, k ∈ parses w → k ∈ parses w') →
  (∀ l' m' message, getMessage (catalog w) l' m' = Some message →
     ∃ message', getMessage (catalog w') l' m' = Some message' ∧
       Data message' = Data message ∧
       (parseOnce message = true → parseOnce message' = true) ∧
       ((l', m') ≠ (l, m) → message' = message)) →
  callerOk c0 w' t.
Proof.
  intros Hok Hout Hlocks Hparses Hparses' Hcat.
  destruct t as [l' m' d|l' m' d|l' m' d|l' m' d err|l' m' d|l' m' d out];
    simpl in *; [done| | | | |done].
  - destruct Hok as (message & Hget & Hdelim).
    destruct (Hcat _ _ _ Hget) as (message' & Hget' & HD & _).
    exists message'. by rewrite HD.
  - destruct Hok as (Hlock & Hnew & message & Hget & Hdelim & Honce).
    assert ((l', m') ≠ (l, m)) as Hne by (intros [= -> ->]; by apply Hout).
    destruct (Hcat _ _ _ Hget) as (message' & Hget' & _ & _ & Hsame).
    rewrite (Hsame Hne) in Hget'.
    split; [by apply Hlocks|]. split; [|by exists message].
    intros Hin. apply Hnew. by apply Hparses.
  - destruct Hok as (Hlock & Hlog & message & Hget & Hrest).
    assert ((l', m') ≠ (l, m)) as Hne by (intros [= -> ->]; by apply Hout).
    destruct (Hcat _ _ _ Hget) as (message' & Hget' & _ & _ & Hsame).
    rewrite (Hsame Hne) in Hget'.
    split; [by apply Hlocks|]. split; [by apply Hparses'|by exists message].
  - destruct Hok as (message & Hget & Hdelim & Honce).
    destruct (Hcat _ _ _ Hget) as (message' & Hget' & HD & Hflag & _).
    exists message'. rewrite HD. by auto.
Qed.

(** The catalog after a write to the message [(l, m)]. *)
Lemma setMessage_frame (c : Catalog) (l m : string) (message new : Message) :
  getMessage c l m = Some message →
  Data new = Data message →
  (parseOnce message = true → parseOnce new = true) →
  ∀ l' m' old, getMessage c l' m' = Some old →
    ∃ message', getMessage (setMessage c l m new) l' m' = Some message' ∧
      Data message' = Data old ∧
      (parseOnce old = true → parseOnce message' = true) ∧
      ((l', m') ≠ (l, m) → message' = old).
Proof.
  intros Hget HD Hflag l' m' old Hold.
  rewrite getMessage_setMessage; [|by eauto].
  destruct (decide (l' = l ∧ m' = m)) as [[-> ->]|Hne].
  - exists new. assert (old = message) as -> by congruence.
    split; [done|]. split; [done|]. split; [done|]. by intros [].
  - by exists old.
Qed.

Lemma Inv_setCaller (c0 : Catalog) (w : World) (i : nat) (t t' : Caller) :
  Inv c0 w → callers w !! i = Some t →
  (∀ l m, ¬ inOnce t l m) → (∀ l m, ¬ inOnce t' l m) →
  callerOk c0 w t' →
  Inv c0 (setCaller w i t').
Proof.
  intros [Hc Hm Ho Hp Hn He] Hi Hout Hout' Hok. split; simpl; try done.
  - intros j tj [(-> & <- & _)|[Hne Hj]]%list_lookup_insert_Some; [done|].
    by apply (Hc j).
  - intros j k tj tk l m
      [(-> & <- & _)|[Hnj Hj]]%list_lookup_insert_Some
      [(-> & <- & _)|[Hnk Hk]]%list_lookup_insert_Some Hinj Hink;
      try done; try (by apply Hout' in Hinj); try (by apply Hout' in Hink).
    by eapply Hm.
  - intros l m Hlock. destruct (Ho l m Hlock) as (j & tj & Hj & Hinj).
    exists j, tj. split; [|done]. rewrite list_lookup_insert_ne; [done|].
    intros ->. assert (tj = t) as -> by congruence. by apply Hout in Hinj.
Qed.

(** Every step keeps the invariant. *)
Lemma step_Inv (c0 : Catalog) (i : nat) (w w' : World) :
  Inv c0 w → step i w = Some w' → Inv c0 w'.
Proof.
  intros HInv [Hrun Hcase]%step_cases.
  pose proof HInv as [Hc Hm Ho Hp Hn He].
  destruct Hcase as
    [l m d Hi Hl | l m d Hi Hl Hget | l m d message Hi Hget Hfast
    |l m d message Hi Hget Hslow | l m d message Hi Hget Honce
    |l m d message Hi Hget Honce Hfree | l m d message Hi Hget
    |l m d message Hi Hget | l m d message Hi Hget
    |l m d message Hi Hget Hnil | l m d message t Hi Hget Ht Hexec
    |l m d message t buf Hi Hget Ht Hexec];
    try (by apply Inv_exit).
  - (* fast path *)
    eapply Inv_setCaller; [done|done|by intros ?? []|by intros ?? []|].
    simpl. destruct (evolves_origin _ _ _ _ _ He Hget) as (m0 & Hget0 & HD & HC).
    exists m0. split; [done|]. unfold rendered. by rewrite <- HD, Hfast.
  - (* slow path *)
    eapply Inv_setCaller; [done|done|by intros ?? []|by intros ?? []|].
    simpl. by exists message.
  - (* the flag is set *)
    eapply Inv_setCaller; [done|done|by intros ?? []|by intros ?? []|].
    simpl. destruct (Hc i _ Hi) as (message' & Hget' & Hdelim).
    assert (message' = message) as -> by congruence. by exists message.
  - (* the caller enters the closure *)
    destruct (Hc i _ Hi) as (message' & Hget' & Hdelim).
    assert (message' = message) as -> by congruence.
    assert (∀ j tj, callers w !! j = Some tj → ¬ inOnce tj l m) as Hnone.
    { intros j tj Hj Hin. apply Hfree. specialize (Hc j tj Hj).
      destruct tj; simpl in *; try done;
        destruct Hin as [-> ->]; by destruct Hc. }
    split; simpl.
    + intros j tj [(-> & <- & _)|[Hne Hj]]%list_lookup_insert_Some.
      * simpl. split; [set_solver|]. split; [|by exists message].
        intros Hin. destruct (Hp l m Hin) as [?|(m' & Hm' & Hflag)]; [done|].
        congruence.
      * eapply (callerOk_frame c0 w _ tj l m); simpl;
          [by apply (Hc j)|by eapply Hnone|set_solver|done|done|].
        intros l' m' old Hold. by exists old.
    + intros j k tj tk l' m'
        [(-> & <- & _)|[Hnj Hj]]%list_lookup_insert_Some
        [(-> & <- & _)|[Hnk Hk]]%list_lookup_insert_Some Hinj Hink;
        try done.
      * destruct Hinj as [<- <-]. by apply Hnone in Hk.
      * destruct Hink as [<- <-]. by apply Hnone in Hj.
      * by eapply Hm.
    + intros l' m' [Hnew|Hold]%elem_of_union.
      * apply elem_of_singleton in Hnew as [= -> ->].
        exists i, (AtParse l m d). split; [|done].
        apply list_lookup_insert_eq. by eapply lookup_lt_Some.
      * destruct (Ho l' m' Hold) as (j & tj & Hj & Hinj).
        exists j, tj. split; [|done]. rewrite list_lookup_insert_ne; [done|].
        intros ->. assert (tj = AtOnce l m d) as -> by congruence. done.
    + intros l' m' Hin. destruct (Hp l' m' Hin) as [?|?]; [left; set_solver|by right].
    + done.
    + done.
  - (* the closure calls Parse *)
    destruct (Hc i _ Hi) as (Hlock & Hnew & message' & Hget' & Hdelim & Honce).
    assert (message' = message) as -> by congruence.
    set (new := mkMessage (Data message) (parseOnce message) (Parse (Data message))).
    pose proof (setMessage_frame (catalog w) l m message new Hget eq_refl
                  (λ Hflag, Hflag)) as Hframe.
    assert (getMessage (setMessage (catalog w) l m new) l m = Some new) as Hnewget.
    { rewrite getMessage_setMessage; [|by eauto]. by rewrite decide_True. }
    split; simpl.
    + intros j tj [(-> & <- & _)|[Hne Hj]]%list_lookup_insert_Some.
      * simpl. split; [done|]. split; [by left|]. exists new.
        split; [done|]. split; [done|]. by split.
      * eapply (callerOk_frame c0 w _ tj l m); simpl;
          [by apply (Hc j)| | done | | |done].
        -- intros Hin. apply Hne. by apply (Hm i j _ _ l m Hi Hj).
        -- intros k [->|Hk]%elem_of_cons Hk'; done.
        -- intros k Hk. by right.
    + intros j k tj tk l' m'
        [(-> & <- & _)|[Hnj Hj]]%list_lookup_insert_Some
        [(-> & <- & _)|[Hnk Hk]]%list_lookup_insert_Some Hinj Hink;
        try done.
      * by apply (Hm j k (AtParse l m d) tk l' m').
      * by apply (Hm j k tj (AtParse l m d) l' m').
      * by eapply Hm.
    + intros l' m' Hin. destruct (Ho l' m' Hin) as (j & tj & Hj & Hinj).
      destruct (decide (j = i)) as [->|Hne].
      * assert (tj = AtParse l m d) as -> by congruence.
        eexists i, _.
        split; [apply list_lookup_insert_eq; by eapply lookup_lt_Some|].
        exact Hinj.
      * exists j, tj. split; [|done]. by rewrite list_lookup_insert_ne.
    + intros l' m' [[= -> ->]|Hin]%elem_of_cons; [by left|].
      destruct (Hp l' m' Hin) as [?|(old & Hold & Hflag)]; [by left|].
      right. destruct (Hframe _ _ _ Hold) as (message' & Hget'' & _ & Hkeep & _).
      exists message'. by auto.
    + by apply NoDup_cons.
    + eapply evolves_trans; [exact He|].
      eapply evolves_setMessage; [done|done|].
      unfold compiled. simpl. by rewrite Honce.
  - (* the closure returns and the flag is set *)
    destruct (Hc i _ Hi) as
      (Hlock & Hlog & message' & Hget' & Hdelim & Honce & Hstored & Herr).
    assert (message' = message) as -> by congruence.
    set (new := mkMessage (Data message) true (parsedTemplate message)).
    pose proof (setMessage_frame (catalog w) l m message new Hget eq_refl
                  (λ _, eq_refl)) as Hframe.
    assert (getMessage (setMessage (catalog w) l m new) l m = Some new) as Hnewget.
    { rewrite getMessage_setMessage; [|by eauto]. by rewrite decide_True. }
    split; simpl.
    + intros j tj [(-> & <- & _)|[Hne Hj]]%list_lookup_insert_Some.
      * simpl. by exists new.
      * eapply (callerOk_frame c0 w _ tj l m); simpl;
          [by apply (Hc j)| | | done | done |done].
        -- intros Hin. apply Hne. by apply (Hm i j _ _ l m Hi Hj).
        -- intros k Hk Hk'. set_solver.
    + intros j k tj tk l' m'
        [(-> & <- & _)|[Hnj Hj]]%list_lookup_insert_Some
        [(-> & <- & _)|[Hnk Hk]]%list_lookup_insert_Some Hinj Hink;
        try done.
      by eapply Hm.
    + intros l' m' [Hin Hne]%elem_of_difference.
      destruct (Ho l' m' Hin) as (j & tj & Hj & Hinj).
      exists j, tj. split; [|done]. rewrite list_lookup_insert_ne; [done|].
      intros ->. assert (tj = AtCheck l m d false) as -> by congruence.
      destruct Hinj as [-> ->]. set_solver.
    + intros l' m' Hin.
      destruct (decide ((l', m') = (l, m))) as [[= -> ->]|Hne].
      { right. by exists new. }
      destruct (Hp l' m' Hin) as [?|(old & Hold & Hflag)]; [left; set_solver|].
      right. destruct (Hframe _ _ _ Hold) as (message' & Hget'' & _ & Hkeep & _).
      exists message'. by auto.
    + done.
    + eapply evolves_trans; [exact He|].
      eapply evolves_setMessage; [done|done|].
      unfold compiled. simpl. by rewrite Honce.
  - (* the template is executed *)
    eapply Inv_setCaller; [done|done|by intros ?? []|by intros ?? []|].
    simpl. destruct (Hc i _ Hi) as (message' & Hget' & Hdelim & Honce).
    assert (message' = message) as -> by congruence.
    destruct (evolves_origin _ _ _ _ _ He Hget) as (m0 & Hget0 & HD & HC).
    exists m0. split; [done|]. unfold rendered.
    rewrite <- HD, Hdelim, <- HC. unfold compiled. rewrite Honce, Ht. done.
Qed.

Lemma Inv_start (c : Catalog)
    (calls : list (string * string * option (gmap string Value))) :
  Inv c (start c calls).
Proof.
  assert (∀ i t, callers (start c calls) !! i = Some t →
            ∃ l m d, t = AtEntry l m d) as Hentry.
  { intros i t Hi. simpl in Hi. rewrite list_lookup_fmap in Hi.
    destruct (calls !! i) as [[[l m] d]|]; [|done].
    injection Hi as <-. by eauto. }
  split; simpl.
  - intros i t (l & m & d & ->)%Hentry. done.
  - intros i j ti tj l m (? & ? & ? & ->)%Hentry. done.
  - intros l m Hin. by apply elem_of_empty in Hin.
  - intros l m Hin. by apply elem_of_nil in Hin.
  - constructor.
  - apply evolves_refl.
Qed.

Lemma run_Inv (c0 : Catalog) (schedule : list nat) :
  ∀ w, Inv c0 w → Inv c0 (run schedule w).
Proof.
  induction schedule as [|i schedule IH]; intros w HInv; [done|].
  simpl. apply IH. destruct (step i w) as [w'|] eqn:Hstep; [|done].
  by eapply step_Inv.
Qed.

(** A process that has ended stays as it is. *)
Lemma run_exited (schedule : list nat) (w : World) :
  is_Some (exited w) → run schedule w = w.
Proof.
  intros [f Hf]. induction schedule as [|i schedule IH]; [done|].
  simpl. unfold step. by rewrite Hf.
Qed.

Lemma slot_Some (w : World) (l m : string) (s : Slot) :
  slot w l m = Some s →
  ∃ message, getMessage (catalog w) l m = Some message ∧
    s = if failedOn (exited w) l m then CompileFailed
        else if parseOnce message then Compiled
        else if decide ((l, m) ∈ locks w) then Compiling
        else Uncompiled.
Proof.
  unfold slot. destruct (getMessage (catalog w) l m) as [message|]; [|done].
  simpl. intros [= <-]. by exists message.
Qed.

Lemma slot_exit (w : World) (f : Fatal) (l m : string) :
  exited w = None → failedOn (Some f) l m = false →
  slot (exitWith w f) l m = slot w l m.
Proof.
  intros Hrun Hf. unfold slot, exitWith. cbn [catalog exited locks].
  by rewrite Hrun, Hf.
Qed.

(** A step moves the slot of a message along an edge of its state
    machine, or leaves it. *)
Lemma step_slot (c0 : Catalog) (i : nat) (w w' : World) (l m : string) (s : Slot) :
  Inv c0 w → step i w = Some w' → slot w l m = Some s →
  ∃ s', slot w' l m = Some s' ∧ (s' = s ∨ slotEdge s s').
Proof.
  intros HInv [Hrun Hcase]%step_cases Hslot.
  pose proof HInv as [Hc _ _ _ _ _].
  assert (∀ f, failedOn (Some f) l m = false →
            ∃ s', slot (exitWith w f) l m = Some s' ∧ (s' = s ∨ slotEdge s s'))
    as Hexit.
  { intros f Hf. exists s. rewrite slot_exit; [|done..]. by auto. }
  assert (∀ t, ∃ s', slot (setCaller w i t) l m = Some s' ∧
                       (s' = s ∨ slotEdge s s')) as Hcaller.
  { intros t. exists s. split; [exact Hslot|by left]. }
  destruct Hcase as
    [l0 m0 d Hi Hl | l0 m0 d Hi Hl Hget | l0 m0 d message Hi Hget Hfast
    |l0 m0 d message Hi Hget Hslow | l0 m0 d message Hi Hget Honce
    |l0 m0 d message Hi Hget Honce Hfree | l0 m0 d message Hi Hget
    |l0 m0 d message Hi Hget | l0 m0 d message Hi Hget
    |l0 m0 d message Hi Hget Hnil | l0 m0 d message t Hi Hget Ht Hexec
    |l0 m0 d message t buf Hi Hget Ht Hexec];
    try (by apply Hexit); try (by apply Hcaller).
  - (* enter *)
    apply slot_Some in Hslot as (old & Hold & ->). rewrite Hrun. simpl.
    unfold slot. simpl. rewrite Hold. simpl. eexists. split; [done|].
    destruct (parseOnce old) eqn:Hflag; [by left|].
    destruct (decide ((l, m) = (l0, m0))) as [[= -> ->]|Hne].
    + rewrite decide_True.
      * rewrite decide_False by done. right. constructor.
      * apply elem_of_union. left. by apply elem_of_singleton.
    + destruct (decide ((l, m) ∈ locks w)).
      * rewrite decide_True; [by left|]. apply elem_of_union. by right.
      * rewrite decide_False; [by left|].
        intros [[= -> ->]%elem_of_singleton|?]%elem_of_union; done.
  - (* parse *)
    apply slot_Some in Hslot as (old & Hold & ->). rewrite Hrun. simpl.
    unfold slot. simpl.
    rewrite getMessage_setMessage; [|by eauto].
    destruct (decide (l = l0 ∧ m = m0)) as [[-> ->]|Hne]; simpl.
    + assert (old = message) as -> by congruence. eexists. split; [done|].
      by left.
    + rewrite Hold. simpl. eexists. split; [done|]. by left.
  - (* compile failure *)
    destruct (Hc i _ Hi) as (Hlock & _ & message' & Hget' & _ & Honce & _).
    assert (message' = message) as -> by congruence.
    apply slot_Some in Hslot as (old & Hold & ->). rewrite Hrun. simpl.
    unfold slot. simpl. rewrite Hold. simpl. eexists. split; [done|].
    destruct (bool_decide (l0 = l ∧ m0 = m)) eqn:Hkey; [|by left].
    apply bool_decide_eq_true in Hkey as [-> ->].
    assert (old = message) as -> by congruence.
    rewrite Honce. rewrite decide_True by done. right. constructor.
  - (* compile success *)
    destruct (Hc i _ Hi) as (Hlock & _ & message' & Hget' & _ & Honce & _).
    assert (message' = message) as -> by congruence.
    apply slot_Some in Hslot as (old & Hold & ->). rewrite Hrun. simpl.
    unfold slot. simpl.
    rewrite getMessage_setMessage; [|by eauto].
    destruct (decide (l = l0 ∧ m = m0)) as [[-> ->]|Hne]; simpl.
    + assert (old = message) as -> by congruence. eexists. split; [done|].
      rewrite Honce. rewrite decide_True by done. right. constructor.
    + rewrite Hold. simpl. eexists. split; [done|].
      destruct (parseOnce old); [by left|].
      destruct (decide ((l, m) ∈ locks w)).
      * rewrite decide_True; [by left|].
        apply elem_of_difference. split; [done|].
        intros [= -> ->]%elem_of_singleton. by apply Hne.
      * rewrite decide_False; [by left|].
        by intros [? _]%elem_of_difference.
Qed.

(** A run moves the slot along a path of the state machine. *)
Lemma run_slot (c0 : Catalog) (schedule : list nat) (l m : string) :
  ∀ (w : World) (s : Slot),
    Inv c0 w → slot w l m = Some s →
    ∃ s', slot (run schedule w) l m = Some s' ∧ rtc slotEdge s s'.
Proof.
  induction schedule as [|i schedule IH]; intros w s HInv Hslot.
  - exists s. by split.
  - simpl. destruct (step i w) as [w'|] eqn:Hstep; simpl; [|by apply IH].
    destruct (step_slot c0 i w w' l m s HInv Hstep Hslot) as (s1 & Hs1 & Hedge).
    destruct (IH w' s1 (step_Inv _ _ _ _ HInv Hstep) Hs1) as (s2 & Hs2 & Hpath).
    exists s2. split; [done|].
    destruct Hedge as [->|Hedge]; [done|]. by eapply rtc_l.
Qed.

Lemma slot_terminal (s s' : Slot) :
  s = Compiled ∨ s = CompileFailed → rtc slotEdge s s' → s' = s.
Proof.
  intros Hend Hpath. destruct Hpath as [|s s1 s' Hedge _]; [done|].
  destruct Hend as [->| ->]; inversion Hedge.
Qed.

(** A step keeps every template that is stored. *)
Lemma step_template (c0 : Catalog) (i : nat) (w w' : World) :
  Inv c0 w → slotsSettled w → step i w = Some w' →
  slotsSettled w' ∧
  ∀ l m message, getMessage (catalog w) l m = Some message →
    is_Some (parsedTemplate message) →
    ∃ message', getMessage (catalog w') l m = Some message' ∧
      parsedTemplate message' = parsedTemplate message.
Proof.
  intros HInv Hset [Hrun Hcase]%step_cases.
  pose proof HInv as [Hc _ _ _ _ _].
  assert (∀ w1 : World, catalog w1 = catalog w → parses w1 = parses w →
            slotsSettled w1 ∧
            ∀ l m message, getMessage (catalog w) l m = Some message →
              is_Some (parsedTemplate message) →
              ∃ message', getMessage (catalog w1) l m = Some message' ∧
                parsedTemplate message' = parsedTemplate message) as Hsame.
  { intros w1 Hcat Hlog. split.
    - intros l m message. rewrite Hcat, Hlog. apply Hset.
    - intros l m message Hget _. rewrite Hcat. by exists message. }
  destruct Hcase as
    [l0 m0 d Hi Hl | l0 m0 d Hi Hl Hget | l0 m0 d message Hi Hget Hfast
    |l0 m0 d message Hi Hget Hslow | l0 m0 d message Hi Hget Honce
    |l0 m0 d message Hi Hget Honce Hfree | l0 m0 d message Hi Hget
    |l0 m0 d message Hi Hget | l0 m0 d message Hi Hget
    |l0 m0 d message Hi Hget Hnil | l0 m0 d message t Hi Hget Ht Hexec
    |l0 m0 d message t buf Hi Hget Ht Hexec];
    try (by apply Hsame).
  - (* parse *)
    destruct (Hc i _ Hi) as (_ & Hnew & message' & Hget' & _ & Honce).
    assert (message' = message) as -> by congruence.
    assert (parsedTemplate message = None) as Hnone.
    { destruct (parsedTemplate message) as [t|] eqn:Ht; [|done].
      destruct (Hset l0 m0 message Hget) as [?|?]; [by eauto|congruence|done]. }
    split.
    + intros l m old. simpl. rewrite getMessage_setMessage; [|by eauto].
      destruct (decide (l = l0 ∧ m = m0)) as [[-> ->]|Hne].
      * intros _ _. right. by left.
      * intros Hold Hsome. destruct (Hset l m old Hold Hsome); [by left|].
        right. by right.
    + intros l m old Hold Hsome. simpl.
      rewrite getMessage_setMessage; [|by eauto].
      destruct (decide (l = l0 ∧ m = m0)) as [[-> ->]|Hne]; [|by exists old].
      assert (old = message) as -> by congruence.
      rewrite Hnone in Hsome. by destruct Hsome.
  - (* compile success *)
    split.
    + intros l m old. simpl. rewrite getMessage_setMessage; [|by eauto].
      destruct (decide (l = l0 ∧ m = m0)) as [[-> ->]|Hne].
      * intros [= <-] _. by left.
      * apply Hset.
    + intros l m old Hold Hsome. simpl.
      rewrite getMessage_setMessage; [|by eauto].
      destruct (decide (l = l0 ∧ m = m0)) as [[-> ->]|Hne]; [|by exists old].
      assert (old = message) as -> by congruence. by eexists.
Qed.

Lemma run_template (c0 : Catalog) (schedule : list nat) :
  ∀ w, Inv c0 w → slotsSettled w →
    slotsSettled (run schedule w) ∧
    ∀ l m message, getMessage (catalog w) l m = Some message →
      is_Some (parsedTemplate message) →
      ∃ message', getMessage (catalog (run schedule w)) l m = Some message' ∧
        parsedTemplate message' = parsedTemplate message.
Proof.
  induction schedule as [|i schedule IH]; intros w HInv Hset.
  - split; [done|]. intros l m message Hget _. by exists message.
  - simpl. destruct (step i w) as [w'|] eqn:Hstep; simpl; [|by apply IH].
    destruct (step_template c0 i w w' HInv Hset Hstep) as [Hset' Hkeep].
    destruct (IH w' (step_Inv _ _ _ _ HInv Hstep) Hset') as [Hset'' Hkeep'].
    split; [done|]. intros l m message Hget Hsome.
    destruct (Hkeep l m message Hget Hsome) as (m1 & Hget1 & Hp1).
    destruct (Hkeep' l m m1 Hget1) as (m2 & Hget2 & Hp2); [by rewrite Hp1|].
    exists m2. split; [done|congruence].
Qed.

Lemma start_settled (c : Catalog)
    (calls : list (string * string * option (gmap string Value))) :
  (∀ l m message, getMessage c l m = Some message → wellFormed message) →
  slotsSettled (start c calls).
Proof.
  intros Hwf l m message Hget Hsome. left.
  destruct (Hwf l m message Hget) as [_ Hslot].
  destruct (parseOnce message); [done|].
  rewrite Hslot in Hsome. by destruct Hsome.
Qed.

Lemma run_step (i : nat) (schedule : list nat) (w w' : World) :
  step i w = Some w' → run (i :: schedule) w = run schedule w'.
Proof. intros Hstep. simpl. by rewrite Hstep. Qed.

(** A lone caller that runs to the end does what [Translate] does. *)
Lemma lone_caller (c : Catalog) (l m : string) (d : option (gmap string Value)) :
  let w := run [0; 0; 0; 0; 0] (start c [(l, m, d)]) in
  match Translate l m d c with
  | Ret out c' =>
      callers w = [Returned l m d out] ∧ catalog w = c' ∧ exited w = None
  | Exit f => exited w = Some f
  end.
Proof.
  cbv zeta. set (w0 := start c [(l, m, d)]).
  assert (∀ f (w1 : World) schedule, exited w1 = Some f →
            exited (run schedule w1) = Some f) as Hend.
  { intros f w1 schedule Hf. rewrite run_exited; [done|by eauto]. }
  assert (∀ out (w1 : World) schedule,
            exited w1 = None → callers w1 = [Returned l m d out] →
            callers (run schedule w1) = [Returned l m d out] ∧
            catalog (run schedule w1) = catalog w1 ∧
            exited (run schedule w1) = None) as Hret.
  { intros out w1 schedule Hrun Hcall.
    induction schedule as [|[|k] schedule IH]; [done|..]; simpl;
      unfold step; rewrite Hrun, Hcall; simpl; exact IH. }
  destruct (c !! l) as [localizer|] eqn:Hl.
  2:{ unfold Translate, bind, getCatalog, fatalf. rewrite Hl.
      rewrite (run_step 0 _ w0 (exitWith w0 (FatalNoLocalizer l))).
      - by apply Hend.
      - unfold step. simpl. by rewrite Hl. }
  destruct (localizer !! m) as [message|] eqn:Hm.
  2:{ unfold Translate, bind, getCatalog, fatalf. rewrite Hl, Hm.
      rewrite (run_step 0 _ w0 (exitWith w0 (FatalNoMessage m l))).
      - by apply Hend.
      - unfold step. simpl. by rewrite Hl, Hm. }
  assert (getMessage c l m = Some message) as Hget
    by (apply getMessage_Some; eauto).
  rewrite (Translate_found c l m d message Hget). unfold compiled.
  destruct (Contains (Data message) leftDelim) eqn:Hslow; cbn [negb].
  2:{ rewrite (run_step 0 _ w0 (setCaller w0 0 (Returned l m d (Data message)))).
      - by apply Hret.
      - unfold step. simpl. by rewrite Hl, Hm, Hslow. }
  set (w1 := setCaller w0 0 (AtOnce l m d)).
  rewrite (run_step 0 _ w0 w1)
    by (unfold step; simpl; by rewrite Hl, Hm, Hslow).
  destruct (parseOnce message) eqn:Honce.
  - set (w2 := setCaller w1 0 (AtExecute l m d)).
    rewrite (run_step 0 _ w1 w2)
      by (unfold step; simpl; by rewrite Hget, Honce).
    destruct (parsedTemplate message) as [t|] eqn:Ht.
    + destruct (Execute t d) as [buf|] eqn:Hexec.
      * rewrite (run_step 0 _ w2 (setCaller w2 0 (Returned l m d buf))).
        -- by apply Hret.
        -- unfold step. simpl. by rewrite Hget, Ht, Hexec.
      * rewrite (run_step 0 _ w2
                   (exitWith w2 (FatalExecute m l (Data message) d))).
        -- by apply Hend.
        -- unfold step. simpl. by rewrite Hget, Ht, Hexec.
    + rewrite (run_step 0 _ w2 (exitWith w2 PanicNilTemplate)).
      * by apply Hend.
      * unfold step. simpl. by rewrite Hget, Ht.
  - set (w2 := mkWorld c ({[(l, m)]} ∪ ∅) [AtParse l m d] [] None).
    rewrite (run_step 0 _ w1 w2).
    2:{ unfold step. simpl. rewrite Hget, Honce.
        rewrite decide_False; [done|].
        intros Hin. by apply elem_of_empty in Hin. }
    set (stored := mkMessage (Data message) false (Parse (Data message))).
    set (w3 := mkWorld (setMessage c l m stored) ({[(l, m)]} ∪ ∅)
                 [AtCheck l m d (negb (bool_decide (is_Some (Parse (Data message)))))]
                 [(l, m)] None).
    rewrite (run_step 0 _ w2 w3)
      by (unfold step; simpl; by rewrite Hget, Honce).
    assert (getMessage (setMessage c l m stored) l m = Some stored) as Hget1.
    { rewrite getMessage_setMessage; [|by eauto]. by rewrite decide_True. }
    destruct (Parse (Data message)) as [t|] eqn:Hparse.
    2:{ rewrite (run_step 0 _ w3 (exitWith w3 (FatalParse m l (Data message)))).
        - by apply Hend.
        - unfold step. simpl. by rewrite Hget1. }
    set (final := mkMessage (Data message) true (Some t)).
    assert (setMessage (setMessage c l m stored) l m final
            = setMessage c l m final) as Hset.
    { unfold setMessage. rewrite alter_alter_eq. apply alter_ext.
      intros t0 _. simpl. apply insert_insert_eq. }
    set (w4 := mkWorld (setMessage (setMessage c l m stored) l m final)
                 (({[(l, m)]} ∪ ∅) ∖ {[(l, m)]})
                 [AtExecute l m d] [(l, m)] None).
    rewrite (run_step 0 _ w3 w4)
      by (unfold step; simpl; by rewrite Hget1).
    assert (getMessage (setMessage (setMessage c l m stored) l m final) l m
            = Some final) as Hget4.
    { rewrite Hset. rewrite getMessage_setMessage; [|by eauto].
      by rewrite decide_True. }
    destruct (Execute t d) as [buf|] eqn:Hexec.
    + rewrite (run_step 0 _ w4 (setCaller w4 0 (Returned l m d buf))).
      * rewrite <- Hset. by apply Hret.
      * unfold step. simpl. rewrite Hget4. simpl. by rewrite Hexec.
    + rewrite (run_step 0 _ w4 (exitWith w4 (FatalExecute m l (Data message) d))).
      * by apply Hend.
      * unfold step. simpl. rewrite Hget4. simpl. by rewrite Hexec.
Qed.

End ConcurrentFacts.

Section ConcurrentTheorems.
Context `{TemplateEngine}.

(** C3. In every process of concurrent callers, at every point of every
    schedule: [Parse] is called at most once per message; each step moves
    the slot of a message along Uncompiled → Compiling → Compiled or
    Compiling → CompileFailed, or leaves it, so that no run leaves
    Compiled or CompileFailed; the first caller to reach the [Once] of an
    uncompiled message starts its one compilation; and once a compilation
    has failed the process has ended: no caller moves, nothing is
    compiled again, and for a lone caller every call after the failed one
    fails with it. *)
Theorem slot_state_machine (c0 : Catalog)
    (calls : list (string * string * option (gmap string Value)))
    (schedule : list nat) :
  let w := run schedule (start c0 calls) in
  NoDup (parses w) ∧
  (∀ i w' l m s, step i w = Some w' → slot w l m = Some s →
     ∃ s', slot w' l m = Some s' ∧ (s' = s ∨ slotEdge s s')) ∧
  (∀ later l m s, slot w l m = Some s →
     ∃ s', slot (run later w) l m = Some s' ∧ rtc slotEdge s s' ∧
       (s = Compiled ∨ s = CompileFailed → s' = s)) ∧
  (∀ i l m d, exited w = None → callers w !! i = Some (AtOnce l m d) →
     slot w l m = Some Uncompiled →
     ∃ w', step i w = Some w' ∧ slot w' l m = Some Compiling ∧
       callers w' !! i = Some (AtParse l m d)) ∧
  (∀ l m, slot w l m = Some CompileFailed →
     (∀ i, step i w = None) ∧ ∀ later, run later w = w) ∧
  (∀ c l m d f rest, Translate l m d c = Exit f →
     translateAll ((l, m, d) :: rest) c = Exit f).
Proof.
  intros w.
  assert (Inv c0 w) as HInv by (apply run_Inv, Inv_start).
  split; [by destruct HInv|]. split; [|split; [|split; [|split]]].
  - intros i w' l m s Hstep Hslot. by eapply step_slot.
  - intros later l m s Hslot.
    destruct (run_slot c0 later l m w s HInv Hslot) as (s' & Hs' & Hpath).
    exists s'. split; [done|]. split; [done|].
    intros Hend. by apply slot_terminal.
  - intros i l m d Hrun Hi Hslot.
    apply slot_Some in Hslot as (message & Hget & Hs). rewrite Hrun in Hs.
    simpl in Hs. destruct (parseOnce message) eqn:Honce; [done|].
    destruct (decide ((l, m) ∈ locks w)) as [|Hfree]; [done|].
    eexists. split.
    + unfold step. rewrite Hrun, Hi, Hget, Honce.
      by rewrite decide_False.
    + split.
      * unfold slot. simpl. rewrite Hget. simpl. rewrite Honce.
        rewrite decide_True; [done|]. apply elem_of_union. left.
        by apply elem_of_singleton.
      * simpl. apply list_lookup_insert_eq. by eapply lookup_lt_Some.
  - intros l m Hslot. apply slot_Some in Hslot as (message & _ & Hs).
    destruct (exited w) as [f|] eqn:Hf.
    2:{ simpl in Hs. destruct (parseOnce message); [done|].
        by destruct (decide ((l, m) ∈ locks w)). }
    split; [|intros later; apply run_exited; by rewrite Hf].
    intros i. unfold step. by rewrite Hf.
  - intros c l m d f rest Hfail. simpl. unfold bind. by rewrite Hfail.
Qed.

(** C8. [Translate] is a function of its arguments and of the messages
    of the catalog: a call repeated on the catalog its first run left
    returns the same string and leaves that catalog as it is; in any
    sequence of calls by one caller, and among any concurrent callers
    under any schedule, calls with the same locale, id and data that
    return, return the same string. *)
Theorem Translate_deterministic (c0 : Catalog)
    (calls : list (string * string * option (gmap string Value))) :
  (∀ l m d out c1, Translate l m d c0 = Ret out c1 →
     Translate l m d c1 = Ret out c1) ∧
  (∀ outs c' i j call oi oj,
     translateAll calls c0 = Ret outs c' →
     calls !! i = Some call → calls !! j = Some call →
     outs !! i = Some oi → outs !! j = Some oj → oi = oj) ∧
  (∀ schedule i j l m d oi oj,
     callers (run schedule (start c0 calls)) !! i = Some (Returned l m d oi) →
     callers (run schedule (start c0 calls)) !! j = Some (Returned l m d oj) →
     oi = oj).
Proof.
  split; [|split].
  - intros l m d out c1 Hrun.
    destruct (Translate_evolves _ _ _ _ _ _ Hrun)
      as (Hev & _ & message & Hget & Hout).
    destruct (evolves_messages _ _ Hev _ _ _ Hget) as (message1 & Hget1 & HD & HC).
    rewrite (Translate_found c0 l m d message Hget) in Hrun.
    rewrite (Translate_found c1 l m d message1 Hget1). rewrite HD, HC.
    destruct (negb (Contains (Data message) leftDelim));
      [by injection Hrun as <- <-|].
    destruct (compiled message) as [t|] eqn:Hc; [|done].
    destruct (Execute t d) as [buf|]; [|done]. injection Hrun as <- Hc1.
    destruct (parseOnce message) eqn:Honce.
    + subst c1. assert (message1 = message) as -> by congruence.
      by rewrite Honce.
    + rewrite <- Hc1 in Hget1.
      rewrite getMessage_setMessage in Hget1; [|by eauto].
      rewrite decide_True in Hget1 by done. by injection Hget1 as <-.
  - intros outs c' i j call oi oj Hrun Hi Hj Hoi Hoj.
    apply translateAll_evolves in Hrun as (_ & _ & Houts).
    destruct (Forall2_lookup_lr _ _ _ _ _ _ Houts Hi Hoi) as (mi & Hgi & Hri).
    destruct (Forall2_lookup_lr _ _ _ _ _ _ Houts Hj Hoj) as (mj & Hgj & Hrj).
    assert (mi = mj) as -> by congruence. congruence.
  - intros schedule i j l m d oi oj Hi Hj.
    assert (Inv c0 (run schedule (start c0 calls))) as [Hc _ _ _ _ _]
      by (apply run_Inv, Inv_start).
    destruct (Hc i _ Hi) as (mi & Hgi & Hri).
    destruct (Hc j _ Hj) as (mj & Hgj & Hrj).
    assert (mi = mj) as -> by congruence. congruence.
Qed.

End ConcurrentTheorems.

Section InvariantTheorems.
Context `{TemplateEngine} `{MapRange} `{LocaleEnv}.

(** The catalog [RegisterI18n] builds from an empty one: fresh messages
    with non-empty raw content. *)
Lemma RegisterI18n_fresh (localeDir : string) (c0 : Catalog) :
  RegisterI18n localeDir ∅ = Ret tt c0 →
  ∀ l m message, getMessage c0 l m = Some message →
    message = newMessage (Data message) ∧ Data message ≠ "".
Proof.
  unfold RegisterI18n, bind, getCatalog. intros Hrun l m message Hget.
  destruct (loadLocaleDir localeDir ∅) as [[] c|f] eqn:Hload; [|done].
  destruct (checkLanguageMap c); [done|]. injection Hrun as ->.
  unfold loadLocaleDir in Hload.
  destruct (ReadDir localeDir) as [names|]; [|done].
  pose proof (registerFiles_outcome localeDir names ∅) as Hout.
  rewrite Hload in Hout. destruct Hout as [_ Hs _ _ Hm _].
  apply Hm in Hget as [Hget|(data & Hin & ->)].
  - unfold getMessage in Hget. by rewrite lookup_empty in Hget.
  - destruct (Hs _ _ _ Hin) as (data' & [= <-] & Hne). done.
Qed.

(** C9. After a successful load every message has a non-empty raw
    content and an empty template slot. Whatever is translated then, by
    one caller or by concurrent callers under any schedule, and at any
    two successive points: the locales and the ids of each locale are
    those loaded, each message keeps its raw content, and a template
    once stored in a slot stays there unchanged. *)
Theorem catalog_invariants (localeDir : string) (c0 : Catalog) :
  RegisterI18n localeDir ∅ = Ret tt c0 →
  (∀ l m message, getMessage c0 l m = Some message →
     Data message ≠ "" ∧ parsedTemplate message = None) ∧
  (∀ calls1 outs1 c1 calls2 outs2 c2,
     translateAll calls1 c0 = Ret outs1 c1 →
     translateAll calls2 c1 = Ret outs2 c2 →
     dom c2 = dom c0 ∧
     (∀ l t0, c0 !! l = Some t0 → ∃ t2, c2 !! l = Some t2 ∧ dom t2 = dom t0) ∧
     ∀ l m message0, getMessage c0 l m = Some message0 →
       ∃ message1 message2,
         getMessage c1 l m = Some message1 ∧
         getMessage c2 l m = Some message2 ∧
         Data message1 = Data message0 ∧ Data message2 = Data message0 ∧
         (is_Some (parsedTemplate message1) →
          parsedTemplate message2 = parsedTemplate message1)) ∧
  (∀ calls schedule1 schedule2,
     let w1 := run schedule1 (start c0 calls) in
     let w2 := run schedule2 w1 in
     dom (catalog w2) = dom c0 ∧
     (∀ l t0, c0 !! l = Some t0 →
        ∃ t2, catalog w2 !! l = Some t2 ∧ dom t2 = dom t0) ∧
     ∀ l m message0, getMessage c0 l m = Some message0 →
       ∃ message1 message2,
         getMessage (catalog w1) l m = Some message1 ∧
         getMessage (catalog w2) l m = Some message2 ∧
         Data message1 = Data message0 ∧ Data message2 = Data message0 ∧
         (is_Some (parsedTemplate message1) →
          parsedTemplate message2 = parsedTemplate message1)).
Proof.
  intros Hload. pose proof (RegisterI18n_fresh localeDir c0 Hload) as Hfresh.
  assert (∀ l m message, getMessage c0 l m = Some message →
            wellFormed message) as Hwf.
  { intros l m message [-> Hne]%Hfresh. by split. }
  split; [|split].
  - intros l m message [-> Hne]%Hfresh. by split.
  - intros calls1 outs1 c1 calls2 outs2 c2 Hrun1 Hrun2.
    destruct (translateAll_evolves _ _ _ _ Hrun1) as (Hev1 & Hmat1 & _).
    destruct (translateAll_evolves _ _ _ _ Hrun2) as (Hev2 & Hmat2 & _).
    pose proof (evolves_trans _ _ _ Hev1 Hev2) as Hev.
    split; [by destruct Hev|]. split; [by destruct Hev|].
    intros l m message0 Hget0.
    destruct (evolves_messages _ _ Hev1 _ _ _ Hget0) as (m1 & Hget1 & HD1 & _).
    destruct (evolves_messages _ _ Hev2 _ _ _ Hget1) as (m2 & Hget2 & HD2 & _).
    exists m1, m2. split; [done|]. split; [done|]. split; [done|].
    split; [congruence|].
    destruct (Hmat1 _ _ _ _ Hget0 Hget1 (Hwf _ _ _ Hget0)) as [Hwf1 _].
    by destruct (Hmat2 _ _ _ _ Hget1 Hget2 Hwf1).
  - intros calls schedule1 schedule2 w1 w2.
    assert (Inv c0 w1) as HInv1 by (apply run_Inv, Inv_start).
    assert (Inv c0 w2) as HInv2 by (by apply run_Inv).
    destruct (run_template c0 schedule1 (start c0 calls))
      as [Hset1 _]; [apply Inv_start|by apply start_settled|].
    destruct (run_template c0 schedule2 w1 HInv1 Hset1) as [_ Hkeep].
    pose proof (inv_evolves _ _ HInv1) as Hev1.
    pose proof (inv_evolves _ _ HInv2) as Hev2.
    split; [by destruct Hev2|]. split; [by destruct Hev2|].
    intros l m message0 Hget0.
    destruct (evolves_messages _ _ Hev1 _ _ _ Hget0) as (m1 & Hget1 & HD1 & _).
    destruct (evolves_messages _ _ Hev2 _ _ _ Hget0) as (m2 & Hget2 & HD2 & _).
    exists m1, m2. split; [done|]. split; [done|]. split; [done|].
    split; [done|]. intros Hsome.
    destruct (Hkeep l m m1 Hget1 Hsome) as (m2' & Hget2' & Hp).
    fold w2 in Hget2'. congruence.
Qed.

End InvariantTheorems.

(** ** Rendering with the engine's fragment *)

Section MissingKey.
#[local] Existing Instance GoTemplate.engine.
#[local] Existing Instance rangeToList.
#[local] Existing Instance localeFS.

Lemma append_empty_r (s : string) : s +:+ "" = s.
Proof.
  induction s as [|a s IH]; [done|].
  change (String a (s +:+ "") = String a s). by f_equal.
Qed.

Lemma concat_cons (x : string) (xs : list string) :
  String.concat "" (x :: xs) = x +:+ String.concat "" xs.
Proof. destruct xs; simpl; [by rewrite append_empty_r | done]. Qed.

Lemma concat_app (xs ys : list string) :
  String.concat "" (xs ++ ys) = String.concat "" xs +:+ String.concat "" ys.
Proof.
  induction xs as [|x xs IH]; [done|].
  rewrite <- app_comm_cons, !concat_cons, IH. by rewrite string_app_assoc.
Qed.




End MissingKey.

(** ** The loaded example catalog at work *)

Section RunExamples.
#[local] Existing Instance GoTemplate.engine.
#[local] Existing Instance rangeToList.
#[local] Existing Instance localeFS.

Lemma catalog_invariants_witness :
  RegisterI18n "locale" ∅ = Ret tt catalogLoaded ∧
  (Data (newMessage "Hello, {{.Name}}") ≠ "" ∧
   parsedTemplate (newMessage "Hello, {{.Name}}") = None).
Proof.
  split; [apply RegisterI18n_example|].
  refine (proj1 (catalog_invariants "locale" catalogLoaded RegisterI18n_example)
            "en-US" "Greeting" (newMessage "Hello, {{.Name}}") _).
  reflexivity.
Defined.

(** Two callers of one message that take turns: one compiles, both
    return the same text. *)
Lemma two_callers_example :
  let w := run [0; 1; 0; 1; 0; 1; 0; 1; 0; 1] (start catalogLoaded twoCallers) in
  callers w
  = [Returned "en-US" "Greeting"
       (Some {[ "Name" := GoTemplate.VString "Ana" ]}) "Hello, Ana";
     Returned "en-US" "Greeting"
       (Some {[ "Name" := GoTemplate.VString "Ana" ]}) "Hello, Ana"] ∧
  parses w = [("en-US", "Greeting")] ∧
  slot w "en-US" "Greeting" = Some Compiled ∧
  exited w = None.
Proof. repeat split; reflexivity. Qed.

End RunExamples.

(** * Further properties of the loader *)

Section LoaderOrder.
Context `{TemplateEngine} `{MapRange} `{LocaleEnv}.

Lemma leaves_perm (localeDir : string) (names names' : list string) :
  names ≡ₚ names' → leaves localeDir names ≡ₚ leaves localeDir names'.
Proof. intros Hp. unfold leaves. by apply Permutation_flat_map. Qed.

(** What a successful load is does not depend on the order of the
    listing. *)
Lemma Loaded_perm (localeDir : string) (names names' : list string)
    (c c' : Catalog) :
  names ≡ₚ names' → Loaded localeDir names c c' → Loaded localeDir names' c c'.
Proof.
  intros Hp [Hn Hs Hd Hf Hm Hl].
  pose proof (leaves_perm localeDir names names' Hp) as Hlp.
  split.
  - intros name Hin. apply Hn. by rewrite Hp.
  - intros lang m leaf Hin. apply (Hs lang m). by rewrite Hlp.
  - by rewrite <- Hlp.
  - intros lang m leaf Hin. apply (Hf lang m leaf). by rewrite Hlp.
  - intros lang m message. rewrite Hm.
    split; (intros [?|(data & Hin & ->)]; [by left|right; exists data]).
    + split; [|done]. by rewrite <- Hlp.
    + split; [|done]. by rewrite Hlp.
  - intros lang. rewrite Hl.
    split; (intros [?|(name & raw & Hin & Hdoc)];
            [by left|right; exists name, raw]).
    + split; [|done]. by rewrite <- Hp.
    + split; [|done]. by rewrite Hp.
Qed.

(** A listing loads to one catalog. *)
Lemma Loaded_unique (localeDir : string) (names : list string)
    (c c1 c2 : Catalog) :
  Loaded localeDir names c c1 → Loaded localeDir names c c2 → c1 = c2.
Proof.
  intros [_ _ _ _ Hm1 Hl1] [_ _ _ _ Hm2 Hl2].
  apply map_eq. intros lang.
  assert (is_Some (c1 !! lang) ↔ is_Some (c2 !! lang)) as Hsome
    by (by rewrite Hl1, Hl2).
  destruct (c1 !! lang) as [t1|] eqn:Hc1, (c2 !! lang) as [t2|] eqn:Hc2.
  - f_equal. apply map_eq. intros m.
    assert (∀ message, t1 !! m = Some message ↔ t2 !! m = Some message) as Hiff.
    { intros message.
      assert (getMessage c1 lang m = t1 !! m) as <-
        by (unfold getMessage; by rewrite Hc1).
      assert (getMessage c2 lang m = t2 !! m) as <-
        by (unfold getMessage; by rewrite Hc2).
      by rewrite Hm1, Hm2. }
    destruct (t1 !! m) as [m1|] eqn:Ht1.
    + symmetry. by apply Hiff.
    + destruct (t2 !! m) as [m2|] eqn:Ht2; [|done]. by apply Hiff.
  - exfalso. assert (is_Some (@None Table)) as [? ?] by (apply Hsome; eauto).
    done.
  - exfalso. assert (is_Some (@None Table)) as [? ?] by (apply Hsome; eauto).
    done.
  - done.
Qed.

(** The loop over the listing in another order. *)
Lemma registerFiles_perm (localeDir : string) (names names' : list string)
    (c c' : Catalog) :
  names ≡ₚ names' →
  registerFiles localeDir names c = Ret tt c' →
  registerFiles localeDir names' c = Ret tt c'.
Proof.
  intros Hp Hrun.
  pose proof (registerFiles_outcome localeDir names c) as Hout.
  rewrite Hrun in Hout. apply (Loaded_perm _ _ _ _ _ Hp) in Hout.
  pose proof (registerFiles_outcome localeDir names' c) as Hout'.
  destruct (registerFiles localeDir names' c) as [[] c''|f].
  - f_equal. by eapply Loaded_unique.
  - by apply Loaded_no_cause with (f := f) in Hout.
Qed.

(** X1. The catalog that the loop of [RegisterI18n] over the directory
    entries builds does not depend on the order of the entries: when the
    files load in one order, they load in every other order, to the same
    catalog; and when the load ends the process in one order, it does so
    in every other order. *)
Theorem registerFiles_any_order (localeDir : string)
    (names names' : list string) (c : Catalog) :
  names ≡ₚ names' →
  (∀ c', registerFiles localeDir names c = Ret tt c' →
         registerFiles localeDir names' c = Ret tt c') ∧
  (∀ f, registerFiles localeDir names c = Exit f →
        ∃ f', registerFiles localeDir names' c = Exit f').
Proof.
  intros Hp. split.
  - intros c'. by apply registerFiles_perm.
  - intros f Hrun.
    destruct (registerFiles localeDir names' c) as [[] c'|f'] eqn:Hrun';
      [|by eexists].
    apply (registerFiles_perm _ _ _ _ _ (symmetry Hp)) in Hrun'. congruence.
Qed.

End LoaderOrder.

Section DocumentOrder.
Context `{TemplateEngine}.

Lemma flatten_RMap (messageId : string) (entries : list (string * Raw)) :
  flatten messageId (RMap entries) =
  flat_map (λ kv, flatten (joinId messageId kv.1) kv.2) entries.
Proof.
  simpl. induction entries as [|[k v] entries IH]; [done|].
  simpl. by rewrite IH.
Qed.

Lemma reorder_sym (raw raw' : Raw) : reorder raw raw' → reorder raw' raw.
Proof.
  induction 1 as [raw|raw1 raw2 raw3 _ IH1 _ IH2|entries entries' Hp
                 |pre post k v v' _ IH].
  - apply reorder_refl.
  - by eapply reorder_trans.
  - by apply reorder_here.
  - by apply reorder_below.
Qed.

(** The leaves of a document visited in another order are the same, in
    another order. *)
Lemma flatten_reorder (raw raw' : Raw) :
  reorder raw raw' →
  ∀ messageId, flatten messageId raw ≡ₚ flatten messageId raw'.
Proof.
  induction 1 as [raw|raw1 raw2 raw3 _ IH1 _ IH2|entries entries' Hp
                 |pre post k v v' _ IH]; intros messageId.
  - done.
  - by rewrite IH1.
  - rewrite !flatten_RMap. by apply Permutation_flat_map.
  - rewrite !flatten_RMap, !flat_map_app. simpl.
    apply Permutation_app; [done|]. apply Permutation_app; [|done]. apply IH.
Qed.

Lemma Clean_perm (t : Table) (ls ls' : list (string * Raw)) :
  ls ≡ₚ ls' → Clean t ls → Clean t ls'.
Proof.
  intros Hp (Hgood & Hnd & Hfresh). split; [|split].
  - intros m leaf Hin. apply (Hgood m). by rewrite Hp.
  - by rewrite <- Hp.
  - intros m Hin. apply Hfresh. by rewrite Hp.
Qed.

Lemma addAll_perm (t : Table) (ls ls' : list (string * Raw)) :
  ls ≡ₚ ls' → Clean t ls → addAll t ls = addAll t ls'.
Proof.
  intros Hp Hclean. pose proof (Clean_perm _ _ _ Hp Hclean) as Hclean'.
  apply map_eq. intros m.
  assert (∀ message, addAll t ls !! m = Some message ↔
                     addAll t ls' !! m = Some message) as Hiff.
  { intros message. rewrite !addAll_lookup by done.
    split; (intros [?|(data & Hin & ->)]; [by left|right; exists data]).
    - split; [|done]. by rewrite <- Hp.
    - split; [|done]. by rewrite Hp. }
  destruct (addAll t ls !! m) as [m1|] eqn:Ht1.
  - symmetry. by apply Hiff.
  - destruct (addAll t ls' !! m) as [m2|] eqn:Ht2; [|done]. by apply Hiff.
Qed.

(** Without a table for the locale only the empty pass returns nil. *)
Lemma addLeaves_no_table (lang : string) (ls : list (string * Raw))
    (c c' : Catalog) :
  Forall (λ x, isLeaf x.2) ls → c !! lang = None →
  addLeaves lang ls c = Ret None c' → ls = [].
Proof.
  intros Hleaf Hc Hrun. destruct Hleaf as [|[m leaf] ls Hl _]; [done|].
  exfalso. destruct leaf as [data|entries|goType text]; [|done|done].
  simpl in Hrun. unfold bind, getCatalog in Hrun.
  destruct (String.eqb data ""); [done|]. by rewrite Hc in Hrun.
Qed.

(** The pass over the leaves in another order. *)
Lemma addLeaves_perm (lang : string) (ls ls' : list (string * Raw))
    (c c' : Catalog) :
  Forall (λ x, isLeaf x.2) ls → ls ≡ₚ ls' →
  addLeaves lang ls c = Ret None c' → addLeaves lang ls' c = Ret None c'.
Proof.
  intros Hleaf Hp Hrun.
  assert (Forall (λ x, isLeaf x.2) ls') as Hleaf' by (by rewrite <- Hp).
  destruct (c !! lang) as [t|] eqn:Hc.
  2:{ pose proof (addLeaves_no_table _ _ _ _ Hleaf Hc Hrun) as ->.
      apply Permutation_nil in Hp. by subst ls'. }
  pose proof (addLeaves_outcome lang ls Hleaf c t Hc) as Hout.
  rewrite Hrun in Hout. destruct Hout as [Hclean ->].
  pose proof (Clean_perm _ _ _ Hp Hclean) as Hclean'.
  pose proof (addLeaves_outcome lang ls' Hleaf' c t Hc) as Hout'.
  destruct (addLeaves lang ls' c) as [[e|] c''|f].
  - exfalso. destruct Hout' as (l1 & m & goType & text & l2 & Heq & _).
    destruct Hclean' as (Hgood & _).
    destruct (Hgood m (ROther goType text)) as (data & ? & _); [|done].
    rewrite Heq. apply elem_of_app. right. by left.
  - destruct Hout' as [_ ->]. by rewrite (addAll_perm t ls ls').
  - exfalso. destruct Hout' as (l1 & m & data & l2 & Heq & Hclean1 & Hcase).
    destruct Hclean' as (Hgood & Hnd & Hfresh).
    assert ((m, RString data) ∈ ls') as Hin
      by (rewrite Heq; apply elem_of_app; right; by left).
    destruct Hcase as [[-> _]|(_ & old & Hold & _)].
    + destruct (Hgood _ _ Hin) as (d & [= <-] & Hne). done.
    + apply (addAll_lookup _ _ _ _ Hclean1) in Hold as [Hold|(d & Hd & _)].
      * rewrite Hfresh in Hold; [done|].
        by apply (list_elem_of_fmap_2 fst) in Hin.
      * rewrite Heq, fmap_app in Hnd. simpl in Hnd.
        apply NoDup_app in Hnd as (_ & Hdisj & _).
        apply (Hdisj m); [|by left].
        by apply (list_elem_of_fmap_2 fst) in Hd.
Qed.

(** X2. The messages [recGetMessages] stores for a document do not
    depend on the order in which the runtime visits the entries of the
    document's maps: when the walk returns nil for one order, it returns
    nil for every other order, at any depth, and leaves the same
    catalog. So a document that fails in one order (an error returned or
    the process ended) fails in every order. *)
Theorem recGetMessages_any_order (lang messageId : string) (raw raw' : Raw)
    (c c' : Catalog) :
  reorder raw raw' →
  (recGetMessages lang messageId raw c = Ret None c' ↔
   recGetMessages lang messageId raw' c = Ret None c').
Proof.
  intros Hre. rewrite !recGetMessages_flatten. split.
  - apply addLeaves_perm; [apply flatten_isLeaf|by apply flatten_reorder].
  - apply addLeaves_perm; [apply flatten_isLeaf|].
    by apply flatten_reorder, reorder_sym.
Qed.

End DocumentOrder.

Section LoaderAgain.
Context `{TemplateEngine} `{MapRange} `{LocaleEnv}.

Lemma NoDup_fst_unique {A B : Type} (l : list (A * B)) (k : A) (v1 v2 : B) :
  NoDup l.*1 → (k, v1) ∈ l → (k, v2) ∈ l → v1 = v2.
Proof.
  induction l as [|[k' v'] l IH]; simpl.
  - intros _ Hin. by apply elem_of_nil in Hin.
  - intros [Hnotin Hnd]%NoDup_cons Hin1 Hin2.
    apply elem_of_cons in Hin1 as [Heq1|Hin1];
      apply elem_of_cons in Hin2 as [Heq2|Hin2].
    + congruence.
    + exfalso. apply Hnotin. injection Heq1 as <- _.
      by apply (list_elem_of_fmap_2 fst) in Hin2.
    + exfalso. apply Hnotin. injection Heq2 as <- _.
      by apply (list_elem_of_fmap_2 fst) in Hin1.
    + by apply IH.
Qed.

(** The outcome of [RegisterI18n] in terms of the loop and the
    validator. *)
Lemma RegisterI18n_returns (localeDir : string) (c0 c : Catalog) :
  RegisterI18n localeDir c0 = Ret tt c →
  ∃ names, ReadDir localeDir = Some names ∧
    registerFiles localeDir names c0 = Ret tt c ∧
    Loaded localeDir names c0 c ∧ checkLanguageMap c = None.
Proof.
  unfold RegisterI18n, bind, getCatalog. intros Hrun.
  destruct (loadLocaleDir localeDir c0) as [[] c1|f] eqn:Hload; [|done].
  destruct (checkLanguageMap c1) eqn:Hcheck; [done|]. injection Hrun as ->.
  unfold loadLocaleDir in Hload.
  destruct (ReadDir localeDir) as [names|]; [|done].
  exists names. split; [done|]. split; [done|]. split; [|done].
  pose proof (registerFiles_outcome localeDir names c0) as Hout.
  by rewrite Hload in Hout.
Qed.

(** X3. [RegisterI18n] cannot be called twice on a directory: once a
    call has returned and added a message, a second call on the same
    directory, at once or after any number of [Translate] calls, ends the
    process with the duplicate-id report; the stored and the new content
    it names are the same text. *)
Theorem RegisterI18n_twice (localeDir : string) (c0 c c1 : Catalog)
    (lang messageId : string)
    (calls : list (string * string * option (gmap string Value)))
    (outs : list string) :
  RegisterI18n localeDir c0 = Ret tt c →
  getMessage c0 lang messageId = None →
  is_Some (getMessage c lang messageId) →
  translateAll calls c = Ret outs c1 →
  ∃ m data, RegisterI18n localeDir c1 = Exit (FatalExist m data data).
Proof.
  intros (names & Hdir & _ & Hloaded & _)%RegisterI18n_returns Hold [msg Hnew]
    Hcalls.
  apply translateAll_evolves in Hcalls as (Hev & _ & _).
  destruct Hloaded as [Hn Hs Hd Hf Hm Hl].
  assert (∃ data, (lang, messageId, RString data) ∈ leaves localeDir names)
    as [data0 Hleaf0].
  { apply Hm in Hnew as [?|(data & Hin & _)]; [congruence|by exists data]. }
  assert (∃ f, registerFiles localeDir names c1 = Exit f ∧
               loadCause localeDir names c1 f) as (f & Hrun & Hcause).
  { pose proof (registerFiles_outcome localeDir names c1) as Hout.
    destruct (registerFiles localeDir names c1) as [[] c2|f]; [|by exists f].
    exfalso. destruct Hout as [_ _ _ Hf1 _ _].
    specialize (Hf1 _ _ _ Hleaf0).
    assert (getMessage c lang messageId = Some (newMessage data0)) as Hget
      by (apply Hm; right; by exists data0).
    destruct (evolves_messages _ _ Hev _ _ _ Hget) as (m1 & Hget1 & _).
    congruence. }
  assert (∃ m data, f = FatalExist m data data) as (m & data & ->).
  { assert (Loaded localeDir names c0 c) as Hloaded by (by split).
    destruct Hcause as
      [name Hin Hnosrc Hnoloc
      |name l Hin Hloc Htag
      |name l Hin Hloc Htag Hread
      |name l buf Hin Hloc Htag Hread Hraw
      |l m goType text Hleaf
      |l m Hleaf
      |l m data old Hleaf Hgetold
      |l m data oldData l1 l2 l3 Heq].
    - exfalso. eapply (Loaded_no_cause _ _ _ _ _ Hloaded).
      by apply cause_filename.
    - exfalso. eapply (Loaded_no_cause _ _ _ _ _ Hloaded).
      by eapply cause_language.
    - exfalso. eapply (Loaded_no_cause _ _ _ _ _ Hloaded).
      by eapply cause_file.
    - exfalso. eapply (Loaded_no_cause _ _ _ _ _ Hloaded).
      by eapply cause_unmarshal.
    - exfalso. eapply (Loaded_no_cause _ _ _ _ _ Hloaded).
      by eapply cause_unsupported.
    - exfalso. eapply (Loaded_no_cause _ _ _ _ _ Hloaded).
      by eapply cause_empty.
    - exists m, data. f_equal.
      destruct (evolves_back _ _ _ _ _ Hev Hgetold) as [msg0 Hget0].
      destruct (evolves_messages _ _ Hev _ _ _ Hget0) as (old' & Hget' & HD & _).
      assert (old' = old) as -> by congruence. rewrite HD.
      apply Hm in Hget0 as [Hget0|(data' & Hin' & ->)].
      + rewrite (Hf _ _ _ Hleaf) in Hget0. done.
      + simpl.
        assert (RString data' = RString data) as [= ->]; [|done].
        by apply (NoDup_fst_unique (leaves localeDir names) (l, m)).
    - exfalso. eapply (Loaded_no_cause _ _ _ _ _ Hloaded).
      by eapply cause_exist_earlier. }
  exists m, data. unfold RegisterI18n, bind, loadLocaleDir.
  by rewrite Hdir, Hrun.
Qed.

(** X4. After [RegisterI18n] has returned, and after any number of
    [Translate] calls, a message id found in one locale is found in every
    locale of the catalog: looking it up there, [Translate] does not end
    the process for a missing locale or a missing message id. *)
Theorem RegisterI18n_all_locales (localeDir : string) (c0 c c1 : Catalog)
    (calls : list (string * string * option (gmap string Value)))
    (outs : list string) (l1 l2 messageId : string) :
  RegisterI18n localeDir c0 = Ret tt c →
  translateAll calls c = Ret outs c1 →
  is_Some (getMessage c1 l1 messageId) → l2 ∈ dom c1 →
  is_Some (getMessage c1 l2 messageId) ∧
  ∀ d f, Translate l2 messageId d c1 = Exit f →
    f ≠ FatalNoLocalizer l2 ∧ f ≠ FatalNoMessage messageId l2.
Proof.
  intros (names & _ & _ & _ & Hcheck)%RegisterI18n_returns Hcalls [m1 Hget1] Hl2.
  apply translateAll_evolves in Hcalls as (Hev & _ & _).
  assert (is_Some (getMessage c1 l2 messageId)) as [m2 Hget2].
  { destruct (evolves_back _ _ _ _ _ Hev Hget1) as [m0 Hget0].
    apply getMessage_Some in Hget0 as (t1 & Ht1 & Hm1).
    rewrite (evolves_locales _ _ Hev) in Hl2.
    apply elem_of_dom in Hl2 as [t2 Ht2].
    pose proof (proj1 (proj1 (checkLanguageMap_outcome c)) Hcheck
                  l1 l2 t1 t2 Ht1 Ht2) as Hdom.
    assert (messageId ∈ dom t2) as [m2 Hm2]%elem_of_dom
      by (rewrite <- Hdom; apply elem_of_dom; eauto).
    assert (getMessage c l2 messageId = Some m2) as Hget
      by (apply getMessage_Some; eauto).
    destruct (evolves_messages _ _ Hev _ _ _ Hget) as (m2' & Hget' & _).
    eauto. }
  split; [eauto|]. intros d f.
  rewrite (Translate_found c1 l2 messageId d m2 Hget2).
  destruct (negb (Contains (Data m2) leftDelim)); [done|].
  destruct (compiled m2) as [t|].
  - destruct (Execute t d); [done|]. intros [= <-]. done.
  - destruct (parseOnce m2); intros [= <-]; done.
Qed.

(** X19. The catalog [RegisterI18n] builds from the empty one holds
    what the directory holds and nothing else: its locales are exactly
    the tags of the locale files of the listing, and the messages of a
    locale are exactly the string leaves of the documents of its files,
    each a fresh message under the id of the leaf. *)
Theorem RegisterI18n_exact (localeDir : string) (names : list string)
    (c : Catalog) :
  ReadDir localeDir = Some names →
  RegisterI18n localeDir ∅ = Ret tt c →
  (∀ lang, lang ∈ dom c ↔
     ∃ name raw, name ∈ names ∧ document localeDir name = Some (lang, raw)) ∧
  (∀ lang messageId message,
     getMessage c lang messageId = Some message ↔
     ∃ data, (lang, messageId, RString data) ∈ leaves localeDir names ∧
       message = newMessage data).
Proof.
  intros Hdir (names' & Hdir' & _ & Hloaded & _)%RegisterI18n_returns.
  assert (names' = names) as -> by congruence.
  destruct Hloaded as [_ _ _ _ Hm Hl]. split.
  - intros lang. rewrite elem_of_dom, Hl, lookup_empty. split.
    + intros [[? ?]|?]; done.
    + intros ?. by right.
  - intros lang m message. rewrite Hm. split.
    + intros [Hget|?]; [|done]. unfold getMessage in Hget.
      by rewrite lookup_empty in Hget.
    + intros ?. by right.
Qed.

End LoaderAgain.

(** ** The names of the directory entries *)

Section FileNames.
Context `{TemplateEngine} `{MapRange} `{LocaleEnv}.

Lemma Split_length (s : string) (sep : ascii) :
  length (Split s sep) = S (Count s sep).
Proof.
  induction s as [|a s IH]; [done|]. simpl.
  destruct (Ascii.eqb a sep); simpl; [by rewrite IH|].
  destruct (Split s sep) as [|h t]; [done|]. exact IH.
Qed.

Lemma Split_no_sep (s : string) (sep : ascii) :
  Count s sep = 0 → Split s sep = [s].
Proof.
  induction s as [|a s IH]; [done|]. simpl.
  destruct (Ascii.eqb a sep); [done|]. intros Hs. by rewrite IH.
Qed.

Lemma Split_sep (base rest : string) (sep : ascii) :
  Count base sep = 0 →
  Split (base +:+ String sep rest) sep = base :: Split rest sep.
Proof.
  induction base as [|a base IH]; intros Hb.
  - change (Split (String sep rest) sep = "" :: Split rest sep).
    simpl. by rewrite Ascii.eqb_refl.
  - simpl in Hb.
    change (Split (String a (base +:+ String sep rest)) sep
            = String a base :: Split rest sep).
    simpl. destruct (Ascii.eqb a sep); [done|]. by rewrite IH.
Qed.

Lemma dot_append (s : string) : "." +:+ s = String "." s.
Proof. done. Qed.

(** X5. What the loop of [RegisterI18n] does with a directory entry is
    decided by the dots of its name. A name without a dot (a
    subdirectory, a file without extension) and a name with three dots or
    more end the process with the file-name report, whatever the entry
    holds. A name with one dot is skipped, the catalog left as it is,
    when what follows the dot is [go], and ends the process with the
    file-name report otherwise. A name with two dots ends the process
    unless what follows the second dot is [toml]; then the text between
    the dots is the locale, and an invalid tag there ends the process. *)
Theorem registerFile_by_name (localeDir : string) (c : Catalog) :
  (∀ name, Count name "." = 0 ∨ 3 ≤ Count name "." →
     registerFile localeDir name c = Exit (FatalFilename name)) ∧
  (∀ base, Count base "." = 0 →
     registerFile localeDir (base +:+ ".go") c = Ret tt c) ∧
  (∀ base ext, Count base "." = 0 → Count ext "." = 0 → ext ≠ "go" →
     registerFile localeDir (base +:+ "." +:+ ext) c
     = Exit (FatalFilename (base +:+ "." +:+ ext))) ∧
  (∀ modul lang ext,
     Count modul "." = 0 → Count lang "." = 0 → Count ext "." = 0 →
     ext ≠ "toml" →
     registerFile localeDir (modul +:+ "." +:+ lang +:+ "." +:+ ext) c
     = Exit (FatalFilename (modul +:+ "." +:+ lang +:+ "." +:+ ext))) ∧
  (∀ modul lang,
     Count modul "." = 0 → Count lang "." = 0 →
     isLocaleFile (modul +:+ "." +:+ lang +:+ ".toml") lang ∧
     (languageParse lang = false →
      registerFile localeDir (modul +:+ "." +:+ lang +:+ ".toml") c
      = Exit (PanicLanguage lang))).
Proof.
  split; [|split; [|split; [|split]]].
  - intros name Hdots. unfold registerFile.
    pose proof (Split_length name ".") as Hlen.
    destruct (Split name ".") as [|a [|b [|e [|d rest]]]]; simpl in Hlen;
      try done; exfalso; lia.
  - intros base Hbase. unfold registerFile.
    change (base +:+ ".go") with (base +:+ String "." "go").
    by rewrite (Split_sep base "go" "." Hbase).
  - intros base ext Hbase Hext Hne. unfold registerFile.
    rewrite dot_append, (Split_sep base ext "." Hbase), (Split_no_sep ext "." Hext).
    simpl. by destruct (String.eqb_spec ext "go").
  - intros modul lang ext Hmodul Hlang Hext Hne. unfold registerFile.
    rewrite !dot_append, (Split_sep modul _ "." Hmodul),
      (Split_sep lang ext "." Hlang), (Split_no_sep ext "." Hext).
    simpl. by destruct (String.eqb_spec ext "toml").
  - intros modul lang Hmodul Hlang.
    assert (Split (modul +:+ "." +:+ lang +:+ ".toml") "."
            = [modul; lang; "toml"]) as Hs.
    { change (lang +:+ ".toml") with (lang +:+ String "." "toml").
      by rewrite dot_append, (Split_sep modul _ "." Hmodul),
        (Split_sep lang "toml" "." Hlang). }
    split; [by exists modul|]. intros Htag. unfold registerFile.
    rewrite Hs. simpl. by rewrite Htag.
Qed.

End FileNames.

(** * The error registry *)

(** ** [Translate], as its callers see it *)

Section TranslateAgain.
Context `{TemplateEngine}.

Lemma later_refl (c : Catalog) : later c c.
Proof. split; [apply evolves_refl|done]. Qed.

Lemma later_trans (c1 c2 c3 : Catalog) : later c1 c2 → later c2 c3 → later c1 c3.
Proof.
  intros [Hev1 Hs1] [Hev2 Hs2]. split; [by eapply evolves_trans|].
  intros lang m Hs. by apply Hs2, Hs1.
Qed.

Lemma render_later (c c' : Catalog) (lang messageId : string)
    (d : option (gmap string Value)) :
  later c c' → render c' lang messageId d = render c lang messageId d.
Proof.
  intros [Hev _]. unfold render.
  destruct (getMessage c lang messageId) as [message|] eqn:Hget.
  - destruct (evolves_messages _ _ Hev _ _ _ Hget) as (message' & -> & HD & HC).
    simpl. unfold rendered. by rewrite HD, HC.
  - destruct (getMessage c' lang messageId) as [message'|] eqn:Hget'; [|done].
    destruct (evolves_back _ _ _ _ _ Hev Hget') as [message Hget0]. congruence.
Qed.

Lemma entry_later (c c' : Catalog) (errorCode lang : string) :
  later c c' → entry c' errorCode lang = entry c errorCode lang.
Proof. intros Hl. unfold entry. by rewrite !(render_later c c'). Qed.

Lemma entry_code (c : Catalog) (errorCode lang : string) (b : BaseError) :
  entry c errorCode lang = Some b → ErrorCode b = errorCode.
Proof.
  unfold entry.
  destruct (render c lang (errorCode +:+ ".Description") None); [|done].
  destruct (render c lang (errorCode +:+ ".Solution") None); [|done].
  destruct (render c lang (errorCode +:+ ".ErrorLink") None); [|done].
  simpl. by intros [= <-].
Qed.

Lemma settled_setMessage (c : Catalog) (lang messageId l m : string)
    (message : Message) :
  is_Some (getMessage c lang messageId) → parseOnce message = true →
  settled c l m → settled (setMessage c lang messageId message) l m.
Proof.
  intros Hsome Honce (old & Hold & Hcase). unfold settled.
  rewrite getMessage_setMessage by done.
  destruct (decide (l = lang ∧ m = messageId)); [|by exists old].
  exists message. split; [done|]. by right.
Qed.

(** A call of [Translate]: the text it returns, the catalog it leaves. *)
Lemma Translate_render (lang messageId : string)
    (d : option (gmap string Value)) (c : Catalog) :
  match Translate lang messageId d c with
  | Ret out c' =>
      render c lang messageId d = Some out ∧ later c c' ∧
      settled c' lang messageId ∧ (settled c lang messageId → c' = c)
  | Exit f => render c lang messageId d = None
  end.
Proof.
  unfold render.
  destruct (getMessage c lang messageId) as [message|] eqn:Hget.
  2:{ unfold Translate, bind, getCatalog, getMessage in *.
      destruct (c !! lang) as [localizer|]; [|done]. simpl in Hget.
      by rewrite Hget. }
  rewrite (Translate_found c lang messageId d message Hget). simpl.
  unfold rendered.
  destruct (Contains (Data message) leftDelim) eqn:Hdelim; simpl.
  2:{ split; [done|]. split; [apply later_refl|]. split; [|done].
      exists message. split; [done|]. by left. }
  destruct (compiled message) as [t|] eqn:Hc; [|done]. simpl.
  destruct (Execute t d) as [buf|]; [|done].
  split; [done|].
  destruct (parseOnce message) eqn:Honce.
  { split; [apply later_refl|]. split; [|done].
    exists message. split; [done|]. by right. }
  unfold compiled in Hc. rewrite Honce in Hc.
  destruct (compiled_stored message t Honce Hc) as (HC & _).
  split; [|split].
  - split; [by eapply evolves_setMessage|].
    intros l m. apply settled_setMessage; [by eauto|done].
  - eexists. split.
    + rewrite getMessage_setMessage by eauto. by rewrite decide_True.
    + by right.
  - intros (message' & Hget' & [Hfast|Hdone]); congruence.
Qed.

End TranslateAgain.

(** ** [Register] *)

Section RegisterFacts.
Context `{TemplateEngine} `{MapRange}.

Lemma settledTexts_later (c c' : Catalog) (errorCode lang : string) :
  later c c' → settledTexts c errorCode lang → settledTexts c' errorCode lang.
Proof. intros [_ Hs] (? & ? & ?). repeat split; by apply Hs. Qed.

(** One entry: written when the three texts render, with the texts. *)
Lemma registerLang_outcome (errorCode lang : string) (r : Rest) (c : Catalog) :
  match registerLang errorCode lang r c with
  | Done _ r' c' =>
      later c c' ∧ settledTexts c' errorCode lang ∧
      ∃ b errs, entry c errorCode lang = Some b ∧
        allErrs r !! errorCode = Some errs ∧
        r' = mkRest (Languages r) (DefaultLanguage r)
               (<[errorCode := <[lang := b]> errs]> (allErrs r))
  | Abort f => entry c errorCode lang = None ∨ allErrs r !! errorCode = None
  end.
Proof.
  unfold registerLang, bindP, i18n, entry.
  pose proof (Translate_render lang (errorCode +:+ ".Description") None c) as HD.
  destruct (Translate lang (errorCode +:+ ".Description") None c)
    as [description c1|f]; [|left; by rewrite HD].
  destruct HD as (-> & Hl1 & Hs1 & _). simpl.
  pose proof (Translate_render lang (errorCode +:+ ".Solution") None c1) as HS.
  rewrite (render_later c c1) in HS by done.
  destruct (Translate lang (errorCode +:+ ".Solution") None c1)
    as [solution c2|f]; [|left; by rewrite HS].
  destruct HS as (-> & Hl2 & Hs2 & _). simpl.
  pose proof (Translate_render lang (errorCode +:+ ".ErrorLink") None c2) as HL.
  rewrite (render_later c1 c2), (render_later c c1) in HL by done.
  destruct (Translate lang (errorCode +:+ ".ErrorLink") None c2)
    as [errorLink c3|f]; [|left; by rewrite HL].
  destruct HL as (-> & Hl3 & Hs3 & _). simpl.
  unfold getRest, putErrs, abort.
  destruct (allErrs r !! errorCode) as [errs|] eqn:Herrs; [|by right].
  split; [by eauto using later_trans|]. split.
  - split; [|split]; [|by apply Hl3|done].
    apply Hl3. by apply Hl2.
  - eexists _, errs. done.
Qed.

(** The entries of one code. *)
Lemma registerLangs_outcome (errorCode : string) (langs : list string) :
  ∀ (r : Rest) (c : Catalog) (errs0 : gmap string BaseError),
    allErrs r !! errorCode = Some errs0 →
    match registerLangs errorCode langs r c with
    | Done _ r' c' =>
        later c c' ∧
        (∀ lang, lang ∈ langs → settledTexts c' errorCode lang) ∧
        Languages r' = Languages r ∧ DefaultLanguage r' = DefaultLanguage r ∧
        ∃ errs', allErrs r' = <[errorCode := errs']> (allErrs r) ∧
          (∀ lang, errs' !! lang =
                   if decide (lang ∈ langs) then entry c errorCode lang
                   else errs0 !! lang) ∧
          (∀ lang, lang ∈ langs → is_Some (entry c errorCode lang))
    | Abort f => ∃ lang, lang ∈ langs ∧ entry c errorCode lang = None
    end.
Proof.
  induction langs as [|lang langs IH]; intros r c errs0 Herrs.
  - simpl. split; [apply later_refl|].
    split; [intros ? Hin; by apply elem_of_nil in Hin|].
    split; [done|]. split; [done|]. exists errs0.
    split; [by rewrite insert_id|].
    split; [|intros ? Hin; by apply elem_of_nil in Hin].
    done.
  - simpl. unfold bindP at 1.
    pose proof (registerLang_outcome errorCode lang r c) as Hone.
    destruct (registerLang errorCode lang r c) as [[] r1 c1|f].
    2:{ exists lang. split; [by left|]. destruct Hone; [done|congruence]. }
    destruct Hone as (Hl1 & Hs1 & b & errs & Hb & Herrs' & ->).
    assert (errs = errs0) as -> by congruence.
    specialize (IH (mkRest (Languages r) (DefaultLanguage r)
                      (<[errorCode := <[lang := b]> errs0]> (allErrs r)))
                  c1 (<[lang := b]> errs0) (lookup_insert_eq _ _ _)).
    destruct (registerLangs errorCode langs _ c1) as [[] r2 c2|f].
    + destruct IH as (Hl2 & Hs2 & HL & HD & errs' & Hall & Hlook & Hsome).
      simpl in *. split; [by eapply later_trans|]. split.
      { intros l [->|Hin]%elem_of_cons; [|by apply Hs2].
        by eapply settledTexts_later. }
      split; [done|]. split; [done|]. exists errs'.
      split; [by rewrite Hall, insert_insert_eq|]. split.
      * intros l. rewrite Hlook.
        destruct (decide (l ∈ langs)) as [Hin|Hnotin].
        -- rewrite decide_True by (by right). by apply entry_later.
        -- rewrite lookup_insert.
           destruct (decide (lang = l)) as [<-|Hne].
           ++ rewrite decide_True by (by left). done.
           ++ rewrite decide_False; [done|].
              intros [?|?]%elem_of_cons; congruence.
      * intros l [->|Hin]%elem_of_cons; [by eauto|].
        rewrite <- (entry_later c c1) by done. by apply Hsome.
    + destruct IH as (l & Hin & Hnone). exists l. split; [by right|].
      by rewrite <- (entry_later c c1).
Qed.

(** The call of [Register], case by case. *)
Lemma Register_outcome (errorCodeList : list string) :
  ∀ (r : Rest) (c : Catalog),
    match Register errorCodeList r c with
    | Done _ r' c' =>
        NoDup errorCodeList ∧
        (∀ errorCode, errorCode ∈ errorCodeList →
           allErrs r !! errorCode = None) ∧
        later c c' ∧
        Languages r' = Languages r ∧ DefaultLanguage r' = DefaultLanguage r ∧
        (∀ errorCode, errorCode ∉ errorCodeList →
           allErrs r' !! errorCode = allErrs r !! errorCode) ∧
        (∀ errorCode, errorCode ∈ errorCodeList →
           ∃ errs, allErrs r' !! errorCode = Some errs ∧
             (∀ lang, errs !! lang =
                      if decide (lang ∈ dom (Languages r))
                      then entry c errorCode lang else None) ∧
             (∀ lang, lang ∈ dom (Languages r) →
                is_Some (entry c errorCode lang) ∧
                settledTexts c' errorCode lang))
    | Abort f =>
        ¬ NoDup errorCodeList ∨
        (∃ errorCode, errorCode ∈ errorCodeList ∧
           is_Some (allErrs r !! errorCode)) ∨
        (∃ errorCode lang, errorCode ∈ errorCodeList ∧
           lang ∈ dom (Languages r) ∧ entry c errorCode lang = None)
    end.
Proof.
  induction errorCodeList as [|code codes IH]; intros r c.
  - simpl. split; [constructor|].
    split; [intros ? Hin; by apply elem_of_nil in Hin|].
    split; [apply later_refl|]. split; [done|]. split; [done|].
    split; [done|]. intros ? Hin. by apply elem_of_nil in Hin.
  - simpl. unfold bindP at 1. unfold getRest.
    destruct (allErrs r !! code) as [old|] eqn:Hcode.
    { right. left. exists code. split; [by left|by eauto]. }
    unfold bindP at 1. unfold putErrs. unfold bindP at 1.
    set (r0 := mkRest (Languages r) (DefaultLanguage r)
                 (<[code := ∅]> (allErrs r))).
    pose proof (registerLangs_outcome code
                  (range (length codes) (Languages r)).*1 r0 c ∅
                  (lookup_insert_eq _ _ _)) as Hlangs.
    destruct (registerLangs code _ r0 c) as [[] r1 c1|f].
    2:{ destruct Hlangs as (lang & Hin & Hnone). right. right.
        exists code, lang. split; [by left|]. split; [|done].
        by apply range_keys in Hin. }
    destruct Hlangs as (Hl1 & Hs1 & HL1 & HD1 & errs' & Hall1 & Hlook1 & Hsome1).
    simpl in HL1, HD1, Hall1. rewrite insert_insert_eq in Hall1.
    assert (allErrs r1 !! code = Some errs') as Hcode1
      by (rewrite Hall1; apply lookup_insert_eq).
    specialize (IH r1 c1).
    destruct (Register codes r1 c1) as [[] r2 c2|f].
    + destruct IH as (Hnd & Hfresh & Hl2 & HL2 & HD2 & Hkeep & Hnew).
      assert (code ∉ codes) as Hnotin.
      { intros Hin. specialize (Hfresh code Hin). congruence. }
      split; [by constructor|]. split.
      { intros code' [->|Hin]%elem_of_cons; [done|].
        specialize (Hfresh code' Hin). rewrite Hall1 in Hfresh.
        rewrite lookup_insert_ne in Hfresh; [done|]. by intros <-. }
      split; [by eapply later_trans|].
      split; [congruence|]. split; [congruence|]. split.
      { intros code' Hnot. apply not_elem_of_cons in Hnot as [Hne Hnot].
        rewrite (Hkeep code' Hnot), Hall1. by apply lookup_insert_ne. }
      intros code' [->|Hin]%elem_of_cons.
      * exists errs'. split; [by rewrite (Hkeep code Hnotin)|]. split.
        -- intros lang. rewrite Hlook1, lookup_empty.
           destruct (decide (lang ∈ (range (length codes) (Languages r)).*1))
             as [Hin|Hnin].
           ++ rewrite decide_True; [done|]. by apply range_keys in Hin.
           ++ rewrite decide_False; [done|]. intros Hd. apply Hnin.
              by apply range_keys.
        -- intros lang Hd.
           assert (lang ∈ (range (length codes) (Languages r)).*1) as Hin
             by (by apply range_keys).
           split; [by apply Hsome1|].
           eapply settledTexts_later; [exact Hl2|]. by apply Hs1.
      * destruct (Hnew code' Hin) as (errs & Herrs & Hlook & Hsome).
        rewrite HL1 in Hlook, Hsome.
        exists errs. split; [done|]. split.
        -- intros lang. rewrite Hlook.
           destruct (decide (lang ∈ dom (Languages r))); [|done].
           by apply entry_later.
        -- intros lang Hd. destruct (Hsome lang Hd) as [He Hs].
           split; [|done]. by rewrite <- (entry_later c c1).
    + destruct IH as [Hnd|[(code' & Hin & Hsome)|(code' & lang & Hin & Hd & Hnone)]].
      * left. intros [_ ?]%NoDup_cons. done.
      * destruct (decide (code' = code)) as [->|Hne].
        -- left. intros [? _]%NoDup_cons. done.
        -- right. left. exists code'. split; [by right|].
           rewrite Hall1, lookup_insert_ne in Hsome; [done|]. by intros <-.
      * right. right. exists code', lang. split; [by right|].
        rewrite HL1 in Hd. split; [done|].
        by rewrite <- (entry_later c c1).
Qed.

End RegisterFacts.

Section RegisterTheorems.
Context `{TemplateEngine} `{MapRange}.

Lemma Translate_returns (lang messageId : string)
    (d : option (gmap string Value)) (c : Catalog) :
  returns (Translate lang messageId d c) = true ↔
  is_Some (render c lang messageId d).
Proof.
  pose proof (Translate_render lang messageId d c) as Hr.
  destruct (Translate lang messageId d c) as [out c'|f]; simpl.
  - destruct Hr as (-> & _). split; [by eauto|done].
  - rewrite Hr. split; [done|]. by intros [? ?].
Qed.

Lemma entry_is_Some (c : Catalog) (errorCode lang : string) :
  is_Some (entry c errorCode lang) ↔
  ∀ suffix, suffix ∈ [".Description"; ".Solution"; ".ErrorLink"] →
    returns (Translate lang (errorCode +:+ suffix) None c) = true.
Proof.
  unfold entry. split.
  - intros [b Hb] suffix Hin. apply Translate_returns.
    destruct (render c lang (errorCode +:+ ".Description") None) eqn:HD; [|done].
    destruct (render c lang (errorCode +:+ ".Solution") None) eqn:HS; [|done].
    destruct (render c lang (errorCode +:+ ".ErrorLink") None) eqn:HL; [|done].
    apply elem_of_cons in Hin as [->|Hin]; [by rewrite HD|].
    apply elem_of_cons in Hin as [->|Hin]; [by rewrite HS|].
    apply list_elem_of_singleton in Hin as ->. by rewrite HL.
  - intros Hall.
    assert (∀ suffix, suffix ∈ [".Description"; ".Solution"; ".ErrorLink"] →
              is_Some (render c lang (errorCode +:+ suffix) None)) as Hall'
      by (intros suffix Hin; by apply Translate_returns, Hall).
    destruct (Hall' ".Description") as [d ->]; [by left|].
    destruct (Hall' ".Solution") as [s ->]; [right; by left|].
    destruct (Hall' ".ErrorLink") as [l ->]; [right; right; by left|].
    simpl. by eauto.
Qed.

(** The stored text is what [Translate] answers from then on, without
    touching the catalog. *)
Lemma Translate_again (c c' : Catalog) (lang messageId out : string) :
  later c c' → render c lang messageId None = Some out →
  settled c' lang messageId →
  Translate lang messageId None c' = Ret out c'.
Proof.
  intros Hl Hr Hs.
  pose proof (Translate_render lang messageId None c') as Hout.
  rewrite (render_later c c') in Hout by done. rewrite Hr in Hout.
  destruct (Translate lang messageId None c') as [out' c''|f]; [|done].
  destruct Hout as ([= <-] & _ & _ & Hsame). by rewrite Hsame.
Qed.

(** When [Register] returns, by the entries it is to write. *)
Lemma Register_done_iff (errorCodeList : list string) (r : Rest) (c : Catalog) :
  done (Register errorCodeList r c) = true ↔
  NoDup errorCodeList ∧
  (∀ errorCode, errorCode ∈ errorCodeList → allErrs r !! errorCode = None) ∧
  (∀ errorCode lang,
     errorCode ∈ errorCodeList → lang ∈ dom (Languages r) →
     is_Some (entry c errorCode lang)).
Proof.
  pose proof (Register_outcome errorCodeList r c) as Hout.
  destruct (Register errorCodeList r c) as [[] r' c'|f]; simpl.
  - destruct Hout as (Hnd & Hfresh & _ & _ & _ & _ & Hnew).
    split; [|done]. intros _. split; [done|]. split; [done|].
    intros code lang Hin Hd.
    destruct (Hnew code Hin) as (errs & _ & _ & Hsome).
    by destruct (Hsome lang Hd) as [He _].
  - split; [done|]. intros (Hnd & Hfresh & Hall). exfalso.
    destruct Hout as [Hno|[(code & Hin & [old Hold])
                          |(code & lang & Hin & Hd & Hnone)]].
    + done.
    + rewrite (Hfresh code Hin) in Hold. done.
    + destruct (Hall code lang Hin Hd) as [b Hb]. congruence.
Qed.

(** X6. [Register] returns exactly when the codes of the list are
    pairwise distinct, none of them is registered yet, and for every code
    and every supported language each of the three calls
    [Translate(lang, code + ".Description", nil)], [... ".Solution" ...]
    and [... ".ErrorLink" ...] returns on the catalog as it is; in every
    other case the process ends. *)
Theorem Register_returns_iff (errorCodeList : list string) (r : Rest)
    (c : Catalog) :
  done (Register errorCodeList r c) = true ↔
  NoDup errorCodeList ∧
  (∀ errorCode, errorCode ∈ errorCodeList → allErrs r !! errorCode = None) ∧
  (∀ errorCode lang suffix,
     errorCode ∈ errorCodeList → lang ∈ dom (Languages r) →
     suffix ∈ [".Description"; ".Solution"; ".ErrorLink"] →
     returns (Translate lang (errorCode +:+ suffix) None c) = true).
Proof.
  rewrite Register_done_iff. split.
  - intros (Hnd & Hfresh & Hall). split; [done|]. split; [done|].
    intros code lang suffix Hin Hd.
    by apply (proj1 (entry_is_Some c code lang) (Hall code lang Hin Hd)).
  - intros (Hnd & Hfresh & Hall). split; [done|]. split; [done|].
    intros code lang Hin Hd. apply entry_is_Some. intros suffix Hs.
    by apply Hall.
Qed.

(** X7. What [Register] leaves when it returns. The supported languages
    and the default language are as before, and so is the entry of every
    code that is not in the list. Every code of the list has an entry
    for exactly the supported languages; the entry of a language carries
    the code, the empty string as details, two empty template maps, and
    as description, solution and link the texts that
    [Translate(lang, code + ".Description", nil)] and the two others
    return, also when called again after [Register], which then leave the
    catalog as it is. The catalog keeps its locales, ids and raw
    contents. *)
Theorem Register_registry (errorCodeList : list string) (r r' : Rest)
    (c c' : Catalog) :
  Register errorCodeList r c = Done tt r' c' →
  Languages r' = Languages r ∧ DefaultLanguage r' = DefaultLanguage r ∧
  (∀ errorCode, errorCode ∉ errorCodeList →
     allErrs r' !! errorCode = allErrs r !! errorCode) ∧
  (∀ errorCode, errorCode ∈ errorCodeList →
     ∃ errs, allErrs r' !! errorCode = Some errs ∧
       dom errs = dom (Languages r) ∧
       ∀ lang b, errs !! lang = Some b →
         ErrorCode b = errorCode ∧ ErrorDetails b = AString "" ∧
         DescriptionTemplateData b = Some ∅ ∧
         SolutionTemplateData b = Some ∅ ∧
         Translate lang (errorCode +:+ ".Description") None c'
         = Ret (Description b) c' ∧
         Translate lang (errorCode +:+ ".Solution") None c'
         = Ret (Solution b) c' ∧
         Translate lang (errorCode +:+ ".ErrorLink") None c'
         = Ret (ErrorLink b) c') ∧
  dom c' = dom c ∧
  (∀ lang messageId,
     Data <$> getMessage c' lang messageId
     = Data <$> getMessage c lang messageId).
Proof.
  intros Hrun. pose proof (Register_outcome errorCodeList r c) as Hout.
  rewrite Hrun in Hout.
  destruct Hout as (_ & _ & Hl & HL & HD & Hkeep & Hnew).
  split; [done|]. split; [done|]. split; [done|]. split.
  - intros code Hin. destruct (Hnew code Hin) as (errs & Herrs & Hlook & Hsome).
    exists errs. split; [done|]. split.
    + apply set_eq. intros lang. rewrite elem_of_dom, Hlook.
      destruct (decide (lang ∈ dom (Languages r))) as [Hd|Hd].
      * split; [done|]. intros _. by apply Hsome.
      * split; [by intros [? ?]|done].
    + intros lang b Hb. rewrite Hlook in Hb.
      destruct (decide (lang ∈ dom (Languages r))) as [Hd|]; [|done].
      destruct (Hsome lang Hd) as [_ (HsD & HsS & HsL)].
      unfold entry in Hb.
      destruct (render c lang (code +:+ ".Description") None) as [d|] eqn:HrD;
        [|done].
      destruct (render c lang (code +:+ ".Solution") None) as [s|] eqn:HrS;
        [|done].
      destruct (render c lang (code +:+ ".ErrorLink") None) as [l|] eqn:HrL;
        [|done].
      simpl in Hb. injection Hb as <-. simpl.
      repeat split; by eapply Translate_again.
  - destruct Hl as [Hev _]. split; [by destruct Hev|].
    intros lang m.
    destruct (getMessage c lang m) as [message|] eqn:Hget.
    + destruct (evolves_messages _ _ Hev _ _ _ Hget) as (message' & -> & HD' & _).
      simpl. by rewrite HD'.
    + destruct (getMessage c' lang m) as [message'|] eqn:Hget'; [|done].
      destruct (evolves_back _ _ _ _ _ Hev Hget') as [? ?]. congruence.
Qed.

End RegisterTheorems.

(** ** The registry as the program sets it up *)

Section SetupFacts.
Context `{TemplateEngine} `{MapRange}.

Lemma initRest_complete : complete initRest.
Proof.
  split.
  - simpl. apply elem_of_dom. by eexists.
  - simpl. unfold commonErrorI18n.
    intros code errs [<- <-]%lookup_singleton_Some. split.
    + by rewrite !dom_insert_L, !dom_singleton_L.
    + intros lang b [[_ <-]|[_ [_ <-]%lookup_singleton_Some]]%lookup_insert_Some;
        done.
Qed.

Lemma SetLang_complete (langStr : string) (r r' : Rest) (c c' : Catalog) :
  complete r → SetLang langStr r c = Done tt r' c' →
  complete r' ∧ Languages r' = Languages r ∧ allErrs r' = allErrs r ∧
  DefaultLanguage r' = langStr ∧ c' = c.
Proof.
  intros [Hd Hall]. unfold SetLang.
  destruct (Languages r !! langStr) as [v|] eqn:Hl; [|done].
  intros [= <- <-]. simpl. split; [|done]. split; simpl.
  - apply elem_of_dom. by eauto.
  - exact Hall.
Qed.

Lemma Register_complete (errorCodeList : list string) (r r' : Rest)
    (c c' : Catalog) :
  complete r → Register errorCodeList r c = Done tt r' c' →
  complete r' ∧ Languages r' = Languages r ∧
  DefaultLanguage r' = DefaultLanguage r ∧
  (∀ code errs, allErrs r !! code = Some errs → allErrs r' !! code = Some errs) ∧
  later c c'.
Proof.
  intros [Hd Hall] Hrun.
  pose proof (Register_outcome errorCodeList r c) as Hout.
  rewrite Hrun in Hout.
  destruct Hout as (_ & Hfresh & Hl & HL & HD & Hkeep & Hnew).
  split; [|split; [done|split; [done|split; [|done]]]].
  - split; [by rewrite HL, HD|]. intros code errs Herrs. rewrite HL.
    destruct (decide (code ∈ errorCodeList)) as [Hin|Hnotin].
    + destruct (Hnew code Hin) as (errs' & Herrs' & Hlook & Hsome).
      assert (errs' = errs) as -> by congruence. split.
      * apply set_eq. intros lang. rewrite elem_of_dom, Hlook.
        destruct (decide (lang ∈ dom (Languages r))) as [Hdl|Hdl].
        -- split; [done|]. intros _. by apply Hsome.
        -- split; [by intros [? ?]|done].
      * intros lang b Hb. rewrite Hlook in Hb.
        destruct (decide (lang ∈ dom (Languages r))); [|done].
        by eapply entry_code.
    + rewrite (Hkeep code Hnotin) in Herrs. by apply Hall.
  - intros code errs Herrs.
    destruct (decide (code ∈ errorCodeList)) as [Hin|Hnotin].
    + rewrite (Hfresh code Hin) in Herrs. done.
    + by rewrite (Hkeep code Hnotin).
Qed.

Lemma setup_outcome (calls : list Setup) :
  ∀ (r r' : Rest) (c c' : Catalog),
    complete r → setup calls r c = Done tt r' c' →
    complete r' ∧ Languages r' = Languages r ∧
    (∀ code errs, allErrs r !! code = Some errs →
       allErrs r' !! code = Some errs) ∧
    later c c'.
Proof.
  induction calls as [|[langStr|codes] calls IH]; intros r r' c c' Hc Hrun.
  - injection Hrun as <- <-.
    split; [done|]. split; [done|]. split; [done|]. apply later_refl.
  - simpl in Hrun. unfold bindP in Hrun.
    destruct (SetLang langStr r c) as [[] r1 c1|f] eqn:Hone; [|done].
    destruct (SetLang_complete _ _ _ _ _ Hc Hone) as (Hc1 & HL1 & HA1 & _ & ->).
    destruct (IH _ _ _ _ Hc1 Hrun) as (Hc' & HL' & Hkeep & Hl).
    split; [done|]. split; [congruence|]. split; [|done].
    intros code errs Herrs. apply Hkeep. by rewrite HA1.
  - simpl in Hrun. unfold bindP in Hrun.
    destruct (Register codes r c) as [[] r1 c1|f] eqn:Hone; [|done].
    destruct (Register_complete _ _ _ _ _ Hc Hone)
      as (Hc1 & HL1 & _ & Hkeep1 & Hl1).
    destruct (IH _ _ _ _ Hc1 Hrun) as (Hc' & HL' & Hkeep & Hl).
    split; [done|]. split; [congruence|]. split; [by eauto|].
    by eapply later_trans.
Qed.

Lemma GetLanguageByCtx_outcome (ctx : Any) (r : Rest) (c : Catalog) :
  GetLanguageByCtx ctx r c =
  match ctx with
  | AOther _ _ => Abort PanicAssertString
  | AString language =>
      Done (if decide (language ∈ dom (Languages r)) then language
            else DefaultLanguage r) r c
  | ANil =>
      Done (DefaultLanguage r) r c
  end.
Proof.
  unfold GetLanguageByCtx, bindP, getRest, retP, abort.
  destruct ctx as [|language|goType text]; [| |done].
  - by destruct (Languages r !! DefaultLanguage r).
  - destruct (Languages r !! language) as [v|] eqn:Hl.
    + rewrite decide_True; [done|]. apply elem_of_dom. by eauto.
    + rewrite decide_False; [done|]. by apply not_elem_of_dom.
Qed.

(** [NewHTTPError] on a complete registry. *)
Lemma NewHTTPError_found (ctx : Any) (httpCode : Z) (errorCode : string)
    (r : Rest) (c : Catalog) (errs : gmap string BaseError) :
  complete r → allErrs r !! errorCode = Some errs →
  (∀ goType text, ctx ≠ AOther goType text) →
  ∃ lang b,
    lang = match ctx with
           | AString language =>
               if decide (language ∈ dom (Languages r)) then language
               else DefaultLanguage r
           | _ => DefaultLanguage r
           end ∧
    lang ∈ dom (Languages r) ∧ errs !! lang = Some b ∧
    NewHTTPError ctx httpCode errorCode r c
    = Done (mkHTTPError httpCode lang
              (mkBaseError errorCode (Description b) (Solution b)
                 (ErrorLink b) (ErrorDetails b) None None)) r c.
Proof.
  intros [Hd Hall] Herrs Hctx.
  destruct (Hall errorCode errs Herrs) as [Hdom _].
  set (lang := match ctx with
               | AString language =>
                   if decide (language ∈ dom (Languages r)) then language
                   else DefaultLanguage r
               | _ => DefaultLanguage r
               end).
  assert (lang ∈ dom (Languages r)) as Hlang.
  { unfold lang. destruct ctx as [|language|]; [done| |done].
    by destruct (decide (language ∈ dom (Languages r))). }
  assert (GetLanguageByCtx ctx r c = Done lang r c) as Hget.
  { rewrite GetLanguageByCtx_outcome. unfold lang.
    destruct ctx as [|language|goType text]; [done|done|].
    by destruct (Hctx goType text). }
  assert (is_Some (errs !! lang)) as [b Hb]
    by (apply elem_of_dom; by rewrite Hdom).
  exists lang, b. split; [done|]. split; [done|]. split; [done|].
  unfold NewHTTPError, bindP. rewrite Hget. unfold getRest.
  rewrite Herrs. simpl. by rewrite Hb.
Qed.

End SetupFacts.

Section SetupTheorems.
Context `{TemplateEngine} `{MapRange}.

(** X8. The registry stays complete. As the package starts, and after
    every sequence of [SetLang] and [Register] calls that returns, the
    default language is a supported language, every registered code has
    an entry for exactly the supported languages, each under its own
    code; the supported languages never change, and an entry once
    registered, the built-in [InternalError] among them, is never changed
    or removed. *)
Theorem setup_complete :
  complete initRest ∧
  ∀ (calls : list Setup) (r r' : Rest) (c c' : Catalog),
    complete r → setup calls r c = Done tt r' c' →
    complete r' ∧ Languages r' = Languages r ∧
    ∀ errorCode errs, allErrs r !! errorCode = Some errs →
      allErrs r' !! errorCode = Some errs.
Proof.
  split; [apply initRest_complete|].
  intros calls r r' c c' Hc Hrun.
  destruct (setup_outcome calls r r' c c' Hc Hrun) as (? & ? & ? & _). done.
Qed.

(** X9. On a complete registry [NewHTTPError] returns, for every
    registered code and every context that holds a string or nothing
    under [XLangKey], an error in a supported language: the language of the
    context when it is supported, the default language otherwise. The
    error carries the HTTP code and the error code of the call, the
    description, solution, link and details of the registered entry for
    that language, and no template data; the registry and the catalog
    are left as they were. *)
Theorem NewHTTPError_complete (ctx : Any) (httpCode : Z) (errorCode : string)
    (r : Rest) (c : Catalog) (errs : gmap string BaseError) :
  complete r → allErrs r !! errorCode = Some errs →
  (∀ goType text, ctx ≠ AOther goType text) →
  ∃ lang b,
    lang = match ctx with
           | AString language =>
               if decide (language ∈ dom (Languages r)) then language
               else DefaultLanguage r
           | _ => DefaultLanguage r
           end ∧
    lang ∈ dom (Languages r) ∧ errs !! lang = Some b ∧
    NewHTTPError ctx httpCode errorCode r c
    = Done (mkHTTPError httpCode lang
              (mkBaseError errorCode (Description b) (Solution b)
                 (ErrorLink b) (ErrorDetails b) None None)) r c.
Proof. by apply NewHTTPError_found. Qed.

(** X10. [NewHTTPError] ends the process only when the context holds
    under [XLangKey] a value that is no string, or when the code is not
    registered, and never for a language the entry of the code lacks: its
    second test reads the result of the first lookup. For such a
    language it returns an error with empty description, solution and
    link and nil details. *)
Theorem NewHTTPError_missing_language (ctx : Any) (httpCode : Z)
    (errorCode : string) (r : Rest) (c : Catalog) :
  (∀ f, NewHTTPError ctx httpCode errorCode r c = Abort f →
     (f = PanicAssertString ∧ ∃ goType text, ctx = AOther goType text) ∨
     (f = FatalMissingCode errorCode ∧ allErrs r !! errorCode = None)) ∧
  (∀ errs lang,
     allErrs r !! errorCode = Some errs →
     GetLanguageByCtx ctx r c = Done lang r c → errs !! lang = None →
     NewHTTPError ctx httpCode errorCode r c
     = Done (mkHTTPError httpCode lang
               (mkBaseError errorCode "" "" "" ANil None None)) r c).
Proof.
  split.
  - intros f. unfold NewHTTPError, bindP. rewrite GetLanguageByCtx_outcome.
    destruct ctx as [|language|goType text].
    + unfold getRest, abort, retP.
      destruct (allErrs r !! errorCode); [done|]. intros [= <-]. by right.
    + unfold getRest, abort, retP.
      destruct (allErrs r !! errorCode); [done|]. intros [= <-]. by right.
    + intros [= <-]. left. by eauto.
  - intros errs lang Herrs Hget Hnone.
    unfold NewHTTPError, bindP. rewrite Hget. unfold getRest.
    rewrite Herrs. simpl. by rewrite Hnone.
Qed.

End SetupTheorems.

(** ** An error and its texts *)

Section ErrorFacts.
Context `{TemplateEngine} `{MapRange}.

Lemma Translate_compile (lang messageId : string)
    (d : option (gmap string Value)) (c c' : Catalog) (out : string) :
  Translate lang messageId d c = Ret out c' → c' = compile c lang messageId.
Proof.
  intros Hrun. unfold compile.
  destruct (getMessage c lang messageId) as [message|] eqn:Hget.
  2:{ pose proof (Translate_render lang messageId d c) as Hr.
      rewrite Hrun in Hr. destruct Hr as (Hr & _). unfold render in Hr.
      by rewrite Hget in Hr. }
  rewrite (Translate_found c lang messageId d message Hget) in Hrun.
  destruct (Contains (Data message) leftDelim); simpl in *; [|congruence].
  unfold compiled in Hrun.
  destruct (parseOnce message); simpl.
  - destruct (parsedTemplate message) as [t|]; [|done].
    destruct (Execute t d); congruence.
  - destruct (Parse (Data message)) as [t|]; [|done].
    destruct (Execute t d); congruence.
Qed.

(** [Translate] returns the rendered text and leaves the message
    compiled. *)
Lemma Translate_Ret_iff (lang messageId : string)
    (d : option (gmap string Value)) (c c' : Catalog) (out : string) :
  Translate lang messageId d c = Ret out c' ↔
  render c lang messageId d = Some out ∧ c' = compile c lang messageId.
Proof.
  split.
  - intros Hrun. split; [|by eapply Translate_compile].
    pose proof (Translate_render lang messageId d c) as Hr.
    rewrite Hrun in Hr. by destruct Hr.
  - intros [Hr ->].
    pose proof (Translate_render lang messageId d c) as Hout.
    destruct (Translate lang messageId d c) as [out' c''|f] eqn:Hrun;
      [|congruence].
    destruct Hout as (Hr' & _). apply Translate_compile in Hrun. congruence.
Qed.

Lemma later_compile (c : Catalog) (lang messageId : string) :
  later c (compile c lang messageId).
Proof.
  unfold compile.
  destruct (getMessage c lang messageId) as [message|] eqn:Hget;
    [|apply later_refl].
  destruct (Contains (Data message) leftDelim); simpl; [|apply later_refl].
  destruct (parseOnce message) eqn:Honce; simpl; [apply later_refl|].
  destruct (Parse (Data message)) as [t|] eqn:Hparse; [|apply later_refl].
  destruct (compiled_stored message t Honce Hparse) as (HC & _).
  split; [by eapply evolves_setMessage|].
  intros l m. apply settled_setMessage; [by eauto|done].
Qed.

Lemma setMessage_commute (c : Catalog) (l1 m1 l2 m2 : string)
    (x y : Message) :
  (l1, m1) ≠ (l2, m2) →
  setMessage (setMessage c l1 m1 x) l2 m2 y
  = setMessage (setMessage c l2 m2 y) l1 m1 x.
Proof.
  intros Hne. unfold setMessage.
  destruct (decide (l1 = l2)) as [->|Hl].
  - rewrite !alter_alter_eq. apply alter_ext. intros t _. simpl.
    apply insert_insert_ne. intros ->. done.
  - apply alter_alter_ne. congruence.
Qed.

Lemma getMessage_compile (c : Catalog) (l1 m1 l2 m2 : string) :
  (l1, m1) ≠ (l2, m2) →
  getMessage (compile c l1 m1) l2 m2 = getMessage c l2 m2.
Proof.
  intros Hne. unfold compile.
  destruct (getMessage c l1 m1) as [message|] eqn:Hget; [|done].
  destruct (Contains (Data message) leftDelim && negb (parseOnce message));
    [|done].
  destruct (Parse (Data message)) as [t|]; [|done].
  rewrite getMessage_setMessage by eauto.
  rewrite decide_False; [done|]. intros [-> ->]. done.
Qed.

(** Compiling two messages, in either order. *)
Lemma compile_commute (c : Catalog) (l1 m1 l2 m2 : string) :
  (l1, m1) ≠ (l2, m2) →
  compile (compile c l1 m1) l2 m2 = compile (compile c l2 m2) l1 m1.
Proof.
  intros Hne.
  assert ((l2, m2) ≠ (l1, m1)) as Hne' by congruence.
  unfold compile at 1 3.
  rewrite (getMessage_compile c l1 m1 l2 m2 Hne).
  rewrite (getMessage_compile c l2 m2 l1 m1 Hne').
  destruct (getMessage c l2 m2) as [y|] eqn:Hy,
           (getMessage c l1 m1) as [x|] eqn:Hx.
  - unfold compile. rewrite Hx, Hy.
    destruct (Contains (Data y) leftDelim && negb (parseOnce y));
      destruct (Contains (Data x) leftDelim && negb (parseOnce x)); try done.
    destruct (Parse (Data y)) as [ty|], (Parse (Data x)) as [tx|]; try done.
    by apply setMessage_commute.
  - unfold compile. by rewrite Hx, Hy.
  - unfold compile. by rewrite Hx, Hy.
  - unfold compile. by rewrite Hx, Hy.
Qed.

Lemma append_inj (s a b : string) : s +:+ a = s +:+ b → a = b.
Proof.
  induction s as [|ch s IH]; [done|].
  change (String ch (s +:+ a) = String ch (s +:+ b) → a = b).
  intros [= Heq]. by apply IH.
Qed.

(** Two calls of [Translate] on different messages, in either order. *)
Lemma Translate_commute (l1 m1 l2 m2 : string)
    (d1 d2 : option (gmap string Value)) (c c1 c12 : Catalog) (o1 o2 : string) :
  (l1, m1) ≠ (l2, m2) →
  Translate l1 m1 d1 c = Ret o1 c1 → Translate l2 m2 d2 c1 = Ret o2 c12 →
  ∃ c2, Translate l2 m2 d2 c = Ret o2 c2 ∧ Translate l1 m1 d1 c2 = Ret o1 c12.
Proof.
  intros Hne [Hr1 ->]%Translate_Ret_iff [Hr2 ->]%Translate_Ret_iff.
  rewrite (render_later c) in Hr2 by apply later_compile.
  exists (compile c l2 m2). split.
  - by apply Translate_Ret_iff.
  - apply Translate_Ret_iff. split.
    + by rewrite (render_later c) by apply later_compile.
    + by apply compile_commute.
Qed.

Lemma WithDescription_WithSolution_order (e e' : HTTPError)
    (d1 d2 : option (gmap string Value)) (r r' : Rest) (c c' : Catalog) :
  (e1 <~ WithDescription e d1 ;; WithSolution e1 d2) r c = Done e' r' c' →
  (e1 <~ WithSolution e d2 ;; WithDescription e1 d1) r c = Done e' r' c'.
Proof.
  unfold WithDescription, WithSolution, bindP, i18n, retP. simpl.
  destruct (Translate (Language e) (ErrorCode (Base e) +:+ ".Description") d1 c)
    as [o1 c1|f] eqn:Hone; [|done]. simpl.
  destruct (Translate (Language e) (ErrorCode (Base e) +:+ ".Solution") d2 c1)
    as [o2 c12|f] eqn:Htwo; [|done].
  intros [= <- <- <-].
  assert ((Language e, ErrorCode (Base e) +:+ ".Description")
          ≠ (Language e, ErrorCode (Base e) +:+ ".Solution")) as Hne
    by (intros [= Heq%append_inj]; done).
  destruct (Translate_commute _ _ _ _ _ _ _ _ _ _ _ Hne Hone Htwo)
    as (c2 & -> & Hfour).
  simpl. by rewrite Hfour.
Qed.

End ErrorFacts.

Section ErrorTheorems.
Context `{TemplateEngine} `{MapRange}.

(** X12. [WithDescription] and [WithSolution] can be chained in either
    order: [e.WithDescription(d1).WithSolution(d2)] returns exactly when
    [e.WithSolution(d2).WithDescription(d1)] does, with the same error
    (both texts rendered, both template maps stored, all other fields of
    [e] kept) and the same catalog. *)
Theorem WithDescription_WithSolution_commute (e e' : HTTPError)
    (d1 d2 : option (gmap string Value)) (r r' : Rest) (c c' : Catalog) :
  (e1 <~ WithDescription e d1 ;; WithSolution e1 d2) r c = Done e' r' c' ↔
  (e1 <~ WithSolution e d2 ;; WithDescription e1 d1) r c = Done e' r' c'.
Proof.
  split; [apply WithDescription_WithSolution_order|].
  unfold WithDescription, WithSolution, bindP, i18n, retP. simpl.
  destruct (Translate (Language e) (ErrorCode (Base e) +:+ ".Solution") d2 c)
    as [o2 c2|f] eqn:Hone; [|done]. simpl.
  destruct (Translate (Language e) (ErrorCode (Base e) +:+ ".Description") d1 c2)
    as [o1 c21|f] eqn:Htwo; [|done].
  intros [= <- <- <-].
  assert ((Language e, ErrorCode (Base e) +:+ ".Solution")
          ≠ (Language e, ErrorCode (Base e) +:+ ".Description")) as Hne
    by (intros [= Heq%append_inj]; done).
  destruct (Translate_commute _ _ _ _ _ _ _ _ _ _ _ Hne Hone Htwo)
    as (c1 & -> & Hfour).
  simpl. by rewrite Hfour.
Qed.

End ErrorTheorems.

Section RoundTrip.
Context `{TemplateEngine} `{MapRange}.

(** X13. An error of a code that [Register] registered is a fixed point
    of [WithDescription(nil)] and [WithSolution(nil)]: whatever [SetLang]
    and [Register] calls followed, and whatever the language of the
    request, the error [NewHTTPError] returns carries the texts that
    rendering on the nil map gives again, and the two methods return it
    as it is, leaving the registry and the catalog as they are. *)
Theorem WithDescription_nil_fixpoint (errorCodeList : list string)
    (calls : list Setup) (r r1 r2 : Rest) (c c1 c2 : Catalog)
    (ctx : Any) (httpCode : Z) (errorCode : string) :
  complete r →
  Register errorCodeList r c = Done tt r1 c1 →
  setup calls r1 c1 = Done tt r2 c2 →
  errorCode ∈ errorCodeList →
  (∀ goType text, ctx ≠ AOther goType text) →
  ∃ e, NewHTTPError ctx httpCode errorCode r2 c2 = Done e r2 c2 ∧
    WithDescription e None r2 c2 = Done e r2 c2 ∧
    WithSolution e None r2 c2 = Done e r2 c2.
Proof.
  intros Hc Hreg Hsetup Hin Hctx.
  destruct (Register_complete _ _ _ _ _ Hc Hreg) as (Hc1 & HL1 & _ & _ & Hl1).
  pose proof (Register_outcome errorCodeList r c) as Hout.
  rewrite Hreg in Hout. destruct Hout as (_ & _ & _ & _ & _ & _ & Hnew).
  destruct (Hnew errorCode Hin) as (errs & Herrs & Hlook & Hsome).
  destruct (setup_outcome _ _ _ _ _ Hc1 Hsetup) as (Hc2 & HL2 & Hkeep & Hl2).
  apply Hkeep in Herrs.
  destruct (NewHTTPError_found ctx httpCode errorCode r2 c2 errs Hc2 Herrs Hctx)
    as (lang & b & _ & Hlang & Hb & Hnew_error).
  rewrite HL2, HL1 in Hlang.
  destruct (Hsome lang Hlang) as [_ Hsettled].
  apply (settledTexts_later c1 c2) in Hsettled as (HsD & HsS & _); [|done].
  rewrite Hlook, decide_True in Hb by done. unfold entry in Hb.
  destruct (render c lang (errorCode +:+ ".Description") None) as [d|] eqn:HrD;
    [|done].
  destruct (render c lang (errorCode +:+ ".Solution") None) as [s|] eqn:HrS;
    [|done].
  destruct (render c lang (errorCode +:+ ".ErrorLink") None) as [l|] eqn:HrL;
    [|done].
  simpl in Hb. injection Hb as <-. simpl in Hnew_error.
  assert (later c c2) as Hl by (by eapply later_trans).
  eexists. split; [exact Hnew_error|].
  unfold WithDescription, WithSolution, bindP, i18n, retP. simpl.
  rewrite (Translate_again c c2 lang _ d Hl HrD HsD).
  rewrite (Translate_again c c2 lang _ s Hl HrS HsS). done.
Qed.

End RoundTrip.

(** ** Requests *)

Section ServerTheorems.
Context `{TemplateEngine} `{MapRange} `{!RestEnv} `{GinWriter}.

Lemma GetLanguageCtx_string (langStr : string) :
  ∃ language, GetLanguageCtx langStr = AString language ∧
    (language = "" ∨
     langStr ≠ "" ∧ ParseAcceptLanguage langStr = Some [language]).
Proof.
  unfold GetLanguageCtx.
  destruct (String.eqb_spec langStr "") as [->|Hne]; [by eauto|].
  destruct (ParseAcceptLanguage langStr) as [[|tag [|more tags]]|] eqn:Hp;
    by eauto.
Qed.

Lemma initRest_languages (lang : string) :
  lang ∈ dom (Languages initRest) ↔ lang = "zh-CN" ∨ lang = "en-US".
Proof.
  simpl. rewrite dom_insert_L, dom_singleton_L, elem_of_union,
    !elem_of_singleton. done.
Qed.

(** X11. The language of an answer is always one of the two supported
    languages. It is the tag of the request header [X-Language] when the
    header is not empty, parses to exactly one tag, and that tag is
    supported; for an empty header, one that does not parse, one
    that lists several tags, and an unsupported tag, it is the default
    language. *)
Theorem request_language (calls : list Setup) (r : Rest) (c0 c : Catalog)
    (langStr : string) :
  setup calls initRest c0 = Done tt r c →
  ∃ lang,
    GetLanguageByCtx (GetLanguageCtx langStr) r c = Done lang r c ∧
    (lang = "zh-CN" ∨ lang = "en-US") ∧
    (∀ tag, langStr ≠ "" → ParseAcceptLanguage langStr = Some [tag] →
       tag = "zh-CN" ∨ tag = "en-US" → lang = tag) ∧
    ((langStr = "" ∨
      ∀ tag, ParseAcceptLanguage langStr = Some [tag] →
        tag ≠ "zh-CN" ∧ tag ≠ "en-US") →
     lang = DefaultLanguage r).
Proof.
  intros Hsetup.
  destruct (setup_outcome _ _ _ _ _ initRest_complete Hsetup)
    as ([Hd _] & HL & _ & _).
  assert (∀ lang, lang ∈ dom (Languages r) ↔ lang = "zh-CN" ∨ lang = "en-US")
    as Hlangs by (intros lang; rewrite HL; apply initRest_languages).
  destruct (GetLanguageCtx_string langStr) as (language & Hctx & Hcase).
  rewrite Hctx, GetLanguageByCtx_outcome.
  eexists. split; [done|].
  destruct (decide (language ∈ dom (Languages r))) as [Hin|Hnotin].
  - split; [by apply Hlangs|]. split.
    + intros tag Hne Hp _. destruct Hcase as [->|[_ Hp']]; [|congruence].
      apply Hlangs in Hin as [?|?]; done.
    + intros [->|Hall].
      * destruct Hcase as [->|[? _]]; [|done].
        apply Hlangs in Hin as [?|?]; done.
      * destruct Hcase as [->|[_ Hp]].
        -- apply Hlangs in Hin as [?|?]; done.
        -- destruct (Hall language Hp) as [? ?].
           apply Hlangs in Hin as [?|?]; done.
  - split; [by apply Hlangs|]. split; [|done].
    intros tag Hne Hp Htag. destruct Hcase as [->|[_ Hp']].
    + exfalso. unfold GetLanguageCtx in Hctx.
      destruct (String.eqb_spec langStr "") as [|_]; [done|].
      rewrite Hp in Hctx. injection Hctx as ->. destruct Htag; done.
    + assert (language = tag) as -> by congruence.
      exfalso. by apply Hnotin, Hlangs.
Qed.

(** X14. What [ReplyError] hands to [c.String], however the package
    was set up. For an [*HTTPError] that is not nil: its HTTP code and
    its JSON text. For an error of another type: the status 500 and the
    JSON text of the built-in [InternalError] in one of the two supported
    languages, with the text of the error as details; no message is
    translated, and the call of [NewHTTPError] inside does not end the
    process. In both cases [ReplyError] returns when [c.String] returns,
    with the registry and the catalog as they were, and ends the process
    only when [c.String] panics. A nil [*HTTPError] and a nil error end
    in a panic before anything is sent. *)
Theorem ReplyError_answer (calls : list Setup) (r : Rest) (c0 c : Catalog)
    (langStr : string) :
  setup calls initRest c0 = Done tt r c →
  (∀ e, ReplyError langStr (ErrHTTP (Some e)) r c
        = match cString "application/json" (HTTPCode e) (Error e) with
          | Some sent => Done sent r c
          | None => Abort PanicString
          end) ∧
  (∀ text, ∃ lang b,
     commonErrorI18n !! InternalError ≫= (λ errs, errs !! lang) = Some b ∧
     ReplyError langStr (ErrOther text) r c
     = match cString "application/json" 500
               (Error (mkHTTPError 500 lang
                         (mkBaseError "InternalError" (Description b)
                            (Solution b) (ErrorLink b) (AString text)
                            None None))) with
       | Some sent => Done sent r c
       | None => Abort PanicString
       end) ∧
  ReplyError langStr (ErrHTTP None) r c = Abort PanicNilError ∧
  ReplyError langStr ErrNil r c = Abort PanicNilError.
Proof.
  intros Hsetup.
  destruct (setup_outcome _ _ _ _ _ initRest_complete Hsetup)
    as (Hc & _ & Hkeep & _).
  assert (is_Some (commonErrorI18n !! InternalError)) as [errs Herrs]
    by (unfold commonErrorI18n; rewrite lookup_singleton_eq; by eauto).
  pose proof (Hkeep InternalError errs Herrs) as Herrs'.
  destruct (GetLanguageCtx_string langStr) as (language & Hctx & _).
  destruct (NewHTTPError_found (AString language) 500 InternalError r c errs
              Hc Herrs' ltac:(done))
    as (lang & b & _ & _ & Hb & Hnew).
  split; [done|]. split; [|split; [done|]].
  - intros text. exists lang, b. split; [by rewrite Herrs|].
    unfold ReplyError, bindP, StatusInternalServerError.
    rewrite Hctx, Hnew. done.
  - unfold ReplyError, bindP, StatusInternalServerError.
    rewrite Hctx, Hnew. done.
Qed.

End ServerTheorems.

(** * The render engine and the fragment of [text/template] *)

Section EngineFacts.
#[local] Existing Instance GoTemplate.engine.

Lemma Contains_cons (a : ascii) (s substr : string) :
  Contains (String a s) substr = false →
  String.prefix substr (String a s) = false ∧ Contains s substr = false.
Proof.
  change (Contains (String a s) substr) with
    (if String.prefix substr (String a s) then true else Contains s substr).
  by destruct (String.prefix substr (String a s)).
Qed.

Lemma prefix_two (x a b : ascii) (s : string) :
  String.prefix (String x (String x EmptyString)) (String a (String b s))
  = Ascii.eqb a x && Ascii.eqb b x.
Proof.
  simpl. destruct (ascii_dec x a) as [<-|Ha].
  - rewrite Ascii.eqb_refl. destruct (ascii_dec x b) as [<-|Hb].
    + rewrite Ascii.eqb_refl. by destruct s.
    + destruct (Ascii.eqb_spec b x); [congruence|done].
  - destruct (Ascii.eqb_spec a x); [congruence|done].
Qed.

Lemma Contains_one (x a : ascii) :
  Contains (String a EmptyString) (String x (String x EmptyString)) = false.
Proof. cbn [Contains String.prefix]. by destruct (ascii_dec x a). Qed.

(** An action that is never closed does not lex. *)
Lemma lexAction_unclosed (s : string) :
  ∀ body, Contains s "}}" = false → GoTemplate.lexAction body s = None.
Proof.
  induction s as [|a s IH]; intros body Hno; [done|].
  apply Contains_cons in Hno as [Hpre Hno].
  destruct s as [|b rest]; [done|].
  - rewrite prefix_two in Hpre.
    change (GoTemplate.lexAction body (String a (String b rest))) with
      (if Ascii.eqb a "}" && Ascii.eqb b "}" then
         name ← GoTemplate.fieldOf body;
         nodes ← GoTemplate.lexText EmptyString rest;
         Some (GoTemplate.FieldNode name :: nodes)
       else GoTemplate.lexAction (body +:+ String a EmptyString) (String b rest)).
    rewrite Hpre. by apply IH.
Qed.

(** A text with an opening delimiter and no closing one does not
    parse. *)
Lemma lexText_unclosed (s : string) :
  ∀ text, Contains s "{{" = true → Contains s "}}" = false →
    GoTemplate.lexText text s = None.
Proof.
  induction s as [|a s IH]; intros text Hopen Hno; [done|].
  apply Contains_cons in Hno as [_ Hno].
  destruct s as [|b rest].
  - by rewrite Contains_one in Hopen.
  - change (GoTemplate.lexText text (String a (String b rest))) with
      (if Ascii.eqb a "{" && Ascii.eqb b "{" then
         nodes ← GoTemplate.lexAction EmptyString rest;
         Some (app (GoTemplate.textNode text) nodes)
       else GoTemplate.lexText (text +:+ String a EmptyString) (String b rest)).
    destruct (Ascii.eqb a "{" && Ascii.eqb b "{") eqn:Hab.
    + apply Contains_cons in Hno as [_ Hno].
      by rewrite (lexAction_unclosed rest "" Hno).
    + apply IH; [|done].
      change (Contains (String a (String b rest)) "{{") with
        (if String.prefix "{{" (String a (String b rest)) then true
         else Contains (String b rest) "{{") in Hopen.
      by rewrite prefix_two, Hab in Hopen.
Qed.

(** A text without an opening delimiter is one text node. *)
Lemma lexText_plain (s : string) :
  ∀ text, Contains s "{{" = false →
    GoTemplate.lexText text s = Some (GoTemplate.textNode (text +:+ s)).
Proof.
  induction s as [|a s IH]; intros text Hno.
  - simpl. by rewrite append_empty_r.
  - apply Contains_cons in Hno as [Hpre Hno].
    assert (text +:+ String a s = (text +:+ String a EmptyString) +:+ s) as ->
      by (by rewrite string_app_assoc).
    destruct s as [|b rest].
    + simpl. apply (IH (text +:+ String a EmptyString)). done.
    + rewrite prefix_two in Hpre.
      change (GoTemplate.lexText text (String a (String b rest))) with
        (if Ascii.eqb a "{" && Ascii.eqb b "{" then
           nodes ← GoTemplate.lexAction EmptyString rest;
           Some (app (GoTemplate.textNode text) nodes)
         else GoTemplate.lexText (text +:+ String a EmptyString)
                (String b rest)).
      rewrite Hpre. by apply IH.
Qed.

End EngineFacts.

Section EngineTheorems.
#[local] Existing Instance GoTemplate.engine.
Context `{MapRange} `{LocaleEnv}.

(** X15. The loader does not look into the templates. A message whose
    raw content opens an action with [{{] and has no [}}] loads with the
    rest of its directory, and the first [Translate] of it, on any data,
    ends the process with the parse report. *)
Theorem Translate_unclosed_action (localeDir : string) (c0 : Catalog)
    (lang messageId : string) (message : Message)
    (d : option (gmap string GoTemplate.GoValue)) :
  RegisterI18n localeDir ∅ = Ret tt c0 →
  getMessage c0 lang messageId = Some message →
  Contains (Data message) "{{" = true →
  Contains (Data message) "}}" = false →
  Translate lang messageId d c0
  = Exit (FatalParse messageId lang (Data message)).
Proof.
  intros Hload Hget Hopen Hno.
  destruct (RegisterI18n_fresh localeDir c0 Hload _ _ _ Hget) as [Hfresh _].
  rewrite (Translate_found c0 lang messageId d message Hget).
  change leftDelim with "{{". rewrite Hopen. simpl.
  rewrite Hfresh. unfold compiled. simpl.
  change (Parse (Data message)) with (GoTemplate.parse (Data message)).
  unfold GoTemplate.parse. by rewrite (lexText_unclosed _ "" Hopen Hno).
Qed.

(** X16. The shortcut of [Translate] changes no result: a raw content
    without [{{] parses, and its template executes, on any data, to the
    raw content itself, the text the shortcut returns without
    parsing. *)
Theorem Translate_shortcut_agrees (c : Catalog) (lang messageId : string)
    (message : Message) (d : option (gmap string GoTemplate.GoValue)) :
  getMessage c lang messageId = Some message →
  Contains (Data message) leftDelim = false →
  Translate lang messageId d c = Ret (Data message) c ∧
  ∃ t, Parse (Data message) = Some t ∧ Execute t d = Some (Data message).
Proof.
  intros Hget Hno. split.
  - rewrite (Translate_found c lang messageId d message Hget). by rewrite Hno.
  - exists (GoTemplate.textNode (Data message)). split.
    + change (Parse (Data message)) with (GoTemplate.parse (Data message)).
      unfold GoTemplate.parse. by rewrite (lexText_plain _ "" Hno).
    + change (GoTemplate.execute (GoTemplate.textNode (Data message)) d
              = Some (Data message)).
      unfold GoTemplate.execute. f_equal.
      destruct (Data message) as [|a s]; [done|]. simpl.
      done.
Qed.

End EngineTheorems.

(** ** [Register] in batches *)

Section RegisterBatches.
Context `{TemplateEngine} `{MapRange}.

Lemma compile_idem_commute (c : Catalog) (a b : string * string) :
  compile (compile c a.1 a.2) b.1 b.2 = compile (compile c b.1 b.2) a.1 a.2.
Proof.
  destruct (decide (a = b)) as [->|Hne]; [done|].
  apply compile_commute. by destruct a, b.
Qed.

Lemma compileAll_perm (keys keys' : list (string * string)) :
  keys ≡ₚ keys' → ∀ c, compileAll c keys = compileAll c keys'.
Proof.
  unfold compileAll.
  induction 1 as [|k l l' _ IH|k1 k2 l|l1 l2 l3 _ IH1 _ IH2]; intros c; simpl.
  - done.
  - apply IH.
  - by rewrite compile_idem_commute.
  - by rewrite IH1.
Qed.

Lemma compileAll_app (c : Catalog) (k1 k2 : list (string * string)) :
  compileAll c (k1 ++ k2) = compileAll (compileAll c k1) k2.
Proof. unfold compileAll. apply foldl_app. Qed.

Lemma range_keys_perm {V : Type} (n n' : nat) (m : gmap string V) :
  (range n m).*1 ≡ₚ (range n' m).*1.
Proof. by rewrite (range_perm V n m), (range_perm V n' m). Qed.

Lemma langKeys_perm (errorCode : string) (langs langs' : list string) :
  langs ≡ₚ langs' → langKeys errorCode langs ≡ₚ langKeys errorCode langs'.
Proof. intros Hp. unfold langKeys. by apply Permutation_flat_map. Qed.

Lemma registerKeys_app (l1 l2 : list string) (languages : gmap string string) :
  registerKeys (l1 ++ l2) languages
  ≡ₚ registerKeys l1 languages ++ registerKeys l2 languages.
Proof.
  induction l1 as [|code l1 IH]; [done|]. simpl.
  rewrite <- app_assoc. apply Permutation_app; [|done].
  apply langKeys_perm, range_keys_perm.
Qed.

Lemma registerLang_catalog (errorCode lang : string) (r r' : Rest)
    (c c' : Catalog) :
  registerLang errorCode lang r c = Done tt r' c' →
  c' = compileAll c (langKeys errorCode [lang]).
Proof.
  unfold registerLang, bindP, i18n.
  destruct (Translate lang (errorCode +:+ ".Description") None c)
    as [d c1|f] eqn:HD; [|done].
  destruct (Translate lang (errorCode +:+ ".Solution") None c1)
    as [s c2|f] eqn:HS; [|done].
  destruct (Translate lang (errorCode +:+ ".ErrorLink") None c2)
    as [l c3|f] eqn:HL; [|done].
  unfold getRest, putErrs, abort.
  destruct (allErrs r !! errorCode); [|done]. intros [= _ <-].
  apply Translate_compile in HD, HS, HL. by subst.
Qed.

Lemma registerLangs_catalog (errorCode : string) (langs : list string) :
  ∀ (r r' : Rest) (c c' : Catalog),
    registerLangs errorCode langs r c = Done tt r' c' →
    c' = compileAll c (langKeys errorCode langs).
Proof.
  induction langs as [|lang langs IH]; intros r r' c c'.
  - by intros [= _ <-].
  - simpl. unfold bindP at 1.
    destruct (registerLang errorCode lang r c) as [[] r1 c1|f] eqn:Hone;
      [|done].
    intros Hrest. apply IH in Hrest. apply registerLang_catalog in Hone.
    subst. unfold langKeys. simpl. done.
Qed.

(** The catalog [Register] leaves. *)
Lemma Register_catalog (errorCodeList : list string) :
  ∀ (r r' : Rest) (c c' : Catalog),
    Register errorCodeList r c = Done tt r' c' →
    c' = compileAll c (registerKeys errorCodeList (Languages r)).
Proof.
  induction errorCodeList as [|code codes IH]; intros r r' c c'.
  - by intros [= _ <-].
  - simpl. unfold bindP at 1. unfold getRest.
    destruct (allErrs r !! code); [done|].
    unfold bindP at 1. unfold putErrs. unfold bindP at 1.
    destruct (registerLangs code _ _ c) as [[] r1 c1|f] eqn:Hlangs; [|done].
    intros Hrest.
    pose proof (registerLangs_outcome code
                  (range (length codes) (Languages r)).*1
                  (mkRest (Languages r) (DefaultLanguage r)
                     (<[code := ∅]> (allErrs r)))
                  c ∅ (lookup_insert_eq _ _ _)) as Hout.
    rewrite Hlangs in Hout. destruct Hout as (_ & _ & HL & _).
    apply registerLangs_catalog in Hlangs. apply IH in Hrest.
    rewrite HL in Hrest. simpl in Hrest. subst.
    by rewrite compileAll_app.
Qed.

(** The registry [Register] leaves is determined by the list, the
    registry and the catalog it started on. *)
Lemma Register_registry_unique (codes codes' : list string) (r r1 r2 : Rest)
    (c c1 c2 : Catalog) :
  (∀ code, code ∈ codes ↔ code ∈ codes') →
  Register codes r c = Done tt r1 c1 →
  Languages r2 = Languages r → DefaultLanguage r2 = DefaultLanguage r →
  (∀ code, code ∉ codes' → allErrs r2 !! code = allErrs r !! code) →
  (∀ code, code ∈ codes' →
     ∃ errs, allErrs r2 !! code = Some errs ∧
       ∀ lang, errs !! lang =
               if decide (lang ∈ dom (Languages r))
               then entry c code lang else None) →
  r1 = r2.
Proof.
  intros Hsame Hrun HL HD Hkeep Hnew.
  pose proof (Register_outcome codes r c) as Hout. rewrite Hrun in Hout.
  destruct Hout as (_ & _ & _ & HL1 & HD1 & Hkeep1 & Hnew1).
  destruct r1 as [L1 D1 A1], r2 as [L2 D2 A2]. simpl in *.
  f_equal; [congruence|congruence|].
  apply map_eq. intros code.
  destruct (decide (code ∈ codes)) as [Hin|Hnotin].
  - destruct (Hnew1 code Hin) as (errs1 & -> & Hlook1 & _).
    destruct (Hnew code (proj1 (Hsame code) Hin)) as (errs2 & -> & Hlook2).
    f_equal. apply map_eq. intros lang. by rewrite Hlook1, Hlook2.
  - rewrite (Hkeep1 code Hnotin). symmetry. apply Hkeep.
    intros Hin. by apply Hnotin, Hsame.
Qed.

Lemma Register_app_Done (l1 l2 : list string) (r r' : Rest) (c c' : Catalog) :
  Register (l1 ++ l2) r c = Done tt r' c' →
  (Register l1 ~;; Register l2) r c = Done tt r' c'.
Proof.
  intros Hrun.
  assert (done (Register (l1 ++ l2) r c) = true) as Hdone by (by rewrite Hrun).
  apply Register_done_iff in Hdone as (Hnd & Hfresh & Hall).
  apply NoDup_app in Hnd as (Hnd1 & Hdisj & Hnd2).
  assert (done (Register l1 r c) = true) as Hdone1.
  { apply Register_done_iff. split; [done|]. split.
    - intros code Hin. apply Hfresh, elem_of_app. by left.
    - intros code lang Hin. apply Hall, elem_of_app. by left. }
  unfold bindP.
  destruct (Register l1 r c) as [[] r1 c1|f] eqn:Hone; [|done].
  pose proof (Register_outcome l1 r c) as Hout1. rewrite Hone in Hout1.
  destruct Hout1 as (_ & _ & Hl1 & HL1 & HD1 & Hkeep1 & Hnew1).
  assert (done (Register l2 r1 c1) = true) as Hdone2.
  { apply Register_done_iff. split; [done|]. split.
    - intros code Hin. rewrite Hkeep1.
      + apply Hfresh, elem_of_app. by right.
      + intros Hin1. by apply (Hdisj code).
    - intros code lang Hin Hd. rewrite (entry_later c c1) by done.
      rewrite HL1 in Hd. apply Hall; [|done]. apply elem_of_app. by right. }
  destruct (Register l2 r1 c1) as [[] r2 c2|f] eqn:Htwo; [|done].
  pose proof (Register_outcome l2 r1 c1) as Hout2. rewrite Htwo in Hout2.
  destruct Hout2 as (_ & Hfresh2 & Hl2 & HL2 & HD2 & Hkeep2 & Hnew2).
  f_equal.
  - symmetry.
    apply (Register_registry_unique (l1 ++ l2) (l1 ++ l2) r r' r2 c c' c2);
      [done|done|congruence|congruence| |].
    + intros code [Hn1 Hn2]%not_elem_of_app.
      by rewrite (Hkeep2 code Hn2), (Hkeep1 code Hn1).
    + intros code [Hin|Hin]%elem_of_app.
      * destruct (Hnew1 code Hin) as (errs & Herrs & Hlook & _).
        exists errs. split; [|done]. rewrite Hkeep2; [done|].
        intros Hin2. by apply (Hdisj code).
      * destruct (Hnew2 code Hin) as (errs & Herrs & Hlook & _).
        exists errs. split; [done|]. intros lang. rewrite Hlook, HL1.
        destruct (decide (lang ∈ dom (Languages r))); [|done].
        by apply entry_later.
  - apply Register_catalog in Hrun, Hone, Htwo. subst.
    rewrite HL1, <- compileAll_app. symmetry. apply compileAll_perm.
    apply registerKeys_app.
Qed.

(** X18. Registering in batches: [Register] of a list made of two parts
    returns exactly when [Register] of the first part followed by
    [Register] of the second returns, and then both leave the same
    registry and the same catalog. *)
Theorem Register_app (l1 l2 : list string) (r r' : Rest) (c c' : Catalog) :
  Register (l1 ++ l2) r c = Done tt r' c' ↔
  (Register l1 ~;; Register l2) r c = Done tt r' c'.
Proof.
  split; [apply Register_app_Done|]. intros Hrun.
  assert (done (Register (l1 ++ l2) r c) = true) as Hdone.
  { unfold bindP in Hrun.
    destruct (Register l1 r c) as [[] r1 c1|f] eqn:Hone; [|done].
    assert (done (Register l1 r c) = true) as Hd1 by (by rewrite Hone).
    assert (done (Register l2 r1 c1) = true) as Hd2 by (by rewrite Hrun).
    apply Register_done_iff in Hd1 as (Hnd1 & Hfresh1 & Hall1).
    apply Register_done_iff in Hd2 as (Hnd2 & Hfresh2 & Hall2).
    pose proof (Register_outcome l1 r c) as Hout1. rewrite Hone in Hout1.
    destruct Hout1 as (_ & _ & Hl1 & HL1 & _ & Hkeep1 & Hnew1).
    apply Register_done_iff. split; [|split].
    - apply NoDup_app. split; [done|]. split; [|done].
      intros code Hin1 Hin2. destruct (Hnew1 code Hin1) as (errs & Herrs & _).
      rewrite (Hfresh2 code Hin2) in Herrs. done.
    - intros code [Hin|Hin]%elem_of_app; [by apply Hfresh1|].
      destruct (decide (code ∈ l1)) as [Hin1|Hn1].
      + destruct (Hnew1 code Hin1) as (errs & Herrs & _).
        rewrite (Hfresh2 code Hin) in Herrs. done.
      + rewrite <- (Hkeep1 code Hn1). by apply Hfresh2.
    - intros code lang [Hin|Hin]%elem_of_app Hd; [by apply Hall1|].
      rewrite <- (entry_later c c1) by done. apply Hall2; [done|].
      by rewrite HL1. }
  destruct (Register (l1 ++ l2) r c) as [[] r0 c0|f] eqn:Hall; [|done].
  apply Register_app_Done in Hall. congruence.
Qed.

End RegisterBatches.

Section RegisterEngine.
#[local] Existing Instance GoTemplate.engine.
Context `{MapRange}.

(** X17. [Register] renders on the nil map: the description it stores
    for a message with a template is the template's text with the ten
    characters [<no value>] in place of every field, and that is the
    description of the errors [NewHTTPError] builds from the entry. *)
Theorem Register_no_value (errorCodeList : list string) (r r' : Rest)
    (c c' : Catalog) (errorCode lang : string) (message : Message)
    (nodes : list GoTemplate.Node) :
  Register errorCodeList r c = Done tt r' c' →
  errorCode ∈ errorCodeList → lang ∈ dom (Languages r) →
  getMessage c lang (errorCode +:+ ".Description") = Some message →
  Contains (Data message) leftDelim = true →
  compiled message = Some nodes →
  ∃ errs b,
    allErrs r' !! errorCode = Some errs ∧ errs !! lang = Some b ∧
    Description b
    = String.concat ""
        (map (λ n, match n with
                   | GoTemplate.TextNode text => text
                   | GoTemplate.FieldNode _ => "<no value>"
                   end) nodes) ∧
    ∀ ctx httpCode,
      GetLanguageByCtx ctx r' c' = Done lang r' c' →
      ∃ e, NewHTTPError ctx httpCode errorCode r' c' = Done e r' c' ∧
        Description (Base e) = Description b.
Proof.
  intros Hrun Hin Hlang Hget Hdelim Hnodes.
  pose proof (Register_outcome errorCodeList r c) as Hout.
  rewrite Hrun in Hout. destruct Hout as (_ & _ & _ & _ & _ & _ & Hnew).
  destruct (Hnew errorCode Hin) as (errs & Herrs & Hlook & Hsome).
  destruct (Hsome lang Hlang) as [[b Hb] _].
  exists errs, b. split; [done|].
  split; [by rewrite Hlook, decide_True|]. split.
  - assert (render c lang (errorCode +:+ ".Description") None
            = Some (Description b)) as Hr.
    { unfold entry in Hb.
      destruct (render c lang (errorCode +:+ ".Description") None); [|done].
      destruct (render c lang (errorCode +:+ ".Solution") None); [|done].
      destruct (render c lang (errorCode +:+ ".ErrorLink") None); [|done].
      simpl in Hb. by injection Hb as <-. }
    unfold render in Hr. rewrite Hget in Hr. simpl in Hr.
    unfold rendered in Hr. rewrite Hdelim, Hnodes in Hr. cbn in Hr.
    injection Hr as <-. f_equal.
  - intros ctx httpCode Hctx. unfold NewHTTPError, bindP. rewrite Hctx.
    unfold getRest. rewrite Herrs. simpl.
    rewrite Hlook, decide_True by done. rewrite Hb. simpl. by eexists.
Qed.

End RegisterEngine.

(** * The examples at work *)

Section MoreLoaderExamples.
#[local] Existing Instance GoTemplate.engine.
#[local] Existing Instance rangeToList.
#[local] Existing Instance localeFS.

Lemma registerFiles_any_order_witness :
  registerFiles "locale"
    ["errors.go"; "errors.zh-CN.toml"; "errors.en-US.toml"] ∅
  = Ret tt catalogLoaded.
Proof.
  refine (proj1 (registerFiles_any_order "locale"
                   ["errors.en-US.toml"; "errors.zh-CN.toml"; "errors.go"]
                   ["errors.go"; "errors.zh-CN.toml"; "errors.en-US.toml"]
                   ∅ _) catalogLoaded _).
  - apply (Permutation_rev ["errors.en-US.toml"; "errors.zh-CN.toml"; "errors.go"]).
  - exact loadLocaleDir_example.
Defined.

Lemma recGetMessages_any_order_witness :
  recGetMessages "en-US" "" documentEnSwapped {[ "en-US" := ∅ ]}
  = Ret None catalogEn.
Proof.
  refine (proj1 (recGetMessages_any_order "en-US" "" documentEn
                   documentEnSwapped {[ "en-US" := ∅ ]} catalogEn _) _).
  - apply reorder_here. apply perm_swap.
  - reflexivity.
Defined.

Lemma RegisterI18n_twice_witness :
  ∃ m data, RegisterI18n "locale" catalogLoaded = Exit (FatalExist m data data).
Proof.
  refine (RegisterI18n_twice "locale" ∅ catalogLoaded catalogLoaded
            "en-US" "Greeting" [] [] _ _ _ _).
  - exact RegisterI18n_example.
  - reflexivity.
  - eexists. reflexivity.
  - reflexivity.
Defined.

Lemma RegisterI18n_all_locales_witness :
  is_Some (getMessage catalogLoaded "zh-CN" "Greeting").
Proof.
  refine (proj1 (RegisterI18n_all_locales "locale" ∅ catalogLoaded
                   catalogLoaded [] [] "en-US" "zh-CN" "Greeting" _ _ _ _)).
  - exact RegisterI18n_example.
  - reflexivity.
  - eexists. reflexivity.
  - apply elem_of_dom. eexists. reflexivity.
Defined.

Lemma RegisterI18n_exact_witness :
  (∀ lang, lang ∈ dom catalogLoaded ↔
     ∃ name raw,
       name ∈ ["errors.en-US.toml"; "errors.zh-CN.toml"; "errors.go"] ∧
       document "locale" name = Some (lang, raw)) ∧
  (∀ lang messageId message,
     getMessage catalogLoaded lang messageId = Some message ↔
     ∃ data,
       (lang, messageId, RString data)
       ∈ leaves "locale" ["errors.en-US.toml"; "errors.zh-CN.toml"; "errors.go"] ∧
       message = newMessage data).
Proof.
  refine (RegisterI18n_exact "locale"
            ["errors.en-US.toml"; "errors.zh-CN.toml"; "errors.go"]
            catalogLoaded _ _).
  - reflexivity.
  - exact RegisterI18n_example.
Defined.

End MoreLoaderExamples.

Section BrokenExample.
#[local] Existing Instance GoTemplate.engine.
#[local] Existing Instance rangeToList.
#[local] Existing Instance brokenFS.

Lemma RegisterI18n_broken : RegisterI18n "broken" ∅ = Ret tt catalogBroken.
Proof. reflexivity. Qed.

Lemma Translate_unclosed_action_witness :
  Translate "en-US" "Bad" (Some {[ "Name" := GoTemplate.VString "Ana" ]})
    catalogBroken
  = Exit (FatalParse "Bad" "en-US" "Hello, {{.Name").
Proof.
  refine (Translate_unclosed_action "broken" catalogBroken "en-US" "Bad"
            (newMessage "Hello, {{.Name")
            (Some {[ "Name" := GoTemplate.VString "Ana" ]}) _ _ _ _).
  - exact RegisterI18n_broken.
  - reflexivity.
  - reflexivity.
  - reflexivity.
Defined.

End BrokenExample.

Section RestExampleFacts.
#[local] Existing Instance GoTemplate.engine.
#[local] Existing Instance rangeToList.
#[local] Existing Instance localeFS.
#[local] Existing Instance exampleRestEnv.
#[local] Existing Instance exampleWriter.

Lemma Translate_shortcut_agrees_witness :
  Translate "en-US" "Order.NotFound.Description" None catalogLoaded
  = Ret "Order not found" catalogLoaded ∧
  ∃ t, Parse "Order not found" = Some t ∧ Execute t None = Some "Order not found".
Proof.
  refine (Translate_shortcut_agrees catalogLoaded "en-US"
            "Order.NotFound.Description" (newMessage "Order not found")
            None _ _); reflexivity.
Defined.

Lemma done_Result (x : Result unit) :
  done x = true → x = Done tt (restOf x) (catalogOf x).
Proof. by destruct x as [[] r c|f]. Qed.

Lemma Register_example :
  Register ["NotFound"] initRest catalogErrors
  = Done tt registryErrors catalogRegistered.
Proof. by apply done_Result. Qed.

(** The entry registered for [en-US]: the description is the template
    rendered on the nil map. *)
Lemma Register_example_entry :
  allErrs registryErrors !! "NotFound" ≫= (λ errs, errs !! "en-US")
  = Some (mkBaseError "NotFound" "Order <no value> not found"
            "Check the order id" "None" (AString "") (Some ∅) (Some ∅)).
Proof. reflexivity. Qed.

Lemma Register_registry_witness :
  ∃ errs, allErrs registryErrors !! "NotFound" = Some errs ∧
    dom errs = dom (Languages initRest) ∧
    ∀ lang b, errs !! lang = Some b →
      ErrorCode b = "NotFound" ∧ ErrorDetails b = AString "" ∧
      DescriptionTemplateData b = Some ∅ ∧
      SolutionTemplateData b = Some ∅ ∧
      Translate lang ("NotFound" +:+ ".Description") None catalogRegistered
      = Ret (Description b) catalogRegistered ∧
      Translate lang ("NotFound" +:+ ".Solution") None catalogRegistered
      = Ret (Solution b) catalogRegistered ∧
      Translate lang ("NotFound" +:+ ".ErrorLink") None catalogRegistered
      = Ret (ErrorLink b) catalogRegistered.
Proof.
  refine (proj1 (proj2 (proj2 (proj2
            (Register_registry ["NotFound"] initRest registryErrors
               catalogErrors catalogRegistered Register_example))))
            "NotFound" _).
  by left.
Defined.

Lemma Register_no_value_witness :
  ∃ errs b,
    allErrs registryErrors !! "NotFound" = Some errs ∧
    errs !! "en-US" = Some b ∧
    Description b
    = String.concat ""
        (map (λ n, match n with
                   | GoTemplate.TextNode text => text
                   | GoTemplate.FieldNode _ => "<no value>"
                   end)
           [GoTemplate.TextNode "Order "; GoTemplate.FieldNode "Id";
            GoTemplate.TextNode " not found"]) ∧
    ∀ ctx httpCode,
      GetLanguageByCtx ctx registryErrors catalogRegistered
      = Done "en-US" registryErrors catalogRegistered →
      ∃ e, NewHTTPError ctx httpCode "NotFound" registryErrors catalogRegistered
           = Done e registryErrors catalogRegistered ∧
        Description (Base e) = Description b.
Proof.
  refine (Register_no_value ["NotFound"] initRest registryErrors catalogErrors
            catalogRegistered "NotFound" "en-US"
            (newMessage "Order {{.Id}} not found")
            [GoTemplate.TextNode "Order "; GoTemplate.FieldNode "Id";
             GoTemplate.TextNode " not found"]
            Register_example _ _ _ _ _).
  - by left.
  - apply elem_of_dom. eexists. reflexivity.
  - reflexivity.
  - reflexivity.
  - reflexivity.
Defined.

Lemma NewHTTPError_complete_witness :
  ∃ lang b,
    lang = (if decide ("en-US" ∈ dom (Languages initRest)) then "en-US"
            else DefaultLanguage initRest) ∧
    lang ∈ dom (Languages initRest) ∧
    ({[ "zh-CN" := mkBaseError InternalError "内部错误" "暂无" "暂无"
                     ANil None None;
        "en-US" := mkBaseError InternalError "Internal Server Error" "None"
                     "None" ANil None None ]} : gmap string BaseError)
    !! lang = Some b ∧
    NewHTTPError (AString "en-US") 500 InternalError initRest ∅
    = Done (mkHTTPError 500 lang
              (mkBaseError InternalError (Description b) (Solution b)
                 (ErrorLink b) (ErrorDetails b) None None)) initRest ∅.
Proof.
  refine (NewHTTPError_complete (AString "en-US") 500 InternalError initRest ∅
            _ initRest_complete _ _).
  - reflexivity.
  - done.
Defined.

(** A language added to [Languages] after the registration: the error
    comes back with empty texts. *)
Lemma NewHTTPError_missing_language_example :
  NewHTTPError ANil 500 InternalError registryFrench ∅
  = Done (mkHTTPError 500 "fr-FR"
            (mkBaseError InternalError "" "" "" ANil None None))
      registryFrench ∅.
Proof. reflexivity. Qed.

Lemma WithDescription_nil_fixpoint_witness :
  ∃ e,
    NewHTTPError ANil 404 "NotFound"
      (mkRest (Languages registryErrors) "en-US" (allErrs registryErrors))
      catalogRegistered
    = Done e (mkRest (Languages registryErrors) "en-US" (allErrs registryErrors))
        catalogRegistered ∧
    WithDescription e None
      (mkRest (Languages registryErrors) "en-US" (allErrs registryErrors))
      catalogRegistered
    = Done e (mkRest (Languages registryErrors) "en-US" (allErrs registryErrors))
        catalogRegistered ∧
    WithSolution e None
      (mkRest (Languages registryErrors) "en-US" (allErrs registryErrors))
      catalogRegistered
    = Done e (mkRest (Languages registryErrors) "en-US" (allErrs registryErrors))
        catalogRegistered.
Proof.
  refine (WithDescription_nil_fixpoint ["NotFound"] [DoSetLang "en-US"]
            initRest registryErrors _ catalogErrors catalogRegistered _
            ANil 404 "NotFound" initRest_complete Register_example _ _ _).
  - reflexivity.
  - by left.
  - done.
Defined.

Lemma request_language_witness :
  ∃ lang,
    GetLanguageByCtx (GetLanguageCtx "en-US, zh-CN") initRest ∅
    = Done lang initRest ∅ ∧
    (lang = "zh-CN" ∨ lang = "en-US") ∧
    (∀ tag, "en-US, zh-CN" ≠ "" →
       ParseAcceptLanguage "en-US, zh-CN" = Some [tag] →
       tag = "zh-CN" ∨ tag = "en-US" → lang = tag) ∧
    (("en-US, zh-CN" = "" ∨
      ∀ tag, ParseAcceptLanguage "en-US, zh-CN" = Some [tag] →
        tag ≠ "zh-CN" ∧ tag ≠ "en-US") →
     lang = DefaultLanguage initRest).
Proof.
  refine (request_language [] initRest ∅ ∅ "en-US, zh-CN" _). reflexivity.
Defined.

(** A header that lists two supported languages gets the default one. *)
Lemma request_language_example :
  GetLanguageByCtx (GetLanguageCtx "en-US, zh-CN") initRest ∅
  = Done "zh-CN" initRest ∅ ∧
  GetLanguageByCtx (GetLanguageCtx "en-us") initRest ∅
  = Done "en-US" initRest ∅.
Proof. split; reflexivity. Qed.

Lemma ReplyError_answer_witness :
  ∃ lang b,
    commonErrorI18n !! InternalError ≫= (λ errs, errs !! lang) = Some b ∧
    ReplyError "en-us" (ErrOther "boom") initRest ∅
    = match cString "application/json" 500
              (Error (mkHTTPError 500 lang
                        (mkBaseError "InternalError" (Description b)
                           (Solution b) (ErrorLink b) (AString "boom")
                           None None))) with
      | Some sent => Done sent initRest ∅
      | None => Abort PanicString
      end.
Proof.
  refine (proj1 (proj2 (ReplyError_answer [] initRest ∅ ∅ "en-us" _)) "boom").
  reflexivity.
Defined.

(** The built-in code cannot be registered again, and a code without
    texts in the catalog cannot be registered. *)
Lemma Register_fatal_examples :
  Register ["InternalError"] initRest catalogErrors
  = Abort (FatalDuplicate "InternalError") ∧
  Register ["NotFound"; "NotFound"] initRest catalogErrors
  = Abort (FatalDuplicate "NotFound") ∧
  Register ["Unknown"] initRest catalogErrors
  = Abort (FatalI18n (FatalNoMessage "Unknown.Description" "en-US")).
Proof. repeat split; reflexivity. Qed.

(** An error with both texts rendered again, in either order. *)
Lemma WithDescription_WithSolution_example :
  let e := mkHTTPError 404 "en-US"
             (mkBaseError "NotFound" "" "" "" ANil None None) in
  let d := Some {[ "Id" := GoTemplate.VInt 7 ]} in
  let e' := mkHTTPError 404 "en-US"
              (mkBaseError "NotFound" "Order 7 not found" "Check the order id"
                 "" ANil d None) in
  (e1 <~ WithDescription e d ;; WithSolution e1 None) initRest catalogRegistered
  = Done e' initRest catalogRegistered ∧
  (e1 <~ WithSolution e None ;; WithDescription e1 d) initRest catalogRegistered
  = Done e' initRest catalogRegistered.
Proof. split; reflexivity. Qed.

(** A plain error is answered with the built-in text in the language
    of the request; an [*HTTPError] with its own code, and with a panic
    of the writer when that code is no status. *)
Lemma ReplyError_example :
  ReplyError "en-us" (ErrOther "boom") initRest ∅
  = Done ("application/json", 500%Z, "InternalError: Internal Server Error")
      initRest ∅ ∧
  ReplyError "en-us"
    (ErrHTTP (Some (mkHTTPError 404 "en-US"
                      (mkBaseError "NotFound" "Order 7 not found" "" ""
                         ANil None None)))) initRest ∅
  = Done ("application/json", 404%Z, "NotFound: Order 7 not found")
      initRest ∅ ∧
  ReplyError "en-us"
    (ErrHTTP (Some (mkHTTPError 0 "en-US"
                      (mkBaseError "NotFound" "Order 7 not found" "" ""
                         ANil None None)))) initRest ∅
  = Abort PanicString.
Proof. repeat split; reflexivity. Qed.

End RestExampleFacts.
